(** * weft: the parser and the tree-walking interpreter

    A shallow embedding of [src/compiler/parse/Parser.ts],
    [src/compiler/parse/Stmt.ts] and [src/compiler/Interpreter.ts].

    The parser is a fuelled recursive-descent parser over a cursor into the
    token array, written in a small result monad (value / thrown exception /
    out of fuel).  The interpreter is a fuelled evaluator over defunctionalised
    closures that logs every read of the binding environment and every call
    of a host function. *)

From stdpp Require Import gmap strings list.
From Stdlib Require Import ZArith SpecFloat Permutation Ascii.

Set Warnings "-register-all".

(* ===================================================================== *)
(** * Tokens *)
(* ===================================================================== *)

(** Modelled from the spec: [scan/TokenType.ts] is not part of the sources;
    these are the token types the parser names. *)
Module TokenType.
Inductive t :=
| LeftParen | RightParen | LeftBracket | RightBracket
| Comma | Equal | ColonColon
| Operator | Identifier | Number | String | CodeLiteral
| LineBreak | EOF.

(** [===] on the enumeration. *)
Definition eqb (a b : t) : bool :=
  match a, b with
  | LeftParen, LeftParen | RightParen, RightParen
  | LeftBracket, LeftBracket | RightBracket, RightBracket
  | Comma, Comma | Equal, Equal | ColonColon, ColonColon
  | Operator, Operator | Identifier, Identifier | Number, Number
  | String, String | CodeLiteral, CodeLiteral
  | LineBreak, LineBreak | EOF, EOF => true
  | _, _ => false
  end.

Lemma eqb_eq a b : eqb a b = true <-> a = b.
Proof. destruct a, b; simpl; split; congruence. Qed.
End TokenType.

(** JavaScript numbers are IEEE 754 doubles: [x + y] and [x < y] are the
    binary64 operations, the sum rounded to the nearest double and a
    comparison with NaN false. *)
Module Number.
Definition t : Type := spec_float.
Definition add (x y : t) : t := SFadd 53 1024 x y.
Definition ltb (x y : t) : bool := SFltb x y.
Definition ofZ (z : Z) : t := binary_normalize 53 1024 z 0 false.
Definition zero : t := ofZ 0.
Definition one : t := ofZ 1.
#[global] Arguments add : simpl never.
#[global] Arguments ltb : simpl never.
#[global] Arguments ofZ : simpl never.
#[global] Arguments zero : simpl never.
#[global] Arguments one : simpl never.
End Number.

(** Modelled from the spec: [scan/Token.ts] is not part of the sources.  A
    primitive is what a token's literal slot and a JavaScript scalar can
    hold; numbers are IEEE doubles. *)
Inductive Primitive :=
| PString (s : string)
| PNumber (x : Number.t)
| PBoolean (b : bool)
| PNull
| PUndefined.

(** Modelled from the spec: a token has a type, its source text, a literal
    value and a half-open source range. *)
Record Token := mkToken {
  type : TokenType.t;
  lexeme : string;
  literal : Primitive;
  from : nat;
  to : nat;
}.

(* ===================================================================== *)
(** * Syntax trees *)
(* ===================================================================== *)

Inductive Side := SideLeft | SideRight.

(** Modelled from the spec: [parse/Expr.ts] is not part of the sources; the
    constructors are the ones [Parser.ts] and [Interpreter.ts] build and
    match on.  [Var] is the source's [Variable]. *)
Module Expr.
Inductive t :=
| Literal (value : Primitive) (token : Token)
| List (items : list t)
| Grouping (leftParen : Token) (expression : t) (rightParen : Token)
| Binary (left : t) (operator : Token) (right : t) (precedence : Number.t)
| Section (operator : Token) (expression : t) (side : Side)
| Var (name : Token)
| Application (left : t) (right : t)
| Empty.

Definition isEmpty (e : t) : bool :=
  match e with Empty => true | _ => false end.
End Expr.

(** [Stmt.ts] *)
Module Stmt.
Inductive t :=
| Expression (expression : Expr.t)
| Binding (name : Token) (args : list Token) (initializer : Token).
End Stmt.

Inductive Associativity := AssocLeft | AssocRight.

(** Modelled from the spec: [parse/Reporter.ts] is not part of the sources.
    One call of the external sink, either [reporter.error(token, message)]
    or [reporter.error(from, to, message)]; the sink is the list of the
    calls it received. *)
Inductive Report :=
| ReportToken (token : Token) (message : string)
| ReportSpan (from to : nat) (message : string).

(** The double quote character, for the messages that quote a lexeme. *)
Definition dquote : string := String "034"%char EmptyString.

(* ===================================================================== *)
(** * The parser *)
(* ===================================================================== *)

Module Parser.

(** ** The cursor and the exceptions *)

(** Modelled from the spec: the state of [BaseParser]
    ([parse/BaseParser.ts] is not part of the sources), the token array and
    the index of the lookahead. *)
Record Cursor := mkCursor {
  tokens : list Token;
  current : nat;
}.

(** Modelled from the spec: what a [ParseError] of [parse/BaseParser.ts]
    carries for span resolution, a token or an expression. *)
Inductive Source :=
| AtToken (token : Token)
| AtExpr (expr : Expr.t).

(** What the parser throws: a [ParseError], a plain [new Error(..)], or a
    bare string ([throw "..."]). *)
Inductive Thrown :=
| ParseError (source : Source) (message : string)
| PlainError (message : string)
| ThrownString (value : string).

Inductive Res (A : Type) :=
| Ok (a : A) (c : Cursor)
| Throw (e : Thrown)
| Starved.
Arguments Ok {A} a c.
Arguments Throw {A} e.
Arguments Starved {A}.

Definition P (A : Type) := Cursor -> Res A.

Definition ret {A} (a : A) : P A := fun c => Ok a c.
Definition throw {A} (e : Thrown) : P A := fun _ => Throw e.
Definition starved {A} : P A := fun _ => Starved.
Definition bind {A B} (m : P A) (k : A -> P B) : P B :=
  fun c => match m c with
           | Ok a c' => k a c'
           | Throw e => Throw e
           | Starved => Starved
           end.

Notation "x <- m ;; k" := (bind m (fun x => k))
  (at level 100, m at next level, right associativity).
Notation "m ;;; k" := (bind m (fun _ => k))
  (at level 100, right associativity).

(** ** [BaseParser]'s helpers *)

(** Modelled from the spec: [parse/BaseParser.ts] is not part of the
    sources.  The lexer ends every stream with an EOF token; a read past the
    array is read as that token. *)
Definition eofToken : Token :=
  mkToken TokenType.EOF EmptyString PUndefined 0 0.

(** Modelled from the spec: [BaseParser.peek], the token at the cursor. *)
Definition peekAt (c : Cursor) : Token :=
  default eofToken (tokens c !! current c).

(** Modelled from the spec: [BaseParser.peekNext], the token after it. *)
Definition peekNextAt (c : Cursor) : Token :=
  default eofToken (tokens c !! S (current c)).

(** Modelled from the spec: [BaseParser.previous], the token just consumed. *)
Definition previousAt (c : Cursor) : Token :=
  default eofToken (tokens c !! pred (current c)).

(** Modelled from the spec: [BaseParser.isAtEnd]. *)
Definition isAtEndAt (c : Cursor) : bool :=
  TokenType.eqb (type (peekAt c)) TokenType.EOF.

(** Modelled from the spec: [BaseParser.check]. *)
Definition checkAt (ty : TokenType.t) (c : Cursor) : bool :=
  if isAtEndAt c then false else TokenType.eqb (type (peekAt c)) ty.

Definition peek : P Token := fun c => Ok (peekAt c) c.
Definition peekNext : P Token := fun c => Ok (peekNextAt c) c.
Definition previous : P Token := fun c => Ok (previousAt c) c.
Definition isAtEnd : P bool := fun c => Ok (isAtEndAt c) c.
Definition check (ty : TokenType.t) : P bool := fun c => Ok (checkAt ty c) c.

(** Modelled from the spec: [BaseParser.advance] moves past the lookahead
    unless it is the EOF token, and returns the token consumed. *)
Definition advance : P Token :=
  fun c =>
    let c' := if isAtEndAt c then c else mkCursor (tokens c) (S (current c)) in
    Ok (previousAt c') c'.

(** Modelled from the spec: [BaseParser.match] consumes the lookahead when
    its type is one of [types]. *)
Definition match_ (types : list TokenType.t) : P bool :=
  fun c =>
    if existsb (fun ty => checkAt ty c) types
    then (advance ;;; ret true) c
    else Ok false c.

(** Modelled from the spec: [BaseParser.consume] consumes a token of the
    expected type or throws a [ParseError] at the lookahead. *)
Definition consume (ty : TokenType.t) (message : string) : P Token :=
  fun c =>
    if checkAt ty c then advance c
    else Throw (ParseError (AtToken (peekAt c)) message).

Definition isType (ty : TokenType.t) (tok : Token) : bool :=
  TokenType.eqb (type tok) ty.

(** ** The grammar *)

Section Grammar.

(** The operator table handed to the constructor. *)
Variable operators : gmap string (Number.t * Associativity).

(** [Parser.peekFunctionTerm] *)
Definition peekFunctionTermAt (c : Cursor) : bool :=
  let nextType := type (peekAt c) in
  TokenType.eqb nextType TokenType.Identifier
  || TokenType.eqb nextType TokenType.LeftParen
  || TokenType.eqb nextType TokenType.LeftBracket
  || TokenType.eqb nextType TokenType.Number
  || TokenType.eqb nextType TokenType.String.

Definition peekFunctionTerm : P bool :=
  fun c => Ok (peekFunctionTermAt c) c.

Definition undefinedOperator (tok : Token) : string :=
  "Undefined operator " +:+ dquote +:+ lexeme tok +:+ dquote.

Definition missingExpression (lNull rNull : bool) (operator : Token) : string :=
  "Missing expression "
  +:+ (if lNull then "before" else "")
  +:+ (if lNull && rNull then " and " else "")
  +:+ (if rNull then "after" else "")
  +:+ " the " +:+ dquote +:+ lexeme operator +:+ dquote +:+ " operator".

(** The tail of [Parser.grouping] once the closing parenthesis is consumed
    (the [if (leftOp || rightOp)] block and the final [return]). *)
Definition finishGrouping (leftParen : Token) (leftOp rightOp : option Token)
    (expr : Expr.t) (rightParen : Token) : P Expr.t :=
  match leftOp, rightOp with
  | None, None => ret (Expr.Grouping leftParen expr rightParen)
  | Some _, Some _ => throw (ParseError (AtToken rightParen) "Expect expression.")
  | _, _ =>
      let operator := default (default eofToken rightOp) leftOp in
      let side := match leftOp with Some _ => SideLeft | None => SideRight end in
      match operators !! lexeme operator with
      | None =>
          tok <- peek ;;
          throw (ParseError (AtToken tok) (undefinedOperator tok))
      | Some (precedence, _) =>
          match expr with
          | Expr.Binary _ _ _ exprPrecedence =>
              if Number.ltb exprPrecedence precedence
              then throw (ParseError (AtToken operator)
                     "Section operator must have lower precedence than expression")
              else ret (Expr.Grouping leftParen
                          (Expr.Section operator expr side) rightParen)
          | _ => ret (Expr.Grouping leftParen
                        (Expr.Section operator expr side) rightParen)
          end
      end
  end.

(** [Parser.expression], [Parser.application], [Parser.grouping] and
    [Parser.functionTerm], with their [while] loops as functions of their
    own.  Every call and every loop iteration takes one unit of fuel. *)
Fixpoint expression (fuel : nat) (precedence : Number.t) : P Expr.t :=
  match fuel with
  | O => starved
  | S fuel =>
      left <- application fuel ;;
      expressionLoop fuel precedence left
  end
with expressionLoop (fuel : nat) (precedence : Number.t) (left : Expr.t) : P Expr.t :=
  match fuel with
  | O => starved
  | S fuel =>
      tok <- peek ;;
      if isType TokenType.Operator tok then
        match operators !! lexeme tok with
        | None => throw (ParseError (AtToken tok) (undefinedOperator tok))
        | Some (opPrecedence, opAssociativity) =>
            if Number.ltb opPrecedence precedence then ret left
            else
              next <- peekNext ;;
              if isType TokenType.RightParen next then ret left
              else
                operator <- advance ;;
                right <- expression fuel
                  (match opAssociativity with
                   | AssocLeft => Number.add opPrecedence Number.one
                   | AssocRight => opPrecedence
                   end) ;;
                let lNull := Expr.isEmpty left in
                let rNull := Expr.isEmpty right in
                if lNull || rNull
                then throw (ParseError (AtToken operator)
                              (missingExpression lNull rNull operator))
                else expressionLoop fuel precedence
                       (Expr.Binary left operator right opPrecedence)
        end
      else ret left
  end
with application (fuel : nat) : P Expr.t :=
  match fuel with
  | O => starved
  | S fuel =>
      expr <- grouping fuel ;;
      applicationLoop fuel expr
  end
with applicationLoop (fuel : nat) (expr : Expr.t) : P Expr.t :=
  match fuel with
  | O => starved
  | S fuel =>
      more <- peekFunctionTerm ;;
      if more : bool then
        right <- grouping fuel ;;
        applicationLoop fuel (Expr.Application expr right)
      else ret expr
  end
with grouping (fuel : nat) : P Expr.t :=
  match fuel with
  | O => starved
  | S fuel =>
      opened <- match_ [TokenType.LeftParen] ;;
      if opened : bool then
        leftParen <- previous ;;
        tok <- peek ;;
        leftOp <- (if isType TokenType.Operator tok
                   then op <- advance ;; ret (Some op)
                   else ret None) ;;
        closed <- match_ [TokenType.RightParen] ;;
        if closed : bool then
          match leftOp with
          | Some op => ret (Expr.Var op)
          | None => throw (ThrownString
                      "Encountered unit literal, but unit isn't supported yet")
          end
        else
          expr <- expression fuel Number.zero ;;
          tok' <- peek ;;
          rightOp <- (if isType TokenType.Operator tok'
                      then op <- advance ;; ret (Some op)
                      else ret None) ;;
          rightParen <- consume TokenType.RightParen "Expect ')' after expression." ;;
          finishGrouping leftParen leftOp rightOp expr rightParen
      else functionTerm fuel
  end
with functionTerm (fuel : nat) : P Expr.t :=
  match fuel with
  | O => starved
  | S fuel =>
      lit <- match_ [TokenType.Number; TokenType.String] ;;
      if lit : bool then
        tok <- previous ;;
        ret (Expr.Literal (literal tok) tok)
      else
        ident <- match_ [TokenType.Identifier] ;;
        if ident : bool then
          tok <- previous ;;
          ret (Expr.Var tok)
        else
          bracket <- match_ [TokenType.LeftBracket] ;;
          if bracket : bool then
            items <- listLoop fuel [] ;;
            ret (Expr.List items)
          else ret Expr.Empty
  end
with listLoop (fuel : nat) (items : list Expr.t) : P (list Expr.t) :=
  match fuel with
  | O => starved
  | S fuel =>
      closed <- match_ [TokenType.RightBracket] ;;
      if closed : bool then ret items
      else
        atEnd <- isAtEnd ;;
        if atEnd : bool then
          tok <- peek ;;
          throw (ParseError (AtToken tok) "Unterminated list literal")
        else
          (if (0 <? length items)%nat
           then consume TokenType.Comma "Expect ',' after list items" ;;; ret tt
           else ret tt) ;;;
          item <- expression fuel Number.zero ;;
          listLoop fuel (items ++ [item])
  end.

(** The local [variable] helper of [Parser.parseFunlhs]. *)
Definition variable (varExp : Expr.t) : P Token :=
  match varExp with
  | Expr.Var name => ret name
  | _ => throw (ParseError (AtExpr varExp)
                  "Expected variable on the left-hand side of assignment")
  end.

(** [Parser.parseFunlhs] *)
Fixpoint parseFunlhs (expr : Expr.t) : P (list Token) :=
  match expr with
  | Expr.Application func arg =>
      names <- parseFunlhs func ;;
      name <- variable arg ;;
      ret (names ++ [name])
  | _ =>
      name <- variable expr ;;
      ret [name]
  end.

(** [Parser.declaration] *)
Definition declaration (fuel : nat) : P Stmt.t :=
  expr <- expression fuel Number.zero ;;
  tok <- peek ;;
  if isType TokenType.ColonColon tok then
    throw (PlainError "Parsing type annotations isn't supported yet")
  else if isType TokenType.Equal tok then
    lhs <- parseFunlhs expr ;;
    advance ;;;
    initializer <- consume TokenType.CodeLiteral
      "Right-hand sign of an assignment variable must be foreign Javascript block" ;;
    match lhs with
    | name :: args => ret (Stmt.Binding name args initializer)
    | [] => ret (Stmt.Binding eofToken [] initializer)
    end
  else ret (Stmt.Expression expr).

(** [Parser.statement] *)
Definition statement (fuel : nat) : P Stmt.t :=
  stmt <- declaration fuel ;;
  atEnd <- isAtEnd ;;
  if atEnd : bool then ret stmt
  else consume TokenType.LineBreak "Expect new line after expression." ;;; ret stmt.

(** ** The top-level loop *)

(** Modelled from the spec: [expressionBounds] of [parse/Expr.ts] is not
    part of the sources.  It resolves the span of an expression from the
    tokens the expression carries; the spec gives a span to every
    expression that is not [Empty] and says nothing of the others.  [None]
    is an expression it resolves no span for. *)
Variable expressionBounds : Expr.t -> option (nat * nat).

(** What a call of [parse] comes to: it returns the statements (the sink
    having received [reports]), or an exception that is no [ParseError]
    leaves it, or its [catch] block hands [expressionBounds] an expression
    that has no span ([NoSpan], with the statements parsed so far and the
    error that was being reported; what happens then is up to the missing
    function). *)
Inductive Run :=
| Returned (statements : list Stmt.t) (reports : list Report)
| Propagated (e : Thrown)
| NoSpan (statements : list Stmt.t) (expr : Expr.t) (message : string)
| OutOfFuel.

(** The [catch] block of [Parser.parse] for a [ParseError]. *)
Definition report (statements : list Stmt.t) (source : Source) (message : string)
    : Run :=
  match source with
  | AtToken token => Returned statements [ReportToken token message]
  | AtExpr expr =>
      match expressionBounds expr with
      | Some (from, to) => Returned statements [ReportSpan from to message]
      | None => NoSpan statements expr message
      end
  end.

(** The [while (!this.isAtEnd())] loop of [Parser.parse].  After a
    [ParseError] the source calls [synchronize] and breaks: the cursor is
    dead from there on, so [synchronize] leaves no trace in the result. *)
Fixpoint parseLoop (fuel : nat) (statements : list Stmt.t) (c : Cursor) : Run :=
  match fuel with
  | O => OutOfFuel
  | S fuel =>
      if isAtEndAt c then Returned statements []
      else if checkAt TokenType.LineBreak c then
        match advance c with
        | Ok _ c' => parseLoop fuel statements c'
        | Throw e => Propagated e
        | Starved => OutOfFuel
        end
      else
        match statement fuel c with
        | Ok stmt c' => parseLoop fuel (statements ++ [stmt]) c'
        | Throw (ParseError source message) =>
            report statements source message
        | Throw e => Propagated e
        | Starved => OutOfFuel
        end
  end.

(** [Parser.parse] *)
Definition parse (fuel : nat) (toks : list Token) : Run :=
  parseLoop fuel [] (mkCursor toks 0).

(** [parse] comes to [run] once it is given enough fuel. *)
Definition parsesTo (toks : list Token) (run : Run) : Prop :=
  exists n, forall fuel, n <= fuel -> parse fuel toks = run.

End Grammar.

End Parser.

(* ===================================================================== *)
(** * The interpreter *)
(* ===================================================================== *)

Module Interpreter.

(** ** Values *)

(** A function value that lives outside the interpreter: one the host
    installed in the environment (or that host code returned), or one
    compiled from an initializer by [new Function(...argNames, body)]. *)
Inductive HostFunction :=
| Native (name : string)
| Compiled (argNames : list string) (body : string).

(** [type Value = Primitive | Value[] | ((input: Value) => Value)], with the
    two arrow functions the interpreter itself creates kept as data: the one
    of the [Section] case of [evaluate], which captures [expr], and the one
    [curry] returns, which captures [func.left] and [arg].  [VObject] is any
    other host object (a pattern, an IO action). *)
Inductive Value :=
| VPrimitive (p : Primitive)
| VArray (items : list Value)
| VHost (f : HostFunction)
| VSectionFn (operator : Token) (expression : Expr.t) (side : Side)
| VCurried (func : Expr.t) (arg : Value)
| VObject (name : string).

Abbreviation VUndefined := (VPrimitive PUndefined).

(** An entry of the binding environment, [{ type, value }]. *)
Record Binding := mkBinding {
  kind : string;
  value : Value;
}.

(** The [this] of a call.  [this.bindings[op].value(left, right)], in the
    [Binary] case of [evaluate], is a method call: its [this] is what the
    environment holds under the operator, an entry or what the environment
    object inherits under that key.  Every other call the interpreter makes
    is a plain call. *)
Inductive Receiver :=
| Plain
| OfEntry (entry : Binding)
| OfInherited (key : string).

(** What can be thrown while interpreting. *)
Inductive Exn :=
| RuntimeError (token : Token) (message : string)
| PlainError (message : string)
| TypeError (message : string)
| HostException (payload : string).

(** What the evaluator does that can be observed from outside: it reads the
    binding environment under a key, it calls a host function, it runs an
    IO action. *)
Inductive Event :=
| EvLookup (key : string)
| EvCall (f : HostFunction) (args : list Value)
| EvRunIO (object : string).

Inductive Outcome (A : Type) :=
| Done (a : A)
| Raise (e : Exn)
| Starve.
Arguments Done {A} a.
Arguments Raise {A} e.
Arguments Starve {A}.

(** A computation: the events it performed, in order, and how it ended. *)
Definition M (A : Type) : Type := list Event * Outcome A.

Definition ret {A} (a : A) : M A := ([], Done a).
Definition raise {A} (e : Exn) : M A := ([], Raise e).
Definition starve {A} : M A := ([], Starve).
Definition tell (ev : Event) : M unit := ([ev], Done tt).
Definition bind {A B} (m : M A) (k : A -> M B) : M B :=
  match m with
  | (t, Done a) => let (t', r) := k a in (t ++ t', r)
  | (t, Raise e) => (t, Raise e)
  | (t, Starve) => (t, Starve)
  end.

Notation "x <- m ;; k" := (bind m (fun x => k))
  (at level 100, m at next level, right associativity).
Notation "m ;;; k" := (bind m (fun _ => k))
  (at level 100, right associativity).

(** [items.map(f)] for an [f] that may throw: left to right, stopping at
    the first exception. *)
Fixpoint mapM {A B} (f : A -> M B) (l : list A) : M (list B) :=
  match l with
  | [] => ret []
  | x :: l' =>
      y <- f x ;;
      ys <- mapM f l' ;;
      ret (y :: ys)
  end.

(** ** The host *)

(** Modelled from the spec: the value library, the code-compilation
    facility, the rendering hook and the environment object are external.
    [hostCall f this args] is what calling the host function [f] on [args]
    with the receiver [this] comes to (a value returned or an exception
    thrown); [syntaxError] is the exception [new Function] throws on text it
    cannot compile; [hasRunIO] tells the objects that carry a callable
    [runIO] member, [runIO] what running one comes to; [toString] is what
    rendering a value that is not null comes to, the text of a pattern or
    the result of [object.toString()], or the exception either throws;
    [inherited key] is [None] when the environment object inherits no
    property [key] from its prototype chain and [Some v] when it does, [v]
    being the [value] member of what it inherits ([undefined] for the
    members of [Object.prototype], which a plain object inherits). *)
Record Host := mkHost {
  hostCall : HostFunction -> Receiver -> list Value -> Value + Exn;
  syntaxError : list string -> string -> option Exn;
  hasRunIO : string -> bool;
  runIO : string -> option Exn;
  toString : Value -> string + Exn;
  inherited : string -> option Value;
}.

Section Evaluation.

Variable host : Host.

(** The entries of the environment the interpreter was constructed with.
    The closures read [this.bindings] when they are called, so every
    function below takes the environment of the moment as an argument. *)
Abbreviation Bindings := (gmap string Binding).

(** [key in this.bindings], and when it is, [this.bindings[key]] as a
    receiver with its [value] member: an entry, or else what the
    environment object inherits under [key]. *)
Definition member (bindings : Bindings) (key : string) : option (Receiver * Value) :=
  match bindings !! key with
  | Some b => Some (OfEntry b, value b)
  | None =>
      match inherited host key with
      | Some v => Some (OfInherited key, v)
      | None => None
      end
  end.

Definition undefinedVariable (name : Token) : string :=
  "Variable " +:+ dquote +:+ lexeme name +:+ dquote +:+ " is undefined".

(** [Interpreter.evaluate], [Interpreter.curry], and the call of a function
    value.  Every call takes one unit of fuel. *)
Fixpoint evaluate (fuel : nat) (bindings : Bindings) (expr : Expr.t) : M Value :=
  match fuel with
  | O => starve
  | S fuel =>
      match expr with
      | Expr.Literal value _ => ret (VPrimitive value)
      | Expr.List items =>
          values <- mapM (evaluate fuel bindings) items ;;
          ret (VArray values)
      | Expr.Grouping _ expression _ => evaluate fuel bindings expression
      | Expr.Binary lhs operator rhs _ =>
          left <- evaluate fuel bindings lhs ;;
          right <- evaluate fuel bindings rhs ;;
          tell (EvLookup (lexeme operator)) ;;;
          match member bindings (lexeme operator) with
          | Some (this, f) => call fuel bindings this f [left; right]
          | None => raise (RuntimeError operator "Operator isn't implemented")
          end
      | Expr.Section operator expression side =>
          ret (VSectionFn operator expression side)
      | Expr.Var name =>
          tell (EvLookup (lexeme name)) ;;;
          match member bindings (lexeme name) with
          | Some (_, v) => ret v
          | None => raise (RuntimeError name (undefinedVariable name))
          end
      | Expr.Application func arg =>
          left <- curry fuel bindings func ;;
          right <- evaluate fuel bindings arg ;;
          call fuel bindings Plain left [right]
      | Expr.Empty => ret VUndefined
      end
  end
with curry (fuel : nat) (bindings : Bindings) (func : Expr.t) : M Value :=
  match fuel with
  | O => starve
  | S fuel =>
      match func with
      | Expr.Var _ | Expr.Section _ _ _ => evaluate fuel bindings func
      | Expr.Grouping _ expression _ => curry fuel bindings expression
      | Expr.Application func' arg' =>
          arg <- evaluate fuel bindings arg' ;;
          ret (VCurried func' arg)
      | _ => raise (PlainError "Unexpected function")
      end
  end
with call (fuel : nat) (bindings : Bindings) (this : Receiver) (callee : Value)
    (args : list Value) : M Value :=
  match fuel with
  | O => starve
  | S fuel =>
      match callee with
      | VHost f =>
          tell (EvCall f args) ;;;
          match hostCall host f this args with
          | inl v => ret v
          | inr e => raise e
          end
      | VSectionFn operator expression side =>
          let input := default VUndefined (head args) in
          tell (EvLookup (lexeme operator)) ;;;
          match member bindings (lexeme operator) with
          | None => raise (TypeError "Cannot read properties of undefined")
          | Some (_, opFunc) =>
              operand <- evaluate fuel bindings expression ;;
              match side with
              | SideLeft => call fuel bindings Plain opFunc [input; operand]
              | SideRight => call fuel bindings Plain opFunc [operand; input]
              end
          end
      | VCurried func arg =>
          f <- curry fuel bindings func ;;
          call fuel bindings Plain f (arg :: args)
      | _ => raise (TypeError "not a function")
      end
  end.

(** [Interpreter.stringify]: the text of a pattern and the [toString()] of
    any other value that is not null are the host's, and either can
    throw. *)
Definition stringify (object : Value) : string + Exn :=
  match object with
  | VPrimitive PNull | VPrimitive PUndefined => inl "null"
  | _ => toString host object
  end.

(** [Interpreter.execute]: the environment after the statement and the
    value the statement returns. *)
Definition execute (fuel : nat) (bindings : Bindings) (stmt : Stmt.t)
    : M (Bindings * Value) :=
  match stmt with
  | Stmt.Expression expression =>
      v <- evaluate fuel bindings expression ;;
      ret (bindings, v)
  | Stmt.Binding name args initializer =>
      let argNames := map lexeme args in
      match literal initializer with
      | PString body =>
          match syntaxError host argNames body with
          | Some e => raise e
          | None =>
              let func := VHost (Compiled argNames body) in
              v <- (if (0 <? length args)%nat then ret func
                    else call fuel bindings Plain func []) ;;
              ret (<[lexeme name := mkBinding "" v]> bindings, VUndefined)
          end
      | _ => raise (PlainError "Initializer doesn't contain a source code string")
      end
  end.

(** How a call of [interpret] ends: it returns [results], or an exception
    that is no [RuntimeError] leaves it, or the fuel ran out. *)
Inductive Completion :=
| Returned
| Propagated (e : Exn)
| OutOfFuel.

(** A call of [interpret]: the strings collected, the calls the sink
    received, the environment it leaves, the events in order, and how the
    call ended. *)
Record Run := mkRun {
  results : list string;
  reports : list Report;
  finalBindings : Bindings;
  trace : list Event;
  completion : Completion;
}.

(** The [catch] block of [Interpreter.interpret]. *)
Definition caught (results : list string) (bindings : Bindings)
    (trace : list Event) (e : Exn) : Run :=
  match e with
  | RuntimeError token message =>
      mkRun results [ReportSpan (from token) (to token) message] bindings trace Returned
  | _ => mkRun results [] bindings trace (Propagated e)
  end.

(** The test [interpret] makes on a statement's result before it runs it. *)
Definition isRunnable (result : Value) : option string :=
  match result with
  | VObject o => if hasRunIO host o then Some o else None
  | _ => None
  end.

(** The [for] loop of [Interpreter.interpret] inside its [try]. *)
Fixpoint interpretLoop (fuel : nat) (bindings : Bindings) (results : list string)
    (trace : list Event) (statements : list Stmt.t) : Run :=
  match statements with
  | [] => mkRun results [] bindings trace Returned
  | statement :: rest =>
      match execute fuel bindings statement with
      | (t, Done (bindings', result)) =>
          match isRunnable result with
          | Some o =>
              match runIO host o with
              | Some e => caught results bindings' (trace ++ t ++ [EvRunIO o]) e
              | None =>
                  interpretLoop fuel bindings' results (trace ++ t ++ [EvRunIO o]) rest
              end
          | None =>
              match result with
              | VPrimitive PUndefined =>
                  interpretLoop fuel bindings' results (trace ++ t) rest
              | _ =>
                  match stringify result with
                  | inl text =>
                      interpretLoop fuel bindings' (results ++ [text])
                        (trace ++ t) rest
                  | inr e => caught results bindings' (trace ++ t) e
                  end
              end
          end
      | (t, Raise e) => caught results bindings (trace ++ t) e
      | (t, Starve) => mkRun results [] bindings (trace ++ t) OutOfFuel
      end
  end.

(** [Interpreter.interpret] *)
Definition interpret (fuel : nat) (bindings : Bindings) (statements : list Stmt.t)
    : Run :=
  interpretLoop fuel bindings [] [] statements.

End Evaluation.

End Interpreter.

(* ===================================================================== *)
(** * Facts about numbers *)
(* ===================================================================== *)

(** Integers below [2 ^ 53] are doubles, and on them the order and the
    sum of doubles are the order and the sum of integers. *)
Module NumberFacts.

Local Open Scope Z_scope.

Lemma iter_pos_iter {A} (f : A -> A) p x : iter_pos f p x = Pos.iter f x p.
Proof.
  revert x. induction p as [p IH|p IH|]; intros x; cbn.
  - rewrite !IH, <- !Pos.iter_swap. reflexivity.
  - rewrite !IH. reflexivity.
  - reflexivity.
Qed.

(** [m] shifted left by [k] bits. *)
Lemma shifted_value m k : Zpos (Pos.iter xO m k) = Zpos m * 2 ^ Zpos k.
Proof.
  induction k as [|k IH] using Pos.peano_ind.
  - cbn. lia.
  - rewrite Pos.iter_succ, Pos2Z.inj_succ, Z.pow_succ_r by lia.
    change (Zpos (Pos.iter xO m k)~0) with (2 * Zpos (Pos.iter xO m k)).
    rewrite IH. ring.
Qed.

Lemma shiftl_value m k : Zpos (Pos.shiftl m k) = Zpos m * 2 ^ Z.of_N k.
Proof.
  destruct k as [|k]; unfold Pos.shiftl; cbn [Z.of_N].
  - rewrite Z.pow_0_r. lia.
  - apply shifted_value.
Qed.

Lemma digits_size m : digits2_pos m = Pos.size m.
Proof. induction m; cbn; congruence. Qed.

Lemma digits_log2 m : Zpos (digits2_pos m) = Z.log2 (Zpos m) + 1.
Proof.
  rewrite digits_size. destruct m; cbn [Z.log2 Pos.size]; lia.
Qed.

Lemma digits_shiftl m k :
  Zpos (digits2_pos (Pos.shiftl m k)) = Zpos (digits2_pos m) + Z.of_N k.
Proof.
  rewrite !digits_log2, shiftl_value, Z.log2_mul_pow2 by lia. lia.
Qed.

(** Shifting out bits that are all zero loses nothing. *)
Lemma shr_exact n a :
  iter_pos shr_1 n {| shr_m := Zpos (Pos.iter xO a n); shr_r := false; shr_s := false |}
  = {| shr_m := Zpos a; shr_r := false; shr_s := false |}.
Proof.
  rewrite iter_pos_iter. revert a.
  induction n as [|n IH] using Pos.peano_ind; intros a.
  - reflexivity.
  - rewrite !Pos.iter_succ, <- Pos.iter_swap. cbn [shr_1 orb].
    apply IH.
Qed.

Definition canonical (s : bool) (a : positive) (e : Z) : spec_float :=
  S754_finite s (Pos.shiftl a (Z.to_N (53 - Zpos (digits2_pos a))))
    (Zpos (digits2_pos a) + e - 53).

(** A mantissa of 53 bits at an exponent in range is not rounded. *)
Lemma round_normal s m e :
  Zpos (digits2_pos m) = 53 -> -1074 <= e <= 971 ->
  binary_round_aux 53 1024 s (Zpos m) e loc_Exact = S754_finite s m e.
Proof.
  intros Hd He. unfold binary_round_aux, shr_fexp, fexp, emin.
  cbn [Zdigits2 shr_record_of_loc]. rewrite Hd.
  replace (Z.max (53 + e - 53) (3 - 1024 - 53) - e) with 0 by lia.
  cbn [shr shr_m loc_of_shr_record round_nearest_even shr_record_of_loc Zdigits2].
  rewrite Hd.
  replace (Z.max (53 + e - 53) (3 - 1024 - 53) - e) with 0 by lia.
  cbn [shr shr_m].
  destruct (Z.leb_spec e (1024 - 53)); [reflexivity|lia].
Qed.

Lemma pos_eq_value a b : Zpos a = Zpos b -> a = b.
Proof. intros H. injection H as ->. reflexivity. Qed.

(** Rounding a number that fits in 53 bits gives that number. *)
Lemma round_exact s a k e :
  Zpos (digits2_pos a) <= 53 ->
  -1074 <= Zpos (digits2_pos a) + Z.of_N k + e - 53 <= 971 ->
  binary_round 53 1024 s (Pos.shiftl a k) e = canonical s a (Z.of_N k + e).
Proof.
  intros Hd He. unfold binary_round, canonical.
  pose proof (digits_shiftl a k) as Hk.
  set (D := Zpos (digits2_pos a)) in *.
  assert (HD : 1 <= D) by (unfold D; lia).
  unfold fexp, emin. rewrite Hk.
  replace (Z.max (D + Z.of_N k + e - 53) (3 - 1024 - 53)) with (D + Z.of_N k + e - 53)
    by lia.
  unfold shl_align.
  destruct (D + Z.of_N k + e - 53 - e) as [|n|n] eqn:En.
  - (* exactly 53 bits *)
    assert (Ek : Z.of_N k = 53 - D) by lia.
    replace (Z.to_N (53 - D)) with k by lia.
    rewrite round_normal; [f_equal; lia| |lia].
    rewrite Hk. lia.
  - (* more than 53 bits: the low [n] bits are zero *)
    assert (Ek : Z.of_N k = 53 - D + Zpos n) by lia.
    assert (Hsplit : Pos.shiftl a k = Pos.iter xO (Pos.shiftl a (Z.to_N (53 - D))) n).
    { apply pos_eq_value. rewrite shifted_value, !shiftl_value.
      rewrite Z2N.id by lia. rewrite Ek, Z.pow_add_r by lia. ring. }
    unfold binary_round_aux, shr_fexp, fexp, emin.
    cbn [Zdigits2 shr_record_of_loc]. rewrite Hk.
    replace (Z.max (D + Z.of_N k + e - 53) (3 - 1024 - 53) - e) with (Zpos n) by lia.
    cbn [shr]. rewrite Hsplit, shr_exact.
    cbn [shr_m loc_of_shr_record round_nearest_even shr_record_of_loc Zdigits2].
    rewrite digits_shiftl. fold D. rewrite Z2N.id by lia.
    replace (Z.max (D + (53 - D) + (e + Zpos n) - 53) (3 - 1024 - 53) - (e + Zpos n))
      with 0 by lia.
    cbn [shr shr_m].
    destruct (Z.leb_spec (e + Zpos n) (1024 - 53)); [f_equal; lia|lia].
  - (* fewer than 53 bits: shifted left *)
    assert (Ek : 53 - D = Z.of_N k + Zpos n) by lia.
    assert (Hsplit : Pos.iter xO (Pos.shiftl a k) n = Pos.shiftl a (Z.to_N (53 - D))).
    { apply pos_eq_value. rewrite shifted_value, !shiftl_value.
      rewrite Z2N.id by lia. rewrite Ek, Z.pow_add_r by lia. ring. }
    rewrite Hsplit, round_normal; [f_equal; lia| |lia].
    rewrite digits_shiftl. fold D. rewrite Z2N.id by lia. lia.
Qed.

Lemma digits_bound a : Zpos a < 2 ^ 53 <-> Zpos (digits2_pos a) <= 53.
Proof.
  rewrite digits_log2, (Z.log2_lt_pow2 (Zpos a) 53) by lia. lia.
Qed.

Lemma ofZ_pos a :
  Zpos a < 2 ^ 53 -> Number.ofZ (Zpos a) = canonical false a 0.
Proof.
  intros H. apply digits_bound in H. unfold Number.ofZ, binary_normalize.
  change a with (Pos.shiftl a 0) at 1.
  rewrite round_exact; [reflexivity|exact H|].
  pose proof (Pos2Z.is_pos (digits2_pos a)). cbn [Z.of_N]. lia.
Qed.

Lemma canonical_digits s a e :
  Zpos (digits2_pos a) <= 53 ->
  match canonical s a e with
  | S754_finite _ m _ => Zpos m = Zpos a * 2 ^ (53 - Zpos (digits2_pos a))
  | _ => False
  end.
Proof.
  intros H. unfold canonical. rewrite shiftl_value, Z2N.id by lia. reflexivity.
Qed.

(** The order of two integers below [2 ^ 53] is the order of their
    doubles. *)
Lemma ltb_canonical a b :
  Zpos a < 2 ^ 53 -> Zpos b < 2 ^ 53 ->
  Number.ltb (canonical false a 0) (canonical false b 0) = (Zpos a <? Zpos b).
Proof.
  intros Ha Hb. apply digits_bound in Ha, Hb.
  unfold Number.ltb, SFltb, canonical, SFcompare.
  pose proof (digits_log2 a) as La. pose proof (digits_log2 b) as Lb.
  set (Da := Zpos (digits2_pos a)) in *. set (Db := Zpos (digits2_pos b)) in *.
  destruct (Z.compare_spec (Da + 0 - 53) (Db + 0 - 53)) as [E|E|E].
  - rewrite Pos.compare_cont_spec. cbn [Pos.switch_Eq].
    change ((Pos.shiftl a (Z.to_N (53 - Da)) ?= Pos.shiftl b (Z.to_N (53 - Db)))%positive)
      with (Zpos (Pos.shiftl a (Z.to_N (53 - Da))) ?= Zpos (Pos.shiftl b (Z.to_N (53 - Db)))).
    rewrite !shiftl_value, !Z2N.id by lia.
    replace (53 - Db) with (53 - Da) by lia.
    assert (Hp : 0 < 2 ^ (53 - Da)) by (apply Z.pow_pos_nonneg; lia).
    destruct (Z.compare_spec (Zpos a * 2 ^ (53 - Da)) (Zpos b * 2 ^ (53 - Da)))
      as [C|C|C]; destruct (Z.ltb_spec (Zpos a) (Zpos b)); try reflexivity; nia.
  - assert (Hl : Z.log2 (Zpos a) < Z.log2 (Zpos b)) by lia.
    apply Z.log2_lt_cancel in Hl.
    destruct (Z.ltb_spec (Zpos a) (Zpos b)); [reflexivity|lia].
  - assert (Hl : Z.log2 (Zpos b) < Z.log2 (Zpos a)) by lia.
    apply Z.log2_lt_cancel in Hl.
    destruct (Z.ltb_spec (Zpos a) (Zpos b)); [lia|reflexivity].
Qed.

Lemma ofZ_ltb x y :
  0 <= x < 2 ^ 53 -> 0 <= y < 2 ^ 53 ->
  Number.ltb (Number.ofZ x) (Number.ofZ y) = (x <? y).
Proof.
  intros Hx Hy. destruct x as [|a|a], y as [|b|b]; try lia.
  - reflexivity.
  - rewrite (ofZ_pos b) by lia. reflexivity.
  - rewrite (ofZ_pos a) by lia. reflexivity.
  - rewrite (ofZ_pos a), (ofZ_pos b) by lia. apply ltb_canonical; lia.
Qed.

Lemma aligned_value m e ez :
  ez <= e -> Zpos (fst (shl_align m e ez)) = Zpos m * 2 ^ (e - ez).
Proof.
  intros H. unfold shl_align. destruct (ez - e) as [|d|d] eqn:E; cbn [fst].
  - replace (e - ez) with 0 by lia. rewrite Z.pow_0_r. lia.
  - lia.
  - rewrite shifted_value. f_equal. f_equal. lia.
Qed.

(** The sum of two integers is exact when it is below [2 ^ 53]. *)
Lemma add_canonical a b :
  Zpos a + Zpos b < 2 ^ 53 ->
  Number.add (canonical false a 0) (canonical false b 0)
  = canonical false (a + b) 0.
Proof.
  intros H.
  assert (Ha : Zpos (digits2_pos a) <= 53) by (apply digits_bound; lia).
  assert (Hb : Zpos (digits2_pos b) <= 53) by (apply digits_bound; lia).
  assert (Hab : Zpos (digits2_pos (a + b)) <= 53)
    by (apply digits_bound; rewrite Pos2Z.inj_add; lia).
  pose proof (Pos2Z.is_pos (digits2_pos a)) as Pa.
  pose proof (Pos2Z.is_pos (digits2_pos b)) as Pb.
  pose proof (Pos2Z.is_pos (digits2_pos (a + b))) as Pab.
  unfold Number.add, SFadd, canonical. cbn [cond_Zopp].
  set (Da := Zpos (digits2_pos a)) in *. set (Db := Zpos (digits2_pos b)) in *.
  change (IntDef.Z.min (Da + 0 - 53) (Db + 0 - 53))
    with (Z.min (Da + 0 - 53) (Db + 0 - 53)).
  set (ez := Z.min (Da + 0 - 53) (Db + 0 - 53)).
  assert (Hez : ez <= 0 /\ ez <= Da + 0 - 53 /\ ez <= Db + 0 - 53 /\ -52 <= ez)
    by (unfold ez; lia).
  destruct Hez as (Hz & Hza & Hzb & Hzl).
  pose proof (aligned_value (Pos.shiftl a (Z.to_N (53 - Da))) (Da + 0 - 53) ez Hza) as Va.
  pose proof (aligned_value (Pos.shiftl b (Z.to_N (53 - Db))) (Db + 0 - 53) ez Hzb) as Vb.
  rewrite shiftl_value, Z2N.id in Va, Vb by lia.
  rewrite <- Z.mul_assoc, <- Z.pow_add_r in Va, Vb by lia.
  replace (53 - Da + (Da + 0 - 53 - ez)) with (- ez) in Va by lia.
  replace (53 - Db + (Db + 0 - 53 - ez)) with (- ez) in Vb by lia.
  rewrite <- Pos2Z.inj_add. unfold binary_normalize.
  assert (Hsum : (fst (shl_align (Pos.shiftl a (Z.to_N (53 - Da))) (Da + 0 - 53) ez)
                  + fst (shl_align (Pos.shiftl b (Z.to_N (53 - Db))) (Db + 0 - 53) ez))%positive
                 = Pos.shiftl (a + b) (Z.to_N (- ez))).
  { apply pos_eq_value. rewrite Pos2Z.inj_add, Va, Vb, shiftl_value, Z2N.id by lia.
    rewrite Pos2Z.inj_add. ring. }
  rewrite Hsum, round_exact; [|exact Hab|rewrite Z2N.id by lia; lia].
  rewrite Z2N.id by lia. replace (- ez + ez) with 0 by lia. reflexivity.
Qed.

Lemma ofZ_add x y :
  0 <= x -> 0 <= y -> x + y < 2 ^ 53 ->
  Number.add (Number.ofZ x) (Number.ofZ y) = Number.ofZ (x + y).
Proof.
  intros Hx Hy H. destruct x as [|a|a], y as [|b|b]; try lia.
  - reflexivity.
  - change (0 + Zpos b) with (Zpos b). rewrite (ofZ_pos b) by lia. reflexivity.
  - change (Zpos a + 0) with (Zpos a). rewrite (ofZ_pos a) by lia. reflexivity.
  - rewrite (ofZ_pos a), (ofZ_pos b) by lia.
    change (Zpos a + Zpos b) with (Zpos (a + b)).
    rewrite (ofZ_pos (a + b)) by (rewrite Pos2Z.inj_add; lia).
    apply add_canonical. exact H.
Qed.

End NumberFacts.

(* ===================================================================== *)
(** * Facts about the interpreter *)
(* ===================================================================== *)

Module InterpreterFacts.
Import Interpreter.

Section Fuel.
Variable host : Host.

Lemma evaluate_unfold fuel (bindings : gmap string Binding) expr :
  evaluate host (S fuel) bindings expr
  = match expr with
    | Expr.Literal value _ => ret (VPrimitive value)
    | Expr.List items =>
        values <- mapM (evaluate host fuel bindings) items ;;
        ret (VArray values)
    | Expr.Grouping _ expression _ => evaluate host fuel bindings expression
    | Expr.Binary lhs operator rhs _ =>
        left <- evaluate host fuel bindings lhs ;;
        right <- evaluate host fuel bindings rhs ;;
        tell (EvLookup (lexeme operator)) ;;;
        match member host bindings (lexeme operator) with
        | Some (this, f) => call host fuel bindings this f [left; right]
        | None => raise (RuntimeError operator "Operator isn't implemented")
        end
    | Expr.Section operator expression side =>
        ret (VSectionFn operator expression side)
    | Expr.Var name =>
        tell (EvLookup (lexeme name)) ;;;
        match member host bindings (lexeme name) with
        | Some (_, v) => ret v
        | None => raise (RuntimeError name (undefinedVariable name))
        end
    | Expr.Application func arg =>
        left <- curry host fuel bindings func ;;
        right <- evaluate host fuel bindings arg ;;
        call host fuel bindings Plain left [right]
    | Expr.Empty => ret VUndefined
    end.
Proof. reflexivity. Qed.

Lemma curry_unfold fuel (bindings : gmap string Binding) func :
  curry host (S fuel) bindings func
  = match func with
    | Expr.Var _ | Expr.Section _ _ _ => evaluate host fuel bindings func
    | Expr.Grouping _ expression _ => curry host fuel bindings expression
    | Expr.Application func' arg' =>
        arg <- evaluate host fuel bindings arg' ;;
        ret (VCurried func' arg)
    | _ => raise (PlainError "Unexpected function")
    end.
Proof. reflexivity. Qed.

Lemma call_unfold fuel (bindings : gmap string Binding) this callee args :
  call host (S fuel) bindings this callee args
  = match callee with
    | VHost f =>
        tell (EvCall f args) ;;;
        match hostCall host f this args with
        | inl v => ret v
        | inr e => raise e
        end
    | VSectionFn operator expression side =>
        let input := default VUndefined (head args) in
        tell (EvLookup (lexeme operator)) ;;;
        match member host bindings (lexeme operator) with
        | None => raise (TypeError "Cannot read properties of undefined")
        | Some (_, opFunc) =>
            operand <- evaluate host fuel bindings expression ;;
            match side with
            | SideLeft => call host fuel bindings Plain opFunc [input; operand]
            | SideRight => call host fuel bindings Plain opFunc [operand; input]
            end
        end
    | VCurried func arg =>
        f <- curry host fuel bindings func ;;
        call host fuel bindings Plain f (arg :: args)
    | _ => raise (TypeError "not a function")
    end.
Proof. reflexivity. Qed.

(** [m'] is [m] whenever [m] did not run out of fuel. *)
Definition refines {A} (m m' : M A) : Prop := snd m <> Starve -> m' = m.

Lemma refines_refl {A} (m : M A) : refines m m.
Proof. intros _. reflexivity. Qed.

Lemma bind_refines {A B} (m m' : M A) (k k' : A -> M B) :
  refines m m' -> (forall a, refines (k a) (k' a)) ->
  refines (bind m k) (bind m' k').
Proof.
  intros Hm Hk. destruct m as [t [a|e|]]; unfold refines in *; cbn.
  - destruct (k a) as [t' r] eqn:Ek. cbn. intros Hr.
    rewrite Hm by discriminate. cbn.
    rewrite (Hk a) by (rewrite Ek; exact Hr). rewrite Ek. reflexivity.
  - intros _. rewrite Hm by discriminate. reflexivity.
  - intros H. contradiction H. reflexivity.
Qed.

Lemma mapM_refines {A B} (f f' : A -> M B) (l : list A) :
  (forall a, refines (f a) (f' a)) ->
  refines (mapM f l) (mapM f' l).
Proof.
  intros Hf. induction l as [|x l IH]; cbn [mapM].
  - apply refines_refl.
  - apply bind_refines; [apply Hf|]. intros y.
    apply bind_refines; [apply IH|]. intros ys. apply refines_refl.
Qed.

#[local] Arguments evaluate : simpl never.
#[local] Arguments curry : simpl never.
#[local] Arguments call : simpl never.

(** More fuel does not change a computation that had enough. *)
Lemma fuel_step fuel (bindings : gmap string Binding) :
  (forall expr, refines (evaluate host fuel bindings expr)
                        (evaluate host (S fuel) bindings expr))
  /\ (forall func, refines (curry host fuel bindings func)
                           (curry host (S fuel) bindings func))
  /\ (forall this callee args,
        refines (call host fuel bindings this callee args)
                (call host (S fuel) bindings this callee args)).
Proof.
  induction fuel as [|fuel (IHe & IHc & IHa)].
  - repeat split; intros; intros H; contradiction H; reflexivity.
  - repeat split.
    + intros expr. rewrite (evaluate_unfold fuel), (evaluate_unfold (S fuel)).
      destruct expr; try apply refines_refl; auto.
      * apply bind_refines; [apply mapM_refines; auto|]. intros; apply refines_refl.
      * apply bind_refines; [auto|]. intros v1.
        apply bind_refines; [auto|]. intros v2.
        apply bind_refines; [apply refines_refl|]. intros _.
        destruct (member host bindings (lexeme operator)) as [[this f]|];
          [auto|apply refines_refl].
      * apply bind_refines; [auto|]. intros v1.
        apply bind_refines; [auto|]. intros v2. auto.
    + intros func. rewrite (curry_unfold fuel), (curry_unfold (S fuel)).
      destruct func; try apply refines_refl; auto.
      apply bind_refines; [auto|]. intros; apply refines_refl.
    + intros this callee args. rewrite (call_unfold fuel), (call_unfold (S fuel)).
      destruct callee; try apply refines_refl.
      * cbv zeta. apply bind_refines; [apply refines_refl|]. intros _.
        destruct (member host bindings (lexeme operator)) as [[that opFunc]|];
          [|apply refines_refl].
        apply bind_refines; [auto|]. intros v. destruct side; auto.
      * apply bind_refines; [auto|]. intros v. auto.
Qed.

Lemma evaluate_fuel n k (bindings : gmap string Binding) expr m :
  evaluate host n bindings expr = m -> snd m <> Starve ->
  evaluate host (n + k) bindings expr = m.
Proof.
  intros <- H. induction k as [|k IH].
  - rewrite Nat.add_0_r. reflexivity.
  - rewrite Nat.add_succ_r.
    rewrite (proj1 (fuel_step (n + k) bindings) expr); rewrite IH; auto.
Qed.

Lemma curry_fuel n k (bindings : gmap string Binding) func m :
  curry host n bindings func = m -> snd m <> Starve ->
  curry host (n + k) bindings func = m.
Proof.
  intros <- H. induction k as [|k IH].
  - rewrite Nat.add_0_r. reflexivity.
  - rewrite Nat.add_succ_r.
    rewrite (proj1 (proj2 (fuel_step (n + k) bindings)) func); rewrite IH; auto.
Qed.

Lemma call_fuel n k (bindings : gmap string Binding) this callee args m :
  call host n bindings this callee args = m -> snd m <> Starve ->
  call host (n + k) bindings this callee args = m.
Proof.
  intros <- H. induction k as [|k IH].
  - rewrite Nat.add_0_r. reflexivity.
  - rewrite Nat.add_succ_r.
    rewrite (proj2 (proj2 (fuel_step (n + k) bindings)) this callee args);
      rewrite IH; auto.
Qed.

(** An entry of the environment is found before anything inherited. *)
Lemma member_entry (bindings : gmap string Binding) key b :
  bindings !! key = Some b ->
  member host bindings key = Some (OfEntry b, value b).
Proof. intros H. unfold member. rewrite H. reflexivity. Qed.

Lemma member_none (bindings : gmap string Binding) key :
  bindings !! key = None -> inherited host key = None ->
  member host bindings key = None.
Proof. intros H Hi. unfold member. rewrite H, Hi. reflexivity. Qed.

Lemma member_inherited (bindings : gmap string Binding) key v :
  bindings !! key = None -> inherited host key = Some v ->
  member host bindings key = Some (OfInherited key, v).
Proof. intros H Hi. unfold member. rewrite H, Hi. reflexivity. Qed.

(** A callable that does not read [this]: the arrow functions of the
    interpreter never do; a host function does not when every call of it
    comes to the same whatever the receiver. *)
Definition ignoresReceiver (callee : Value) : Prop :=
  forall f, callee = VHost f ->
    forall this args, hostCall host f this args = hostCall host f Plain args.

Lemma call_ignoresReceiver fuel (bindings : gmap string Binding) this callee args :
  ignoresReceiver callee ->
  call host fuel bindings this callee args = call host fuel bindings Plain callee args.
Proof.
  intros H. destruct fuel as [|fuel]; [reflexivity|].
  rewrite !call_unfold. destruct callee; try reflexivity.
  rewrite (H f eq_refl this args). reflexivity.
Qed.

End Fuel.

(** ** Application spines *)

(** The expression under the parentheses. *)
Fixpoint ungroup (expr : Expr.t) : Expr.t :=
  match expr with
  | Expr.Grouping _ expression _ => ungroup expression
  | _ => expr
  end.

(** What the left spine of [func] bottoms out at, walking through
    [Application] and [Grouping] nodes as [curry] does. *)
Fixpoint spineBase (func : Expr.t) : Expr.t :=
  match func with
  | Expr.Application func' _ => spineBase func'
  | Expr.Grouping _ expression _ => spineBase expression
  | _ => func
  end.

(** The right-hand operands along the spine, leftmost first. *)
Fixpoint spineOperands (func : Expr.t) : list Expr.t :=
  match func with
  | Expr.Application func' arg => spineOperands func' ++ [arg]
  | Expr.Grouping _ expression _ => spineOperands expression
  | _ => []
  end.

Definition isCallableBase (expr : Expr.t) : bool :=
  match expr with
  | Expr.Var _ | Expr.Section _ _ _ => true
  | _ => false
  end.

Section Spines.
Variable host : Host.
Variable bindings : gmap string Binding.

(** Each operand evaluates, with the events and to the value paired with it. *)
Definition operandsEvaluate (fuel : nat) (operands : list Expr.t)
    (tvs : list (list Event * Value)) : Prop :=
  Forall2 (fun operand tv => evaluate host fuel bindings operand = (tv.1, Done tv.2))
    operands tvs.

Lemma bind_done {A B} (m : M A) (k : A -> M B) t a :
  m = (t, Done a) -> bind m k = (t ++ fst (k a), snd (k a)).
Proof. intros ->. cbn. destruct (k a). reflexivity. Qed.

Lemma ge_split n m : n <= m -> m = n + (m - n).
Proof. lia. Qed.

(** [curry] followed by the call of what it returned: the operands not yet
    evaluated are evaluated from the right, then the base, and the base
    callable receives all the operands of the spine before [args]. *)
Lemma curry_then_call func n tb fv tvs :
  isCallableBase (spineBase func) = true ->
  evaluate host n bindings (spineBase func) = (tb, Done fv) ->
  operandsEvaluate n (spineOperands func) tvs ->
  exists m0, forall args tc out,
    call host n bindings Plain fv (tvs.*2 ++ args) = (tc, out) -> out <> Starve ->
    forall m1 m2, m0 <= m1 -> m0 <= m2 ->
      bind (curry host m1 bindings func) (fun f => call host m2 bindings Plain f args)
      = (concat (reverse tvs.*1) ++ tb ++ tc, out).
Proof.
  revert tvs.
  induction func as [| | lp e IH rp | | | | l IHl r _ |]; intros tvs Hbase Hb Hops;
    cbn [spineBase spineOperands] in *; try discriminate Hbase.
  - (* Grouping *)
    destruct (IH tvs Hbase Hb Hops) as [m0 Hm0]. exists (S m0).
    intros args tc out Hc Hout m1 m2 H1 H2.
    destruct m1 as [|m1]; [lia|]. rewrite curry_unfold.
    apply (Hm0 args tc out Hc Hout); lia.
  - (* Section *)
    apply Forall2_nil_inv_l in Hops. subst tvs. exists (S n).
    intros args tc out Hc Hout m1 m2 H1 H2.
    destruct m1 as [|m1]; [lia|]. rewrite curry_unfold.
    rewrite (ge_split n m1) by lia. rewrite (ge_split n m2) by lia.
    erewrite bind_done by (apply evaluate_fuel; [exact Hb|discriminate]).
    erewrite call_fuel by (first [exact Hc | exact Hout]).
    reflexivity.
  - (* Var *)
    apply Forall2_nil_inv_l in Hops. subst tvs. exists (S n).
    intros args tc out Hc Hout m1 m2 H1 H2.
    destruct m1 as [|m1]; [lia|]. rewrite curry_unfold.
    rewrite (ge_split n m1) by lia. rewrite (ge_split n m2) by lia.
    erewrite bind_done by (apply evaluate_fuel; [exact Hb|discriminate]).
    erewrite call_fuel by (first [exact Hc | exact Hout]).
    reflexivity.
  - (* Application *)
    apply Forall2_app_inv_l in Hops as (tvs' & tvr & Hops' & Hr & ->).
    apply Forall2_cons_inv_l in Hr as ([tr vr] & nil' & Hr & Hnil & ->).
    apply Forall2_nil_inv_l in Hnil. subst nil'. cbn [fst snd] in Hr.
    destruct (IHl tvs' Hbase Hb Hops') as [m0 Hm0]. exists (S (n `max` m0)).
    intros args tc out Hc Hout m1 m2 H1 H2.
    destruct m1 as [|m1]; [lia|]. destruct m2 as [|m2]; [lia|].
    rewrite curry_unfold.
    assert (Hr' : evaluate host m1 bindings r = (tr, Done vr)).
    { rewrite (ge_split n m1) by lia. apply evaluate_fuel; [exact Hr|discriminate]. }
    rewrite Hr'. cbn [bind ret]. rewrite call_unfold.
    rewrite fmap_app, <- app_assoc in Hc. cbn in Hc.
    rewrite (Hm0 (vr :: args) tc out Hc Hout) by lia.
    rewrite fmap_app, reverse_app. cbn.
    rewrite app_nil_r, <- !app_assoc. reflexivity.
Qed.

Lemma evaluate_ge n m expr t v :
  evaluate host n bindings expr = (t, Done v) -> n <= m ->
  evaluate host m bindings expr = (t, Done v).
Proof.
  intros H Hle. rewrite (ge_split n m Hle).
  apply evaluate_fuel; [exact H|discriminate].
Qed.

Lemma call_ge n m this callee args tc out :
  call host n bindings this callee args = (tc, out) -> out <> Starve -> n <= m ->
  call host m bindings this callee args = (tc, out).
Proof.
  intros H Hout Hle. rewrite (ge_split n m Hle).
  apply call_fuel; [exact H|exact Hout].
Qed.

(** The number of parentheses around an expression. *)
Fixpoint groupDepth (expr : Expr.t) : nat :=
  match expr with
  | Expr.Grouping _ expression _ => S (groupDepth expression)
  | _ => 0
  end.

Lemma evaluate_ungroup expr m :
  evaluate host (groupDepth expr + m) bindings expr
  = evaluate host m bindings (ungroup expr).
Proof.
  induction expr; try reflexivity.
  cbn [groupDepth ungroup Nat.add]. rewrite evaluate_unfold. assumption.
Qed.

Lemma curry_ungroup func m :
  curry host (groupDepth func + m) bindings func
  = curry host m bindings (ungroup func).
Proof.
  induction func; try reflexivity.
  cbn [groupDepth ungroup Nat.add]. rewrite curry_unfold. assumption.
Qed.

Lemma spineBase_ungroup expr : spineBase (ungroup expr) = spineBase expr.
Proof. induction expr; try reflexivity. assumption. Qed.

Lemma spineOperands_ungroup expr : spineOperands (ungroup expr) = spineOperands expr.
Proof. induction expr; try reflexivity. assumption. Qed.

Lemma ungroup_not_grouping expr lp e rp : ungroup expr <> Expr.Grouping lp e rp.
Proof. induction expr; try discriminate. assumption. Qed.

(** The order in which one evaluation of a spine performs the events of
    its base ([tb]) and of its operands ([ts], leftmost operand first):
    with one operand the base comes first; with more, the last but one
    operand, then the last, then the others from the right, then the base. *)
Definition evaluationOrder (tb : list Event) (ts : list (list Event)) : list Event :=
  match reverse ts with
  | [] => tb
  | [t] => tb ++ t
  | tn :: tn1 :: rest => tn1 ++ tn ++ concat rest ++ tb
  end.

Lemma curry_base_ge func n k tb fv :
  isCallableBase func = true ->
  evaluate host n bindings func = (tb, Done fv) -> S n <= k ->
  curry host k bindings func = (tb, Done fv).
Proof.
  intros Hbase Hb Hk. destruct k as [|k]; [lia|]. rewrite curry_unfold.
  destruct func; try discriminate Hbase; (eapply evaluate_ge; [exact Hb|lia]).
Qed.

Lemma curry_application_ge func arg n k t v :
  evaluate host n bindings arg = (t, Done v) -> S n <= k ->
  curry host k bindings (Expr.Application func arg) = (t, Done (VCurried func v)).
Proof.
  intros Ha Hk. destruct k as [|k]; [lia|]. rewrite curry_unfold.
  erewrite bind_done by (eapply evaluate_ge; [exact Ha|lia]).
  cbn. rewrite app_nil_r. reflexivity.
Qed.

Lemma curry_ungroup_ge func k :
  groupDepth func <= k ->
  curry host k bindings func = curry host (k - groupDepth func) bindings (ungroup func).
Proof.
  intros Hk. rewrite (ge_split _ k Hk) at 1. apply curry_ungroup.
Qed.

Lemma evaluate_ungroup_ge expr k :
  groupDepth expr <= k ->
  evaluate host k bindings expr
  = evaluate host (k - groupDepth expr) bindings (ungroup expr).
Proof.
  intros Hk. rewrite (ge_split _ k Hk) at 1. apply evaluate_ungroup.
Qed.

(** One evaluation of a spine with a callable base: the events of the base
    and of every operand once, in [evaluationOrder], and then one call of
    the base callable with all the operand values, leftmost first. *)
Lemma evaluate_spine expr n tb fv tvs tc out :
  spineOperands expr <> [] ->
  isCallableBase (spineBase expr) = true ->
  evaluate host n bindings (spineBase expr) = (tb, Done fv) ->
  operandsEvaluate n (spineOperands expr) tvs ->
  call host n bindings Plain fv tvs.*2 = (tc, out) -> out <> Starve ->
  exists m0, forall m, m0 <= m ->
    evaluate host m bindings expr = (evaluationOrder tb tvs.*1 ++ tc, out).
Proof.
  intros Hne Hbase Hb Hops Hc Hout.
  rewrite <- spineBase_ungroup in Hbase, Hb.
  rewrite <- spineOperands_ungroup in Hne, Hops.
  pose proof (evaluate_ungroup_ge expr) as Hshift.
  pose proof (ungroup_not_grouping expr) as Hng.
  destruct (ungroup expr) as [| | lp e rp | | | | l r |];
    cbn [spineOperands spineBase] in *;
    try solve [congruence | exfalso; eapply Hng; reflexivity].
  clear Hne Hng.
  apply Forall2_app_inv_l in Hops as (tvl & tvr & Hopl & Hr & ->).
  apply Forall2_cons_inv_l in Hr as ([tr vr] & nil' & Hr & Hnil & ->).
  apply Forall2_nil_inv_l in Hnil. subst nil'. cbn [fst snd] in Hr.
  rewrite <- spineBase_ungroup in Hbase, Hb.
  rewrite <- spineOperands_ungroup in Hopl.
  pose proof (curry_ungroup_ge l) as Hshiftl.
  pose proof (ungroup_not_grouping l) as Hngl.
  destruct (ungroup l) as [| | lp e rp | | op se side | name | l' r' |] eqn:El;
    cbn [spineOperands spineBase isCallableBase] in *;
    try solve [congruence | exfalso; eapply Hngl; reflexivity].
  - (* the base is a section *)
    apply Forall2_nil_inv_l in Hopl. subst tvl. cbn in Hc |- *.
    exists (groupDepth expr + S (groupDepth l + S n)). intros m Hm.
    rewrite Hshift by lia.
    destruct (m - groupDepth expr) as [|k] eqn:Ek; [lia|].
    rewrite evaluate_unfold, Hshiftl by lia.
    erewrite bind_done by (eapply curry_base_ge; [reflexivity|exact Hb|lia]).
    erewrite bind_done by (eapply evaluate_ge; [exact Hr|lia]).
    erewrite call_ge by (first [exact Hc | exact Hout | lia]).
    cbn. unfold evaluationOrder. cbn. rewrite <- !app_assoc. reflexivity.
  - (* the base is a variable *)
    apply Forall2_nil_inv_l in Hopl. subst tvl. cbn in Hc |- *.
    exists (groupDepth expr + S (groupDepth l + S n)). intros m Hm.
    rewrite Hshift by lia.
    destruct (m - groupDepth expr) as [|k] eqn:Ek; [lia|].
    rewrite evaluate_unfold, Hshiftl by lia.
    erewrite bind_done by (eapply curry_base_ge; [reflexivity|exact Hb|lia]).
    erewrite bind_done by (eapply evaluate_ge; [exact Hr|lia]).
    erewrite call_ge by (first [exact Hc | exact Hout | lia]).
    cbn. unfold evaluationOrder. cbn. rewrite <- !app_assoc. reflexivity.
  - (* the spine goes on *)
    apply Forall2_app_inv_l in Hopl as (tvs' & tvr' & Hops' & Hr' & ->).
    apply Forall2_cons_inv_l in Hr' as ([tr' vr'] & nil' & Hr' & Hnil & ->).
    apply Forall2_nil_inv_l in Hnil. subst nil'. cbn [fst snd] in Hr'.
    destruct (curry_then_call l' n tb fv tvs' Hbase Hb Hops') as [m0 Hm0].
    rewrite !fmap_app, <- app_assoc in Hc. cbn in Hc.
    specialize (Hm0 [vr'; vr] tc out Hc Hout).
    exists (groupDepth expr + S (S (groupDepth l + S (n `max` m0)))). intros m Hm.
    rewrite Hshift by lia.
    destruct (m - groupDepth expr) as [|k] eqn:Ek; [lia|].
    rewrite evaluate_unfold, Hshiftl by lia.
    erewrite bind_done by (eapply curry_application_ge; [exact Hr'|lia]).
    erewrite bind_done by (eapply evaluate_ge; [exact Hr|lia]).
    destruct k as [|k]; [lia|].
    rewrite call_unfold, Hm0 by lia.
    cbn. unfold evaluationOrder. rewrite !fmap_app, !reverse_app. cbn.
    rewrite <- !app_assoc. reflexivity.
Qed.

Lemma concat_reverse_permutation (ts : list (list Event)) :
  Permutation (concat (reverse ts)) (concat ts).
Proof.
  induction ts as [|t ts IH]; [reflexivity|].
  rewrite reverse_cons, concat_app. cbn. rewrite app_nil_r.
  rewrite Permutation_app_comm. apply Permutation_app; [reflexivity|exact IH].
Qed.

Lemma evaluationOrder_permutation tb ts :
  Permutation (evaluationOrder tb ts) (tb ++ concat ts).
Proof.
  unfold evaluationOrder.
  rewrite <- (concat_reverse_permutation ts).
  destruct (reverse ts) as [|tn [|tn1 rest]]; cbn [concat].
  - rewrite app_nil_r. reflexivity.
  - rewrite app_nil_r. reflexivity.
  - rewrite (Permutation_app_comm tb).
    rewrite <- !app_assoc. rewrite (app_assoc tn1 tn), (app_assoc tn tn1).
    apply Permutation_app; [apply Permutation_app_comm|reflexivity].
Qed.

(** C2. Evaluating an application spine over a variable or a section calls
    the base callable once, with the values of all the operands of the spine,
    leftmost first, in that single call: the events of the evaluation are
    those of the base and of the operands (in some order) followed by the
    events of that one call, and the result is the result of that call.
    When the base callable is a host function the call is the one event
    [EvCall f (a, b, c)]. *)
Theorem application_spine_is_one_call expr n tb fv tvs tc out :
  spineOperands expr <> [] ->
  isCallableBase (spineBase expr) = true ->
  evaluate host n bindings (spineBase expr) = (tb, Done fv) ->
  operandsEvaluate n (spineOperands expr) tvs ->
  call host n bindings Plain fv tvs.*2 = (tc, out) -> out <> Starve ->
  (forall f, fv = VHost f -> tc = [EvCall f tvs.*2])
  /\ exists m0, forall m, m0 <= m ->
      exists before,
        evaluate host m bindings expr = (before ++ tc, out)
        /\ Permutation before (tb ++ concat tvs.*1).
Proof.
  intros Hne Hbase Hb Hops Hc Hout. split.
  - intros f ->. destruct n as [|n].
    { change (@starve Value = (tc, out)) in Hc. unfold starve in Hc. congruence. }
    rewrite call_unfold in Hc. cbn in Hc.
    destruct (hostCall host f Plain tvs.*2); cbn in Hc; congruence.
  - destruct (evaluate_spine expr n tb fv tvs tc out Hne Hbase Hb Hops Hc Hout)
      as [m0 Hm0].
    exists m0. intros m Hm. exists (evaluationOrder tb tvs.*1).
    split; [apply Hm0, Hm | apply evaluationOrder_permutation].
Qed.


End Spines.

(** ** Sections *)

Section Sections.
Variable host : Host.

(** C3, as the code has it.  The [Binary] case calls the operator's
    callable as a method of its entry, the closure of a section calls it on
    its own; for a callable that does not read [this] the two come to the
    same.  For an environment that binds the operator to such a callable,
    an operand expression [x] and an expression [ey] that evaluates to [y],
    calling what [Section(op, x, left)] evaluates to on [y] ends as
    evaluating [Binary(ey, op, x)] does, and calling what
    [Section(op, x, right)] evaluates to on [y] ends as evaluating
    [Binary(x, op, ey)] does (the same value, or the same exception).  When
    [x] evaluates to [vx] both are what the operator's callable returns on
    [(y, vx)], respectively on [(vx, y)]. *)
Theorem section_agrees_with_binary (bindings : gmap string Binding)
    n op b x ey ty y precedence :
  bindings !! lexeme op = Some b ->
  ignoresReceiver host (value b) ->
  evaluate host n bindings ey = (ty, Done y) ->
  (forall t closure,
     evaluate host (S n) bindings (Expr.Section op x SideLeft) = (t, Done closure) ->
     snd (call host (S n) bindings Plain closure [y])
     = snd (evaluate host (S n) bindings (Expr.Binary ey op x precedence))
     /\ forall tx vx,
          evaluate host n bindings x = (tx, Done vx) ->
          snd (call host (S n) bindings Plain closure [y])
          = snd (call host n bindings Plain (value b) [y; vx]))
  /\ (forall t closure,
     evaluate host (S n) bindings (Expr.Section op x SideRight) = (t, Done closure) ->
     snd (call host (S n) bindings Plain closure [y])
     = snd (evaluate host (S n) bindings (Expr.Binary x op ey precedence))
     /\ forall tx vx,
          evaluate host n bindings x = (tx, Done vx) ->
          snd (call host (S n) bindings Plain closure [y])
          = snd (call host n bindings Plain (value b) [vx; y])).
Proof.
  intros Hop Hthis Hy. split; intros t closure Hs;
    rewrite evaluate_unfold in Hs; injection Hs as <- <-;
    rewrite call_unfold, evaluate_unfold; cbn [head default];
    rewrite (member_entry host bindings _ b Hop).
  - rewrite Hy. cbn [bind tell]. split.
    + destruct (evaluate host n bindings x) as [tx [vx| |]]; cbn; try reflexivity.
      rewrite (call_ignoresReceiver host n bindings (OfEntry b)) by exact Hthis.
      destruct (call host n bindings Plain (value b) [y; vx]). reflexivity.
    + intros tx vx Hx. rewrite Hx. cbn.
      destruct (call host n bindings Plain (value b) [y; vx]). reflexivity.
  - split.
    + destruct (evaluate host n bindings x) as [tx [vx| |]]; cbn; try reflexivity.
      rewrite Hy. cbn.
      rewrite (call_ignoresReceiver host n bindings (OfEntry b)) by exact Hthis.
      destruct (call host n bindings Plain (value b) [vx; y]). reflexivity.
    + intros tx vx Hx. rewrite Hx. cbn.
      destruct (call host n bindings Plain (value b) [vx; y]). reflexivity.
Qed.

(** C9, as the code has it. Evaluating a section evaluates nothing and
    reads nothing: it returns a callable that holds the operand expression
    unevaluated.  Each call of that callable, under the environment of the
    moment of the call, first reads the operator's entry, then evaluates the
    operand expression, then calls the operator's callable with the input
    and the operand value in the order the side gives. *)
Theorem section_is_late_on_both (created called : gmap string Binding)
    n op x side b input rest tx vx tc out :
  called !! lexeme op = Some b ->
  evaluate host n called x = (tx, Done vx) ->
  call host n called Plain (value b)
    (match side with
     | SideLeft => [input; vx]
     | SideRight => [vx; input]
     end) = (tc, out) ->
  evaluate host (S n) created (Expr.Section op x side)
  = ([], Done (VSectionFn op x side))
  /\ call host (S n) called Plain (VSectionFn op x side) (input :: rest)
     = (EvLookup (lexeme op) :: tx ++ tc, out).
Proof.
  intros Hop Hx Hc. split; [reflexivity|].
  rewrite call_unfold. cbn [head default].
  rewrite (member_entry host _ _ _ Hop), Hx.
  destruct side; cbn in Hc |- *; rewrite Hc; reflexivity.
Qed.

End Sections.

(** ** Statements *)

Section Statements.
Variable host : Host.

(** A run that executed all its statements: it returned and the sink
    received nothing. *)
Definition completed (run : Run) : Prop :=
  completion run = Returned /\ reports run = [].

Lemma caught_not_completed results (bindings : gmap string Binding) trace e :
  ~ completed (caught results bindings trace e).
Proof. destruct e; intros [Hc Hr]; discriminate. Qed.

(** The loop over [pre ++ rest] is the loop over [rest] from where the
    loop over [pre] ended, when that one executed all of [pre]. *)
Lemma interpretLoop_app fuel (bindings : gmap string Binding) results trace pre rest :
  completed (interpretLoop host fuel bindings results trace pre) ->
  interpretLoop host fuel bindings results trace (pre ++ rest)
  = interpretLoop host fuel
      (finalBindings (interpretLoop host fuel bindings results trace pre))
      (Interpreter.results (interpretLoop host fuel bindings results trace pre))
      (Interpreter.trace (interpretLoop host fuel bindings results trace pre))
      rest.
Proof.
  revert bindings results trace.
  induction pre as [|stmt pre IH]; intros bindings results trace Hpre.
  - reflexivity.
  - cbn [app interpretLoop] in Hpre |- *.
    destruct (execute host fuel bindings stmt) as [t [[bindings' result]|e|]].
    + destruct (isRunnable host result) as [o|].
      * destruct (runIO host o).
        -- exfalso. eapply caught_not_completed, Hpre.
        -- apply IH, Hpre.
      * destruct result as [[]| | | | |];
          try (destruct (stringify host _) as [text|e];
               [|exfalso; eapply caught_not_completed, Hpre]);
          apply IH, Hpre.
    + exfalso. eapply caught_not_completed, Hpre.
    + destruct Hpre as [Hc _]. discriminate Hc.
Qed.

(** A statement that raises a [RuntimeError] ends the run: one report with
    the span of the token the error carries, the results collected so far,
    and nothing of the statements after it. *)
Lemma interpret_runtime_error fuel (bindings : gmap string Binding)
    pre stmt post t token message :
  completed (interpret host fuel bindings pre) ->
  execute host fuel (finalBindings (interpret host fuel bindings pre)) stmt
  = (t, Raise (RuntimeError token message)) ->
  interpret host fuel bindings (pre ++ stmt :: post)
  = mkRun (results (interpret host fuel bindings pre))
      [ReportSpan (from token) (to token) message]
      (finalBindings (interpret host fuel bindings pre))
      (trace (interpret host fuel bindings pre) ++ t)
      Returned.
Proof.
  intros Hpre Hstmt. unfold interpret in *.
  rewrite interpretLoop_app by exact Hpre.
  cbn [interpretLoop]. rewrite Hstmt. reflexivity.
Qed.


(** A name the environment object inherits is in the environment for the
    [in] test of [evaluate]: the variable evaluates to the [value] member
    of what is inherited, no error is raised and nothing is reported; when
    that member is [undefined], as for the members of [Object.prototype],
    the statement adds no result either and the statements after it are
    executed. *)
Lemma inherited_name_is_bound fuel (bindings : gmap string Binding) name v :
  bindings !! lexeme name = None ->
  inherited host (lexeme name) = Some v ->
  evaluate host (S fuel) bindings (Expr.Var name) = ([EvLookup (lexeme name)], Done v)
  /\ forall post,
       v = VUndefined ->
       interpret host (S fuel) bindings (Stmt.Expression (Expr.Var name) :: post)
       = interpretLoop host (S fuel) bindings [] [EvLookup (lexeme name)] post.
Proof.
  intros Hname Hin.
  assert (He : evaluate host (S fuel) bindings (Expr.Var name)
               = ([EvLookup (lexeme name)], Done v)).
  { rewrite evaluate_unfold, (member_inherited host _ _ _ Hname Hin). reflexivity. }
  split; [exact He|]. intros post ->.
  unfold interpret. cbn [interpretLoop execute]. rewrite He. reflexivity.
Qed.

(** C10. When a statement of a batch raises a [RuntimeError], [interpret]
    reports it and still returns the results it collected from the
    statements before. *)
Theorem partial_results_returned fuel (bindings : gmap string Binding)
    pre stmt post t token message :
  completed (interpret host fuel bindings pre) ->
  execute host fuel (finalBindings (interpret host fuel bindings pre)) stmt
  = (t, Raise (RuntimeError token message)) ->
  let run := interpret host fuel bindings (pre ++ stmt :: post) in
  completion run = Returned
  /\ results run = results (interpret host fuel bindings pre)
  /\ reports run = [ReportSpan (from token) (to token) message].
Proof.
  intros Hpre Hstmt run. subst run.
  rewrite (interpret_runtime_error _ _ _ _ _ _ _ _ Hpre Hstmt).
  repeat split.
Qed.


End Statements.
(** ** What is applied is no function *)

Section Failures.
Variable host : Host.
Variable bindings : gmap string Binding.

(** What [curry] throws at the end of a spine that is no variable and no
    section. *)
Definition unexpectedFunction : Exn := PlainError "Unexpected function".

(** [curry] followed by the call of what it returned, on a spine whose base
    is no variable and no section: the operands not yet evaluated are
    evaluated from the right, and then [curry] throws at the base. *)
Lemma curry_then_call_fails func n tvs :
  isCallableBase (spineBase func) = false ->
  operandsEvaluate host bindings n (spineOperands func) tvs ->
  exists m0, forall args m1 m2, m0 <= m1 -> m0 <= m2 ->
    bind (curry host m1 bindings func) (fun f => call host m2 bindings Plain f args)
    = (concat (reverse tvs.*1), Raise unexpectedFunction).
Proof.
  revert tvs.
  induction func as [| | lp e IH rp | | | | l IHl r _ |]; intros tvs Hbase Hops;
    cbn [spineBase spineOperands] in *; try discriminate Hbase;
    try (apply Forall2_nil_inv_l in Hops; subst tvs; exists 1;
         intros args m1 m2 H1 H2; destruct m1 as [|m1]; [lia|];
         rewrite curry_unfold; reflexivity).
  - (* Grouping *)
    destruct (IH tvs Hbase Hops) as [m0 Hm0]. exists (S m0).
    intros args m1 m2 H1 H2.
    destruct m1 as [|m1]; [lia|]. rewrite curry_unfold.
    apply Hm0; lia.
  - (* Application *)
    apply Forall2_app_inv_l in Hops as (tvs' & tvr & Hops' & Hr & ->).
    apply Forall2_cons_inv_l in Hr as ([tr vr] & nil' & Hr & Hnil & ->).
    apply Forall2_nil_inv_l in Hnil. subst nil'. cbn [fst snd] in Hr.
    destruct (IHl tvs' Hbase Hops') as [m0 Hm0]. exists (S (n `max` m0)).
    intros args m1 m2 H1 H2.
    destruct m1 as [|m1]; [lia|]. destruct m2 as [|m2]; [lia|].
    rewrite curry_unfold.
    assert (Hr' : evaluate host m1 bindings r = (tr, Done vr)).
    { rewrite (ge_split n m1) by lia. apply evaluate_fuel; [exact Hr|discriminate]. }
    rewrite Hr'. cbn [bind ret]. rewrite call_unfold.
    rewrite (Hm0 (vr :: args)) by lia.
    rewrite fmap_app, reverse_app. cbn.
    rewrite app_nil_r. reflexivity.
Qed.

(** The base of a spine with no operand is the expression under its
    parentheses. *)
Lemma ungroup_base expr : spineOperands expr = [] -> ungroup expr = spineBase expr.
Proof.
  induction expr; cbn [spineOperands ungroup spineBase]; auto.
  intros H. destruct (spineOperands expr1); discriminate H.
Qed.

(** Applying what is no function.  When the left spine of an application
    bottoms out at a literal, a list, a binary expression or nothing (even
    in parentheses), [curry] throws the plain error "Unexpected function".
    With one operand it throws before the operand is evaluated; with two or
    more, every operand has been evaluated by then (the last but one, the
    last, then the others from the right). *)
Theorem unexpected_function_after_operands expr n :
  isCallableBase (spineBase expr) = false ->
  (forall x,
     spineOperands expr = [x] ->
     exists m0, forall m, m0 <= m ->
       evaluate host m bindings expr = ([], Raise unexpectedFunction))
  /\ (forall front x y tvs tx vx ty vy,
     spineOperands expr = front ++ [x; y] ->
     operandsEvaluate host bindings n front tvs ->
     evaluate host n bindings x = (tx, Done vx) ->
     evaluate host n bindings y = (ty, Done vy) ->
     exists m0, forall m, m0 <= m ->
       evaluate host m bindings expr
       = (tx ++ ty ++ concat (reverse tvs.*1), Raise unexpectedFunction)).
Proof.
  intros Hbase.
  rewrite <- spineBase_ungroup in Hbase.
  pose proof (evaluate_ungroup_ge host bindings expr) as Hshift.
  pose proof (ungroup_not_grouping expr) as Hng.
  split.
  - intros x Hops. rewrite <- spineOperands_ungroup in Hops.
    destruct (ungroup expr) as [| | lp e rp | | | | l r |];
      cbn [spineOperands spineBase] in *;
      try solve [discriminate Hops | exfalso; eapply Hng; reflexivity].
    apply (app_inj_tail _ [] r x) in Hops as [Hl _].
    pose proof (ungroup_base l Hl) as El.
    pose proof (curry_ungroup_ge host bindings l) as Hshiftl.
    exists (groupDepth expr + S (groupDepth l + 1)). intros m Hm.
    rewrite Hshift by lia.
    destruct (m - groupDepth expr) as [|k] eqn:Ek; [lia|].
    rewrite evaluate_unfold, Hshiftl by lia. rewrite El.
    destruct (k - groupDepth l) as [|j] eqn:Ej; [lia|].
    rewrite curry_unfold.
    rewrite <- spineOperands_ungroup, El in Hl.
    destruct (spineBase l); try discriminate Hbase; try reflexivity.
    + exfalso. eapply (ungroup_not_grouping l). exact El.
    + cbn [spineOperands] in Hl. destruct (spineOperands _); discriminate Hl.
  - intros front x y tvs tx vx ty vy Hops Hfront Hx Hy.
    rewrite <- spineOperands_ungroup in Hops.
    destruct (ungroup expr) as [| | lp e rp | | | | l r |];
      cbn [spineOperands spineBase] in *;
      try solve [destruct front; discriminate Hops
                | exfalso; eapply Hng; reflexivity].
    change (front ++ [x; y]) with (front ++ [x] ++ [y]) in Hops.
    rewrite app_assoc in Hops. apply app_inj_tail in Hops as [Hl ->].
    rewrite <- spineBase_ungroup in Hbase.
    rewrite <- spineOperands_ungroup in Hl.
    pose proof (curry_ungroup_ge host bindings l) as Hshiftl.
    pose proof (ungroup_not_grouping l) as Hngl.
    destruct (ungroup l) as [| | lp e rp | | | | l' r' |];
      cbn [spineOperands spineBase] in *;
      try solve [destruct front; discriminate Hl
                | exfalso; eapply Hngl; reflexivity].
    apply app_inj_tail in Hl as [Hl' ->].
    rewrite <- Hl' in Hfront.
    destruct (curry_then_call_fails l' n tvs Hbase Hfront) as [m0 Hm0].
    exists (groupDepth expr + S (S (groupDepth l + S (n `max` m0)))). intros m Hm.
    rewrite Hshift by lia.
    destruct (m - groupDepth expr) as [|k] eqn:Ek; [lia|].
    rewrite evaluate_unfold, Hshiftl by lia.
    erewrite bind_done
      by (eapply curry_application_ge; [exact Hx|lia]).
    erewrite bind_done by (eapply evaluate_ge; [exact Hy|lia]).
    destruct k as [|k]; [lia|].
    rewrite call_unfold, Hm0 by lia.
    cbn. rewrite <- ?app_assoc. reflexivity.
Qed.

(** A section of an operator that is not bound.  Evaluating the section
    reads nothing and succeeds.  Calling it reads the environment under the
    operator: when the environment object has nothing there, no entry and
    nothing inherited, the call fails on [undefined.value] with a
    [TypeError] before the operand is evaluated; when it inherits something
    whose [value] member is [undefined], the operand is evaluated and the
    call fails after it, on calling [undefined]. *)
Theorem section_of_unbound_operator n op x side lp rp ey ty y :
  bindings !! lexeme op = None ->
  evaluate host n bindings ey = (ty, Done y) ->
  evaluate host (S n) bindings (Expr.Section op x side)
  = ([], Done (VSectionFn op x side))
  /\ (inherited host (lexeme op) = None ->
      forall m, n + 4 <= m ->
        evaluate host m bindings
          (Expr.Application (Expr.Grouping lp (Expr.Section op x side) rp) ey)
        = (ty ++ [EvLookup (lexeme op)],
           Raise (TypeError "Cannot read properties of undefined")))
  /\ (inherited host (lexeme op) = Some VUndefined ->
      forall tx vx,
        evaluate host n bindings x = (tx, Done vx) ->
        forall m, n + 4 <= m ->
          evaluate host m bindings
            (Expr.Application (Expr.Grouping lp (Expr.Section op x side) rp) ey)
          = (ty ++ EvLookup (lexeme op) :: tx, Raise (TypeError "not a function"))).
Proof.
  intros Hop Hy. split; [reflexivity|]. split.
  - intros Hin m Hm.
    destruct m as [|[|[|[|m]]]]; try lia.
    rewrite evaluate_unfold, !curry_unfold, evaluate_unfold.
    cbn [bind ret].
    rewrite (evaluate_ge host bindings n (S (S (S m))) ey ty y Hy) by lia.
    cbn [bind]. rewrite call_unfold. cbn [head default].
    rewrite (member_none host _ _ Hop Hin). cbn.
    reflexivity.
  - intros Hin tx vx Hx m Hm.
    destruct m as [|[|[|[|m]]]]; try lia.
    rewrite evaluate_unfold, !curry_unfold, evaluate_unfold.
    cbn [bind ret].
    rewrite (evaluate_ge host bindings n (S (S (S m))) ey ty y Hy) by lia.
    cbn [bind]. rewrite call_unfold. cbn [head default].
    rewrite (member_inherited host _ _ _ Hop Hin).
    rewrite (evaluate_ge host bindings n (S (S m)) x tx vx Hx) by lia.
    destruct side; cbn; rewrite ?app_nil_r; reflexivity.
Qed.

(** What [Binary] does once the operator is known to be bound, with the
    fuel of each step. *)
Definition binaryBody (lhs rhs : Expr.t) (op : Token) (b : Binding)
    (k1 k2 k3 : nat) : M Value :=
  l <- evaluate host k1 bindings lhs ;;
  r <- evaluate host k2 bindings rhs ;;
  tell (EvLookup (lexeme op)) ;;;
  call host k3 bindings Plain (value b) [l; r].

Lemma binaryBody_fuel lhs rhs op b k1 k2 k3 j1 j2 j3 m :
  binaryBody lhs rhs op b k1 k2 k3 = m -> snd m <> Starve ->
  k1 <= j1 -> k2 <= j2 -> k3 <= j3 ->
  binaryBody lhs rhs op b j1 j2 j3 = m.
Proof.
  intros <- Hm H1 H2 H3. unfold binaryBody in *.
  rewrite (ge_split k1 j1 H1), (ge_split k2 j2 H2), (ge_split k3 j3 H3).
  destruct (evaluate host k1 bindings lhs) as [tl [vl|e|]] eqn:El.
  - erewrite evaluate_fuel by (first [exact El | discriminate]).
    cbn [bind] in Hm |- *.
    destruct (evaluate host k2 bindings rhs) as [tr [vr|e|]] eqn:Er.
    + erewrite evaluate_fuel by (first [exact Er | discriminate]).
      cbn [bind tell] in Hm |- *.
      destruct (call host k3 bindings Plain (value b) [vl; vr]) as [tc oc] eqn:Ec.
      erewrite call_fuel by (first [exact Ec | exact Hm]).
      reflexivity.
    + erewrite evaluate_fuel by (first [exact Er | discriminate]). reflexivity.
    + contradiction Hm. reflexivity.
  - erewrite evaluate_fuel by (first [exact El | discriminate]). reflexivity.
  - contradiction Hm. reflexivity.
Qed.

Lemma binary_bound lhs rhs op b precedence k :
  bindings !! lexeme op = Some b ->
  ignoresReceiver host (value b) ->
  evaluate host (S k) bindings (Expr.Binary lhs op rhs precedence)
  = binaryBody lhs rhs op b k k k.
Proof.
  intros Hop Hthis. rewrite evaluate_unfold, (member_entry host _ _ _ Hop).
  unfold binaryBody.
  destruct (evaluate host k bindings lhs) as [tl [vl|e|]]; cbn [bind]; [|reflexivity..].
  destruct (evaluate host k bindings rhs) as [tr [vr|e|]]; cbn [bind]; [|reflexivity..].
  rewrite (call_ignoresReceiver host k bindings (OfEntry b)) by exact Hthis.
  reflexivity.
Qed.

Lemma operator_applied lhs rhs op b k :
  bindings !! lexeme op = Some b ->
  evaluate host (S (S (S (S k)))) bindings
    (Expr.Application (Expr.Application (Expr.Var op) lhs) rhs)
  = binaryBody lhs rhs op b (S (S k)) (S (S (S k))) (S (S k)).
Proof.
  intros Hop. unfold binaryBody. rewrite evaluate_unfold, curry_unfold.
  destruct (evaluate host (S (S k)) bindings lhs) as [tl [vl|e|]];
    cbn [bind ret]; try reflexivity.
  destruct (evaluate host (S (S (S k))) bindings rhs) as [tr [vr|e|]];
    cbn [bind ret]; rewrite ?app_nil_r; try reflexivity.
  rewrite call_unfold, curry_unfold, evaluate_unfold,
    (member_entry host _ _ _ Hop).
  cbn [bind ret tell].
  destruct (call host (S (S k)) bindings Plain (value b) [vl; vr]).
  cbn [app]. rewrite ?app_nil_r. reflexivity.
Qed.

(** An operator in parentheses is the operator's function: where the
    operator is bound to a callable that does not read [this], [(op) a b]
    and [a op b] perform the same events in the same order and end in the
    same way (the operands left to right, the read of the operator, one
    call of its value on the two operand values). *)
Theorem operator_as_function_agrees_with_binary op b lhs rhs precedence n t out :
  bindings !! lexeme op = Some b ->
  ignoresReceiver host (value b) ->
  out <> Starve ->
  (evaluate host n bindings (Expr.Binary lhs op rhs precedence) = (t, out) ->
   exists m0, forall m, m0 <= m ->
     evaluate host m bindings
       (Expr.Application (Expr.Application (Expr.Var op) lhs) rhs) = (t, out))
  /\ (evaluate host n bindings
        (Expr.Application (Expr.Application (Expr.Var op) lhs) rhs) = (t, out) ->
      exists m0, forall m, m0 <= m ->
        evaluate host m bindings (Expr.Binary lhs op rhs precedence) = (t, out)).
Proof.
  intros Hop Hthis Hout. split; intros H.
  - destruct n as [|n].
    { change (@starve Value = (t, out)) in H. unfold starve in H. congruence. }
    rewrite (binary_bound _ _ _ b) in H by assumption.
    exists (S (S (S (S n)))). intros m Hm.
    destruct m as [|[|[|[|m]]]]; try lia.
    rewrite (operator_applied _ _ _ b) by exact Hop.
    eapply binaryBody_fuel; [exact H|exact Hout|lia..].
  - apply (evaluate_fuel host n 4) in H; [|exact Hout].
    replace (n + 4) with (S (S (S (S n)))) in H by lia.
    rewrite (operator_applied _ _ _ b) in H by exact Hop.
    exists (S (S (S (S n)))). intros m Hm. destruct m as [|m]; [lia|].
    rewrite (binary_bound _ _ _ b) by assumption.
    eapply binaryBody_fuel; [exact H|exact Hout|lia..].
Qed.

(** A list literal evaluates its items from left to right into an array
    of their values; the first item that throws ends the evaluation, and
    the items after it are not evaluated. *)
Theorem list_items_left_to_right n :
  (forall items tvs,
     operandsEvaluate host bindings n items tvs ->
     evaluate host (S n) bindings (Expr.List items)
     = (concat tvs.*1, Done (VArray tvs.*2)))
  /\ (forall front tvs x tx e back,
     operandsEvaluate host bindings n front tvs ->
     evaluate host n bindings x = (tx, Raise e) ->
     evaluate host (S n) bindings (Expr.List (front ++ x :: back))
     = (concat tvs.*1 ++ tx, Raise e)).
Proof.
  split.
  - intros items tvs Hops. rewrite evaluate_unfold.
    assert (H : mapM (evaluate host n bindings) items = (concat tvs.*1, Done tvs.*2)).
    { induction Hops as [|item [ti vi] items tvs Hi _ IH]; [reflexivity|].
      cbn [mapM fmap list_fmap concat fst snd] in *. rewrite Hi, IH. cbn.
      rewrite app_nil_r. reflexivity. }
    rewrite H. cbn. rewrite app_nil_r. reflexivity.
  - intros front tvs x tx e back Hops Hx. rewrite evaluate_unfold.
    assert (H : mapM (evaluate host n bindings) (front ++ x :: back)
                = (concat tvs.*1 ++ tx, @Raise (list Value) e)).
    { induction Hops as [|item [ti vi] items tvs Hi _ IH].
      - cbn [app mapM]. rewrite Hx. reflexivity.
      - cbn [app mapM fmap list_fmap concat fst snd] in *. rewrite Hi, IH. cbn.
        rewrite <- app_assoc. reflexivity. }
    rewrite H. reflexivity.
Qed.

End Failures.

(** ** Batches *)

Section Batches.
Variable host : Host.

Definition isRuntimeError (e : Exn) : bool :=
  match e with RuntimeError _ _ => true | _ => false end.

(** A statement that throws ends the run in the [catch] block. *)
Lemma interpret_exception fuel (bindings : gmap string Binding) pre stmt post t e :
  completed (interpret host fuel bindings pre) ->
  execute host fuel (finalBindings (interpret host fuel bindings pre)) stmt
  = (t, Raise e) ->
  interpret host fuel bindings (pre ++ stmt :: post)
  = caught (results (interpret host fuel bindings pre))
      (finalBindings (interpret host fuel bindings pre))
      (trace (interpret host fuel bindings pre) ++ t) e.
Proof.
  intros Hpre Hstmt. unfold interpret in *.
  rewrite interpretLoop_app by exact Hpre.
  cbn [interpretLoop]. rewrite Hstmt. reflexivity.
Qed.

(** An exception that is no [RuntimeError] leaves [interpret]: the sink
    receives nothing, the statements after it are not executed, and the
    caller gets the exception instead of the results. *)
Theorem other_exceptions_leave_interpret fuel (bindings : gmap string Binding)
    pre stmt post t e :
  completed (interpret host fuel bindings pre) ->
  execute host fuel (finalBindings (interpret host fuel bindings pre)) stmt
  = (t, Raise e) ->
  isRuntimeError e = false ->
  let run := interpret host fuel bindings (pre ++ stmt :: post) in
  completion run = Propagated e
  /\ reports run = []
  /\ trace run = trace (interpret host fuel bindings pre) ++ t
  /\ finalBindings run = finalBindings (interpret host fuel bindings pre).
Proof.
  intros Hpre Hstmt He run. subst run.
  rewrite (interpret_exception _ _ _ _ _ _ _ Hpre Hstmt).
  destruct e; try discriminate He; repeat split.
Qed.

(** A binding that fails binds nothing.  The initializer that holds no
    source text, the text that does not compile and the initializer of a
    binding without arguments that throws when it is called all throw
    before the assignment: the statement ends with that exception and the
    environment of the run is the one before the statement. *)
Theorem failed_binding_binds_nothing fuel (bindings : gmap string Binding)
    pre name args initializer post :
  completed (interpret host (S fuel) bindings pre) ->
  let before := interpret host (S fuel) bindings pre in
  let run := interpret host (S fuel) bindings
               (pre ++ Stmt.Binding name args initializer :: post) in
  let func := Compiled (map lexeme args) in
  ((forall body, literal initializer <> PString body) ->
   run = caught (results before) (finalBindings before) (trace before)
           (PlainError "Initializer doesn't contain a source code string"))
  /\ (forall body e,
      literal initializer = PString body ->
      syntaxError host (map lexeme args) body = Some e ->
      run = caught (results before) (finalBindings before) (trace before) e)
  /\ (forall body e,
      literal initializer = PString body ->
      syntaxError host (map lexeme args) body = None ->
      args = [] ->
      hostCall host (func body) Plain [] = inr e ->
      run = caught (results before) (finalBindings before)
              (trace before ++ [EvCall (func body) []]) e)
  /\ forall e, finalBindings (caught (results before) (finalBindings before)
                                (trace before) e) = finalBindings before.
Proof.
  intros Hpre before run func. subst run. repeat split.
  - intros Hlit. rewrite (interpret_exception _ _ _ _ _ []
      (PlainError "Initializer doesn't contain a source code string") Hpre).
    + rewrite app_nil_r. reflexivity.
    + cbn [execute]. destruct (literal initializer); try reflexivity.
      exfalso. eapply Hlit. reflexivity.
  - intros body e Hlit Hsyn.
    rewrite (interpret_exception _ _ _ _ _ [] e Hpre).
    + rewrite app_nil_r. reflexivity.
    + cbn [execute]. rewrite Hlit, Hsyn. reflexivity.
  - intros body e Hlit Hsyn -> Hcall.
    rewrite (interpret_exception _ _ _ _ _ [EvCall (func body) []] e Hpre);
      [reflexivity|].
    cbn [execute]. rewrite Hlit. cbn [map] in Hsyn |- *. rewrite Hsyn.
    cbn [length Nat.ltb Nat.leb]. rewrite call_unfold.
    subst func. cbn [map] in Hcall. cbn. rewrite Hcall. reflexivity.
  - intros e. destruct e; reflexivity.
Qed.







(** The names a batch binds. *)
Definition boundNames (statements : list Stmt.t) : list string :=
  flat_map (fun s => match s with
                     | Stmt.Binding name _ _ => [lexeme name]
                     | Stmt.Expression _ => []
                     end) statements.

Definition isExpression (s : Stmt.t) : bool :=
  match s with Stmt.Expression _ => true | Stmt.Binding _ _ _ => false end.

Lemma execute_bindings fuel (bindings bindings' : gmap string Binding) stmt t v :
  execute host fuel bindings stmt = (t, Done (bindings', v)) ->
  match stmt with
  | Stmt.Expression _ => bindings' = bindings
  | Stmt.Binding name _ _ =>
      v = VUndefined /\ exists b, bindings' = <[lexeme name := b]> bindings
  end.
Proof.
  destruct stmt as [e|name args init]; cbn [execute].
  - destruct (evaluate host fuel bindings e) as [te [ve| |]]; cbn; congruence.
  - destruct (literal init); try discriminate.
    destruct (syntaxError host _ _); [discriminate|].
    destruct (0 <? length args)%nat.
    + cbn. intros H. injection H as <- <- <-. eauto.
    + destruct (call host fuel bindings Plain _ []) as [tc [vc| |]]; cbn; try discriminate.
      intros H. injection H as <- <- <-. eauto.
Qed.

Lemma caught_fields results (bindings : gmap string Binding) trace e :
  Interpreter.results (caught results bindings trace e) = results
  /\ finalBindings (caught results bindings trace e) = bindings
  /\ length (reports (caught results bindings trace e)) <= 1
  /\ (reports (caught results bindings trace e) <> [] ->
      completion (caught results bindings trace e) = Returned).
Proof. destruct e; cbn; repeat split; auto; congruence. Qed.

Lemma interpretLoop_frame fuel statements :
  forall (bindings : gmap string Binding) results trace (key : string),
    key ∉ boundNames statements ->
    finalBindings (interpretLoop host fuel bindings results trace statements) !! key
    = bindings !! key.
Proof.
  induction statements as [|stmt rest IH]; intros bindings results trace key Hkey;
    [reflexivity|].
  cbn [interpretLoop].
  destruct (execute host fuel bindings stmt) as [t [[bindings' v]|e|]] eqn:Ex.
  - assert (Hb : bindings' !! key = bindings !! key).
    { apply execute_bindings in Ex. destruct stmt as [e|name args init].
      - subst. reflexivity.
      - destruct Ex as [_ [b ->]]. apply lookup_insert_ne.
        intros E. apply Hkey. cbn [boundNames flat_map app].
        apply elem_of_cons. left. symmetry. exact E. }
    assert (Hrest : key ∉ boundNames rest).
    { intros Hin. apply Hkey.
      destruct stmt; cbn [boundNames flat_map app];
        [exact Hin|apply elem_of_cons; right; exact Hin]. }
    destruct (isRunnable host v) as [o|].
    + destruct (runIO host o).
      * rewrite (proj1 (proj2 (caught_fields _ _ _ _))). exact Hb.
      * rewrite IH by exact Hrest. exact Hb.
    + destruct v as [[]| | | | |];
        try (destruct (stringify host _) as [text|e'];
             [|rewrite (proj1 (proj2 (caught_fields _ _ _ _))); exact Hb]);
        rewrite IH by exact Hrest; exact Hb.
  - rewrite (proj1 (proj2 (caught_fields _ _ _ _))). reflexivity.
  - reflexivity.
Qed.

Lemma interpretLoop_keeps fuel statements :
  forall (bindings : gmap string Binding) results trace (key : string),
    is_Some (bindings !! key) ->
    is_Some (finalBindings
               (interpretLoop host fuel bindings results trace statements) !! key).
Proof.
  induction statements as [|stmt rest IH]; intros bindings results trace key Hkey;
    [exact Hkey|].
  cbn [interpretLoop].
  destruct (execute host fuel bindings stmt) as [t [[bindings' v]|e|]] eqn:Ex.
  - assert (Hb : is_Some (bindings' !! key)).
    { apply execute_bindings in Ex. destruct stmt as [e|name args init].
      - subst. exact Hkey.
      - destruct Ex as [_ [b ->]].
        destruct (decide (lexeme name = key)) as [->|Hne].
        + rewrite lookup_insert_eq. eauto.
        + rewrite lookup_insert_ne by exact Hne. exact Hkey. }
    destruct (isRunnable host v) as [o|].
    + destruct (runIO host o).
      * rewrite (proj1 (proj2 (caught_fields _ _ _ _))). exact Hb.
      * apply IH, Hb.
    + destruct v as [[]| | | | |];
        try (destruct (stringify host _) as [text|e'];
             [|rewrite (proj1 (proj2 (caught_fields _ _ _ _))); exact Hb]);
        apply IH, Hb.
  - rewrite (proj1 (proj2 (caught_fields _ _ _ _))). exact Hkey.
  - exact Hkey.
Qed.

(** The environment after a batch.  [interpret] writes only the entries
    that a binding statement of the batch names: every other entry is the
    one before the call, however the call ends; and an entry that was there
    before the call is there after it. *)
Theorem interpret_writes_only_bound_names fuel (bindings : gmap string Binding)
    statements key :
  (key ∉ boundNames statements ->
   finalBindings (interpret host fuel bindings statements) !! key = bindings !! key)
  /\ (is_Some (bindings !! key) ->
      is_Some (finalBindings (interpret host fuel bindings statements) !! key)).
Proof. split; [apply interpretLoop_frame|apply interpretLoop_keeps]. Qed.

Lemma interpretLoop_bounds fuel statements :
  forall (bindings : gmap string Binding) results trace,
    let run := interpretLoop host fuel bindings results trace statements in
    length (reports run) <= 1
    /\ (reports run <> [] -> completion run = Returned)
    /\ length (Interpreter.results run)
       <= length results + length (List.filter isExpression statements)
    /\ exists more, Interpreter.results run = results ++ more.
Proof.
  induction statements as [|stmt rest IH]; intros bindings results trace.
  - cbn. split; [lia|]. split; [intros H; contradiction H; reflexivity|].
    split; [lia|]. exists []. rewrite app_nil_r. reflexivity.
  - cbn zeta. cbn [interpretLoop].
    assert (Hlen : forall n, n <= length (List.filter isExpression rest) ->
                     n <= length (List.filter isExpression (stmt :: rest))).
    { intros n Hn. cbn [List.filter]. destruct (isExpression stmt); cbn [length]; lia. }
    assert (Hcaught : forall bs tr e,
      let run := caught results bs tr e in
      length (reports run) <= 1
      /\ (reports run <> [] -> completion run = Returned)
      /\ length (Interpreter.results run)
         <= length results + length (List.filter isExpression (stmt :: rest))
      /\ exists more, Interpreter.results run = results ++ more).
    { intros bs tr e. cbn zeta.
      destruct (caught_fields results bs tr e) as (-> & _ & H1 & H2).
      split; [exact H1|]. split; [exact H2|]. split; [lia|].
      exists []. rewrite app_nil_r. reflexivity. }
    destruct (execute host fuel bindings stmt) as [t [[bindings' v]|e|]] eqn:Ex.
    + assert (Hskip : forall tr,
        let run := interpretLoop host fuel bindings' results tr rest in
        length (reports run) <= 1
        /\ (reports run <> [] -> completion run = Returned)
        /\ length (Interpreter.results run)
           <= length results + length (List.filter isExpression (stmt :: rest))
        /\ exists more, Interpreter.results run = results ++ more).
      { intros tr. cbn zeta.
        destruct (IH bindings' results tr) as (H1 & H2 & H3 & H4).
        split; [exact H1|]. split; [exact H2|]. split; [|exact H4].
        pose proof (Hlen (length (List.filter isExpression rest)) (le_n _)). lia. }
      destruct (isRunnable host v) as [o|].
      * destruct (runIO host o); [apply Hcaught|apply Hskip].
      * destruct stmt as [expr|name args init].
        2:{ apply execute_bindings in Ex as [-> _]. apply Hskip. }
        assert (Hpush : forall text,
          let run := interpretLoop host fuel bindings' (results ++ [text])
                       (trace ++ t) rest in
          length (reports run) <= 1
          /\ (reports run <> [] -> completion run = Returned)
          /\ length (Interpreter.results run)
             <= length results + length (List.filter isExpression (Stmt.Expression expr :: rest))
          /\ exists more, Interpreter.results run = results ++ more).
        { intros text. cbn zeta.
          destruct (IH bindings' (results ++ [text]) (trace ++ t))
            as (H1 & H2 & H3 & [more H4]).
          split; [exact H1|]. split; [exact H2|]. split.
          - rewrite length_app in H3. cbn [length] in H3.
            cbn [List.filter isExpression length]. lia.
          - exists (text :: more). rewrite H4, <- app_assoc. reflexivity. }
        destruct v as [[]| | | | |];
          try (destruct (stringify host _) as [text|e']; [|apply Hcaught]);
          first [apply Hpush | apply Hskip].
    + apply Hcaught.
    + cbn. split; [lia|]. split; [intros H; contradiction H; reflexivity|].
      split; [lia|]. exists []. rewrite app_nil_r. reflexivity.
Qed.

(** What a call of [interpret] can produce, whatever the statements: at
    most one report, and a report only when the call returns; at most one
    result per expression statement, none for a binding. *)
Theorem interpret_output_bounds fuel (bindings : gmap string Binding) statements :
  let run := interpret host fuel bindings statements in
  length (reports run) <= 1
  /\ (reports run <> [] -> completion run = Returned)
  /\ length (results run) <= length (List.filter isExpression statements).
Proof.
  cbn zeta. unfold interpret.
  destruct (interpretLoop_bounds fuel statements bindings [] []) as (H1 & H2 & H3 & _).
  split; [exact H1|]. split; [exact H2|exact H3].
Qed.

End Batches.

End InterpreterFacts.

Module ParserFacts.
Import Parser.

Section Stepping.
Variable operators : gmap string (Number.t * Associativity).

Definition next (c : Cursor) : Cursor := mkCursor (tokens c) (S (current c)).

Definition isAtom (tok : Token) : bool :=
  isType TokenType.Identifier tok || isType TokenType.Number tok
  || isType TokenType.String tok.

Definition atomExpr (tok : Token) : Expr.t :=
  if isType TokenType.Identifier tok then Expr.Var tok
  else Expr.Literal (literal tok) tok.

Lemma previousAt_next c : previousAt (next c) = peekAt c.
Proof. reflexivity. Qed.

Ltac unfold_parser :=
  unfold bind, match_, consume, advance, previous, peek, peekNext, isAtEnd,
    check, ret, throw, starved, peekFunctionTerm, checkAt, isAtEndAt, isType in *.

Lemma grouping_atom fuel c :
  isAtom (peekAt c) = true ->
  grouping operators (S (S fuel)) c = Ok (atomExpr (peekAt c)) (next c).
Proof.
  intros H. unfold isAtom, atomExpr in *.
  cbn [grouping functionTerm]. unfold_parser. cbn [existsb].
  destruct (type (peekAt c)) eqn:E; try discriminate H;
    repeat (cbn; rewrite ?E); reflexivity.
Qed.

Lemma applicationLoop_stop fuel expr c :
  peekFunctionTermAt c = false ->
  applicationLoop operators (S fuel) expr c = Ok expr c.
Proof.
  intros H. cbn [applicationLoop]. unfold bind, peekFunctionTerm.
  rewrite H. reflexivity.
Qed.

Lemma application_atom fuel c :
  isAtom (peekAt c) = true ->
  peekFunctionTermAt (next c) = false ->
  application operators (S (S (S fuel))) c = Ok (atomExpr (peekAt c)) (next c).
Proof.
  intros Ha Hn. cbn [application]. unfold bind at 1.
  rewrite grouping_atom by exact Ha.
  apply applicationLoop_stop. exact Hn.
Qed.

Lemma expression_atom fuel precedence c :
  isAtom (peekAt c) = true ->
  peekFunctionTermAt (next c) = false ->
  expression operators (S (S (S (S fuel)))) precedence c
  = expressionLoop operators (S (S (S fuel))) precedence (atomExpr (peekAt c)) (next c).
Proof.
  intros Ha Hn. cbn [expression]. unfold bind at 1.
  rewrite application_atom by assumption. reflexivity.
Qed.

Lemma expressionLoop_stop fuel precedence left c :
  isType TokenType.Operator (peekAt c) = false ->
  expressionLoop operators (S fuel) precedence left c = Ok left c.
Proof.
  intros H. cbn [expressionLoop]. unfold isType in H. unfold_parser.
  rewrite H. reflexivity.
Qed.

Lemma expressionLoop_low fuel precedence left c q assoc :
  isType TokenType.Operator (peekAt c) = true ->
  operators !! lexeme (peekAt c) = Some (q, assoc) ->
  Number.ltb q precedence = true ->
  expressionLoop operators (S fuel) precedence left c = Ok left c.
Proof.
  intros H Hq Hlt. cbn [expressionLoop]. unfold isType in H. unfold_parser.
  rewrite H, Hq. rewrite Hlt. reflexivity.
Qed.

Lemma expressionLoop_take fuel precedence left c q assoc :
  isType TokenType.Operator (peekAt c) = true ->
  operators !! lexeme (peekAt c) = Some (q, assoc) ->
  Number.ltb q precedence = false ->
  isType TokenType.RightParen (peekNextAt c) = false ->
  expressionLoop operators (S fuel) precedence left c
  = match expression operators fuel
            (match assoc with AssocLeft => Number.add q Number.one | AssocRight => q end) (next c) with
    | Ok rhs c' =>
        if Expr.isEmpty left || Expr.isEmpty rhs
        then Throw (ParseError (AtToken (peekAt c))
               (missingExpression (Expr.isEmpty left) (Expr.isEmpty rhs) (peekAt c)))
        else expressionLoop operators fuel precedence
               (Expr.Binary left (peekAt c) rhs q) c'
    | Throw e => Throw e
    | Starved => Starved
    end.
Proof.
  intros H Hq Hle Hn. cbn [expressionLoop]. unfold isType in H, Hn. unfold_parser.
  rewrite H, Hq. rewrite Hle, Hn.
  assert (E : TokenType.eqb (type (peekAt c)) TokenType.EOF = false).
  { destruct (type (peekAt c)); try discriminate H; reflexivity. }
  rewrite E. unfold next, previousAt. cbn [tokens current pred].
  fold (peekAt c).
  destruct (expression _ _ _ _) as [rhs c'| |]; [|reflexivity..].
  destruct (_ || _); reflexivity.
Qed.

(** An operator right before a closing parenthesis is left to [grouping]. *)
Lemma expressionLoop_section fuel precedence left c q assoc :
  isType TokenType.Operator (peekAt c) = true ->
  operators !! lexeme (peekAt c) = Some (q, assoc) ->
  isType TokenType.RightParen (peekNextAt c) = true ->
  expressionLoop operators (S fuel) precedence left c = Ok left c.
Proof.
  intros H Hq Hn. cbn [expressionLoop]. unfold isType in H, Hn. unfold_parser.
  rewrite H, Hq. destruct (Number.ltb q precedence); [reflexivity|].
  rewrite Hn. reflexivity.
Qed.

Lemma expression_unfold fuel precedence c :
  expression operators (S fuel) precedence c
  = bind (application operators fuel) (expressionLoop operators fuel precedence) c.
Proof. reflexivity. Qed.

Lemma application_unfold fuel c :
  application operators (S fuel) c
  = bind (grouping operators fuel) (applicationLoop operators fuel) c.
Proof. reflexivity. Qed.

Lemma grouping_empty fuel c :
  TokenType.eqb (type (peekAt c)) TokenType.LeftParen = false ->
  peekFunctionTermAt c = false ->
  grouping operators (S (S fuel)) c = Ok Expr.Empty c.
Proof.
  intros Hlp Hterm. unfold peekFunctionTermAt in Hterm. cbv zeta in Hterm.
  rewrite Hlp in Hterm.
  cbn [grouping functionTerm]. unfold_parser. cbn [existsb].
  destruct (type (peekAt c)) eqn:E; try discriminate Hterm; try discriminate Hlp;
    repeat (cbn; rewrite ?E); reflexivity.
Qed.

Lemma applicationLoop_take fuel expr c arg c' :
  peekFunctionTermAt c = true ->
  grouping operators fuel c = Ok arg c' ->
  applicationLoop operators (S fuel) expr c
  = applicationLoop operators fuel (Expr.Application expr arg) c'.
Proof.
  intros Hterm Hg. cbn [applicationLoop]. unfold bind, peekFunctionTerm.
  rewrite Hterm, Hg. reflexivity.
Qed.

Lemma expression_via_grouping fuel precedence c expr c' :
  grouping operators (S fuel) c = Ok expr c' ->
  peekFunctionTermAt c' = false ->
  expression operators (S (S (S fuel))) precedence c
  = expressionLoop operators (S (S fuel)) precedence expr c'.
Proof.
  intros Hg Hn. cbn [expression]. unfold bind at 1.
  cbn [application]. unfold bind at 1. rewrite Hg.
  rewrite applicationLoop_stop by exact Hn. reflexivity.
Qed.

Lemma expression_grouping_throws fuel precedence c e :
  grouping operators (S fuel) c = Throw e ->
  expression operators (S (S (S fuel))) precedence c = Throw e.
Proof.
  intros Hg. cbn [expression]. unfold bind at 1.
  cbn [application]. unfold bind at 1. rewrite Hg. reflexivity.
Qed.

Lemma grouping_plain fuel c expr c' :
  type (peekAt c) = TokenType.LeftParen ->
  TokenType.eqb (type (peekAt (next c))) TokenType.Operator = false ->
  TokenType.eqb (type (peekAt (next c))) TokenType.RightParen = false ->
  expression operators fuel Number.zero (next c) = Ok expr c' ->
  type (peekAt c') = TokenType.RightParen ->
  grouping operators (S fuel) c
  = Ok (Expr.Grouping (peekAt c) expr (peekAt c')) (next c').
Proof.
  intros Hlp Hop Hrp He Hclose. unfold next in Hop, Hrp, He.
  cbn [grouping]. unfold_parser. cbn [existsb].
  repeat first [ rewrite Hlp | rewrite Hop | rewrite Hrp | rewrite He
               | rewrite Hclose | progress cbn -[peekAt previousAt] ].
  destruct (TokenType.eqb _ TokenType.EOF);
    repeat first [ rewrite Hlp | rewrite Hop | rewrite Hrp | rewrite He
                 | rewrite Hclose | progress cbn -[peekAt previousAt] ];
    reflexivity.
Qed.

Lemma grouping_left_section fuel c expr c' :
  type (peekAt c) = TokenType.LeftParen ->
  type (peekAt (next c)) = TokenType.Operator ->
  TokenType.eqb (type (peekAt (next (next c)))) TokenType.RightParen = false ->
  expression operators fuel Number.zero (next (next c)) = Ok expr c' ->
  type (peekAt c') = TokenType.RightParen ->
  grouping operators (S fuel) c
  = finishGrouping operators (peekAt c) (Some (peekAt (next c))) None expr
      (peekAt c') (next c').
Proof.
  intros Hlp Hop Hrp He Hclose. unfold next in Hop, Hrp, He.
  cbn [tokens current] in Hrp, He.
  cbn [grouping]. unfold_parser. cbn [existsb].
  repeat first [ rewrite Hlp | rewrite Hop | rewrite Hrp | rewrite He
               | rewrite Hclose | progress cbn -[peekAt previousAt] ].
  destruct (TokenType.eqb _ TokenType.EOF);
    repeat first [ rewrite Hlp | rewrite Hop | rewrite Hrp | rewrite He
                 | rewrite Hclose | progress cbn -[peekAt previousAt] ];
    reflexivity.
Qed.

Lemma grouping_right_section fuel c expr c' :
  type (peekAt c) = TokenType.LeftParen ->
  TokenType.eqb (type (peekAt (next c))) TokenType.Operator = false ->
  TokenType.eqb (type (peekAt (next c))) TokenType.RightParen = false ->
  expression operators fuel Number.zero (next c) = Ok expr c' ->
  type (peekAt c') = TokenType.Operator ->
  type (peekAt (next c')) = TokenType.RightParen ->
  grouping operators (S fuel) c
  = finishGrouping operators (peekAt c) None (Some (peekAt c')) expr
      (peekAt (next c')) (next (next c')).
Proof.
  intros Hlp Hop Hrp He Hrop Hclose. unfold next in Hop, Hrp, He, Hclose.
  cbn [tokens current] in Hclose.
  cbn [grouping]. unfold_parser. cbn [existsb].
  repeat first [ rewrite Hlp | rewrite Hop | rewrite Hrp | rewrite He
               | rewrite Hrop | rewrite Hclose
               | progress cbn -[peekAt previousAt] ].
  destruct (TokenType.eqb _ TokenType.EOF);
    repeat first [ rewrite Hlp | rewrite Hop | rewrite Hrp | rewrite He
                 | rewrite Hrop | rewrite Hclose
                 | progress cbn -[peekAt previousAt] ];
    reflexivity.
Qed.

Lemma grouping_unit fuel c :
  type (peekAt c) = TokenType.LeftParen ->
  type (peekAt (next c)) = TokenType.RightParen ->
  grouping operators (S fuel) c
  = Throw (ThrownString "Encountered unit literal, but unit isn't supported yet").
Proof.
  intros Hlp Hrp. unfold next in Hrp.
  cbn [grouping]. unfold_parser. cbn [existsb].
  repeat first [ rewrite Hlp | rewrite Hrp | progress cbn -[peekAt previousAt] ].
  reflexivity.
Qed.

Lemma statement_type_annotation fuel c expr c' :
  expression operators fuel Number.zero c = Ok expr c' ->
  type (peekAt c') = TokenType.ColonColon ->
  statement operators fuel c
  = Throw (PlainError "Parsing type annotations isn't supported yet").
Proof.
  intros He Hcc. unfold statement, declaration, bind. rewrite He.
  unfold peek, isType. rewrite Hcc. reflexivity.
Qed.

Lemma parse_first_statement_propagates expressionBounds fuel toks e :
  isAtEndAt (mkCursor toks 0) = false ->
  checkAt TokenType.LineBreak (mkCursor toks 0) = false ->
  statement operators fuel (mkCursor toks 0) = Throw e ->
  (forall source message, e <> ParseError source message) ->
  parse operators expressionBounds (S fuel) toks = Propagated e.
Proof.
  intros H0 H1 Hs He. unfold parse. cbn [parseLoop]. rewrite H0, H1, Hs.
  destruct e; [exfalso; eapply He; reflexivity|reflexivity|reflexivity].
Qed.

Lemma finishGrouping_left_binary lp op lhs o rhs q rp c po assoc :
  operators !! lexeme op = Some (po, assoc) ->
  finishGrouping operators lp (Some op) None (Expr.Binary lhs o rhs q) rp c
  = if Number.ltb q po
    then Throw (ParseError (AtToken op)
                  "Section operator must have lower precedence than expression")
    else Ok (Expr.Grouping lp
               (Expr.Section op (Expr.Binary lhs o rhs q) SideLeft) rp) c.
Proof.
  intros Hop. unfold finishGrouping. cbn. rewrite Hop.
  destruct (Number.ltb q po); reflexivity.
Qed.

Lemma finishGrouping_right_binary lp op lhs o rhs q rp c po assoc :
  operators !! lexeme op = Some (po, assoc) ->
  finishGrouping operators lp None (Some op) (Expr.Binary lhs o rhs q) rp c
  = if Number.ltb q po
    then Throw (ParseError (AtToken op)
                  "Section operator must have lower precedence than expression")
    else Ok (Expr.Grouping lp
               (Expr.Section op (Expr.Binary lhs o rhs q) SideRight) rp) c.
Proof.
  intros Hop. unfold finishGrouping. cbn. rewrite Hop.
  destruct (Number.ltb q po); reflexivity.
Qed.

Lemma finishGrouping_left_grouping lp op lp' inner rp' rp c po assoc :
  operators !! lexeme op = Some (po, assoc) ->
  finishGrouping operators lp (Some op) None (Expr.Grouping lp' inner rp') rp c
  = Ok (Expr.Grouping lp
          (Expr.Section op (Expr.Grouping lp' inner rp') SideLeft) rp) c.
Proof.
  intros Hop. unfold finishGrouping. cbn. rewrite Hop. reflexivity.
Qed.

Lemma statement_throws fuel c e :
  expression operators fuel Number.zero c = Throw e ->
  statement operators fuel c = Throw e.
Proof.
  intros He. unfold statement, declaration, bind. rewrite He. reflexivity.
Qed.

Definition newLineExpected : string := "Expect new line after expression.".

Lemma statement_stray fuel c expr c' tok :
  expression operators fuel Number.zero c = Ok expr c' ->
  peekAt c' = tok -> type tok = TokenType.Operator ->
  statement operators fuel c = Throw (ParseError (AtToken tok) newLineExpected).
Proof.
  intros He Hpeek Htok. unfold statement, declaration, bind. rewrite He.
  unfold peek, isType, isAtEnd, isAtEndAt, consume, checkAt, isAtEndAt, ret.
  rewrite Hpeek, Htok. cbn. rewrite Hpeek, Htok. cbn. rewrite Hpeek, Htok.
  reflexivity.
Qed.

Lemma parse_first_statement_throws expressionBounds fuel toks source message :
  isAtEndAt (mkCursor toks 0) = false ->
  checkAt TokenType.LineBreak (mkCursor toks 0) = false ->
  statement operators fuel (mkCursor toks 0) = Throw (ParseError source message) ->
  parse operators expressionBounds (S fuel) toks
  = report expressionBounds [] source message.
Proof.
  intros H0 H1 Hs. unfold parse. cbn [parseLoop]. rewrite H0, H1, Hs. reflexivity.
Qed.

Lemma atomExpr_not_empty tok : Expr.isEmpty (atomExpr tok) = false.
Proof. unfold atomExpr. destruct (isType _ _); reflexivity. Qed.

Lemma parseLoop_unfold expressionBounds fuel statements c :
  parseLoop operators expressionBounds (S fuel) statements c
  = if isAtEndAt c then Returned statements []
    else if checkAt TokenType.LineBreak c then
      match advance c with
      | Ok _ c' => parseLoop operators expressionBounds fuel statements c'
      | Throw e => Propagated e
      | Starved => OutOfFuel
      end
    else
      match statement operators fuel c with
      | Ok stmt c' => parseLoop operators expressionBounds fuel (statements ++ [stmt]) c'
      | Throw (ParseError source message) =>
          report expressionBounds statements source message
      | Throw e => Propagated e
      | Starved => OutOfFuel
      end.
Proof. reflexivity. Qed.

Lemma statement_expression fuel c expr c' :
  expression operators fuel Number.zero c = Ok expr c' ->
  isAtEndAt c' = true ->
  statement operators fuel c = Ok (Stmt.Expression expr) c'.
Proof.
  intros He Hend. unfold statement, declaration, bind. rewrite He.
  unfold peek, isType, isAtEnd, ret. unfold isAtEndAt in Hend.
  apply TokenType.eqb_eq in Hend. rewrite Hend. cbn.
  unfold isAtEndAt. rewrite Hend. reflexivity.
Qed.

Lemma parse_one_statement expressionBounds fuel toks stmt c' :
  isAtEndAt (mkCursor toks 0) = false ->
  checkAt TokenType.LineBreak (mkCursor toks 0) = false ->
  statement operators (S fuel) (mkCursor toks 0) = Ok stmt c' ->
  isAtEndAt c' = true ->
  parse operators expressionBounds (S (S fuel)) toks = Returned [stmt] [].
Proof.
  intros H0 H1 Hs Hend. unfold parse.
  rewrite parseLoop_unfold, H0, H1, Hs, parseLoop_unfold, Hend. reflexivity.
Qed.

Lemma parsesTo_deterministic expressionBounds toks run run' :
  parsesTo operators expressionBounds toks run ->
  parsesTo operators expressionBounds toks run' ->
  run = run'.
Proof.
  intros [n Hn] [n' Hn'].
  rewrite <- (Hn (n `max` n')), <- (Hn' (n `max` n')) by lia. reflexivity.
Qed.

Lemma parsesTo_from expressionBounds toks run n :
  (forall k, parse operators expressionBounds (n + k) toks = run) ->
  parsesTo operators expressionBounds toks run.
Proof.
  intros H. exists n. intros fuel Hle.
  replace fuel with (n + (fuel - n)) by lia. apply H.
Qed.

End Stepping.

(** ** Errors *)

Section Errors.
Variable operators : gmap string (Number.t * Associativity).
Variable expressionBounds : Expr.t -> option (nat * nat).

Definition unitLiteral : Thrown :=
  ThrownString "Encountered unit literal, but unit isn't supported yet".

Definition typeAnnotation : Thrown :=
  PlainError "Parsing type annotations isn't supported yet".

Definition expectedVariable : string :=
  "Expected variable on the left-hand side of assignment".

(** What an expression can throw: a [ParseError] that carries a token, or
    the bare string of the unit literal. *)
Definition fromExpression (e : Thrown) : Prop :=
  match e with
  | ParseError (AtToken _) _ => True
  | ParseError (AtExpr _) _ => False
  | _ => e = unitLiteral
  end.

(** What a statement can throw: that, the [ParseError] of [parseFunlhs],
    which carries the expression that is no variable, or the plain error of
    the type annotation. *)
Definition fromStatement (e : Thrown) : Prop :=
  match e with
  | ParseError (AtToken _) _ => True
  | ParseError (AtExpr expr) message =>
      message = expectedVariable /\ forall name, expr <> Expr.Var name
  | _ => e = unitLiteral \/ e = typeAnnotation
  end.

Definition throwsOnly {A} (allowed : Thrown -> Prop) (r : Res A) : Prop :=
  match r with
  | Throw e => allowed e
  | _ => True
  end.

Lemma throwsOnly_bind {A B} allowed (m : P A) (k : A -> P B) c :
  throwsOnly allowed (m c) ->
  (forall a c', throwsOnly allowed (k a c')) ->
  throwsOnly allowed (bind m k c).
Proof.
  intros Hm Hk. unfold bind. destruct (m c) as [a c'| e |]; auto.
Qed.

Lemma throwsOnly_weaken {A} (r : Res A) :
  throwsOnly fromExpression r -> throwsOnly fromStatement r.
Proof.
  destruct r as [| [[]| |] |]; cbn; auto; try contradiction; intros H; left; exact H.
Qed.

Lemma advance_throwsOnly allowed c : throwsOnly allowed (advance c).
Proof. exact I. Qed.

Lemma match_throwsOnly allowed types c : throwsOnly allowed (match_ types c).
Proof. unfold match_. destruct (existsb _ _); exact I. Qed.

Lemma consume_throwsOnly ty message c :
  throwsOnly fromExpression (consume ty message c).
Proof. unfold consume. destruct (checkAt ty c); exact I. Qed.

Lemma finishGrouping_throwsOnly lp leftOp rightOp expr rp c :
  throwsOnly fromExpression (finishGrouping operators lp leftOp rightOp expr rp c).
Proof.
  unfold finishGrouping.
  destruct leftOp, rightOp; try exact I;
    (destruct (operators !! _) as [[precedence assoc]|]; [|exact I]);
    destruct expr; try exact I; destruct (Number.ltb _ _); exact I.
Qed.

Ltac throws_step IH :=
  first
    [ exact I
    | apply IH
    | apply advance_throwsOnly
    | apply match_throwsOnly
    | apply consume_throwsOnly
    | apply finishGrouping_throwsOnly
    | reflexivity
    | apply throwsOnly_bind; [|intros ? ?]
    | match goal with
      | |- throwsOnly _ ((if ?b then _ else _) _) => destruct b
      | |- throwsOnly _ ((match ?x with _ => _ end) _) => destruct x
      end ].

(** Nothing but a [ParseError] or the unit-literal string leaves the
    expression grammar. *)
Lemma grammar_throwsOnly fuel :
  (forall precedence c, throwsOnly fromExpression (expression operators fuel precedence c))
  /\ (forall precedence left c,
        throwsOnly fromExpression (expressionLoop operators fuel precedence left c))
  /\ (forall c, throwsOnly fromExpression (application operators fuel c))
  /\ (forall expr c, throwsOnly fromExpression (applicationLoop operators fuel expr c))
  /\ (forall c, throwsOnly fromExpression (grouping operators fuel c))
  /\ (forall c, throwsOnly fromExpression (functionTerm operators fuel c))
  /\ (forall items c, throwsOnly fromExpression (listLoop operators fuel items c)).
Proof.
  induction fuel as [|fuel (IH1 & IH2 & IH3 & IH4 & IH5 & IH6 & IH7)].
  - repeat split; intros; exact I.
  - repeat split; intros.
    + cbn [expression]. repeat throws_step IH1; repeat throws_step IH2;
        repeat throws_step IH3.
    + cbn [expressionLoop]. unfold peek, peekNext.
      repeat first [throws_step IH1 | throws_step IH2].
    + cbn [application]. repeat first [throws_step IH5 | throws_step IH4].
    + cbn [applicationLoop]. unfold peekFunctionTerm.
      repeat first [throws_step IH5 | throws_step IH4].
    + cbn [grouping]. unfold peek, previous.
      repeat first [throws_step IH1 | throws_step IH6].
    + cbn [functionTerm]. unfold previous.
      repeat first [throws_step IH7].
    + cbn [listLoop]. unfold isAtEnd, peek.
      repeat first [throws_step IH1 | throws_step IH7].
Qed.

Lemma variable_throwsOnly expr c : throwsOnly fromStatement (variable expr c).
Proof.
  destruct expr; cbn; try exact I; (split; [reflexivity|discriminate]).
Qed.

Lemma parseFunlhs_throwsOnly expr c :
  throwsOnly fromStatement (parseFunlhs expr c).
Proof.
  revert c. induction expr as [| | | | | | l IHl r _ |]; intros c;
    cbn [parseFunlhs];
    try (apply throwsOnly_bind; [apply variable_throwsOnly|intros; exact I]).
  apply throwsOnly_bind; [apply IHl|]. intros names c'.
  apply throwsOnly_bind; [apply variable_throwsOnly|intros; exact I].
Qed.

Lemma statement_throwsOnly fuel c :
  throwsOnly fromStatement (statement operators fuel c).
Proof.
  unfold statement, declaration.
  apply throwsOnly_bind; [|intros stmt c'; unfold isAtEnd;
    apply throwsOnly_bind; [exact I|]; intros [] c'';
    [exact I | apply throwsOnly_bind; intros; [apply throwsOnly_weaken, consume_throwsOnly | exact I]]].
  apply throwsOnly_bind.
  { apply throwsOnly_weaken, (proj1 (grammar_throwsOnly fuel)). }
  intros expr c'. unfold peek.
  apply throwsOnly_bind; [exact I|]. intros tok c''.
  destruct (isType TokenType.ColonColon tok); [right; reflexivity|].
  destruct (isType TokenType.Equal tok); [|exact I].
  apply throwsOnly_bind; [apply parseFunlhs_throwsOnly|].
  intros lhs c3. apply throwsOnly_bind; [exact I|]. intros _ c4.
  apply throwsOnly_bind; [apply throwsOnly_weaken, consume_throwsOnly|].
  intros initializer c5. destruct lhs; exact I.
Qed.

(** How a run can end: at most one report; only the two exceptions that
    are no [ParseError] leave the loop; and the only error handed to
    [expressionBounds] is the one of [parseFunlhs], with the expression
    that is no variable. *)
Definition withinPolicy (run : Run) : Prop :=
  match run with
  | Returned _ reports => length reports <= 1
  | Propagated e => e = unitLiteral \/ e = typeAnnotation
  | NoSpan _ expr message =>
      message = expectedVariable
      /\ expressionBounds expr = None
      /\ forall name, expr <> Expr.Var name
  | OutOfFuel => True
  end.

Lemma report_policy statements source message :
  fromStatement (ParseError source message) ->
  withinPolicy (report expressionBounds statements source message).
Proof.
  destruct source as [tok|expr]; cbn; [lia|].
  intros [Hm Hv]. destruct (expressionBounds expr) as [[from to]|] eqn:E; cbn;
    [lia|auto].
Qed.

Lemma parseLoop_policy fuel statements c :
  withinPolicy (parseLoop operators expressionBounds fuel statements c).
Proof.
  revert statements c. induction fuel as [|fuel IH]; intros statements c.
  - exact I.
  - cbn [parseLoop]. destruct (isAtEndAt c); [cbn; lia|].
    destruct (checkAt TokenType.LineBreak c); [apply IH|].
    pose proof (statement_throwsOnly fuel c) as Hs.
    destruct (statement operators fuel c) as [stmt c'| e |]; [apply IH| |exact I].
    destruct e; [apply report_policy; exact Hs|exact Hs|exact Hs].
Qed.

(** *** More fuel changes nothing *)

(** [r'] is [r] whenever [r] did not run out of fuel. *)
Definition settles {A} (r r' : Res A) : Prop := r <> Starved -> r' = r.

Lemma settles_refl {A} (r : Res A) : settles r r.
Proof. intros _. reflexivity. Qed.

Lemma settles_bind {A B} (m m' : P A) (k k' : A -> P B) c :
  settles (m c) (m' c) ->
  (forall a c', settles (k a c') (k' a c')) ->
  settles (bind m k c) (bind m' k' c).
Proof.
  intros Hm Hk. unfold settles, bind in *.
  destruct (m c) as [a c'| e |] eqn:Em.
  - rewrite Hm by discriminate. apply Hk.
  - rewrite Hm by discriminate. reflexivity.
  - intros H. contradiction H. reflexivity.
Qed.

Ltac settles_step IH :=
  first
    [ apply settles_refl
    | apply IH
    | apply settles_bind; [|intros ? ?]
    | match goal with
      | |- settles ((if ?b then _ else _) _) _ => destruct b
      | |- settles ((match ?x with _ => _ end) _) _ => destruct x
      end ].

Lemma grammar_settles fuel :
  (forall precedence c,
     settles (expression operators fuel precedence c)
             (expression operators (S fuel) precedence c))
  /\ (forall precedence left c,
        settles (expressionLoop operators fuel precedence left c)
                (expressionLoop operators (S fuel) precedence left c))
  /\ (forall c, settles (application operators fuel c)
                        (application operators (S fuel) c))
  /\ (forall expr c, settles (applicationLoop operators fuel expr c)
                             (applicationLoop operators (S fuel) expr c))
  /\ (forall c, settles (grouping operators fuel c) (grouping operators (S fuel) c))
  /\ (forall c, settles (functionTerm operators fuel c)
                        (functionTerm operators (S fuel) c))
  /\ (forall items c, settles (listLoop operators fuel items c)
                              (listLoop operators (S fuel) items c)).
Proof.
  induction fuel as [|fuel (IH1 & IH2 & IH3 & IH4 & IH5 & IH6 & IH7)].
  - repeat split; intros; intros H; contradiction H; reflexivity.
  - repeat split; intros.
    + change (settles
                (bind (application operators fuel)
                   (expressionLoop operators fuel precedence) c)
                (bind (application operators (S fuel))
                   (expressionLoop operators (S fuel) precedence) c)).
      repeat first [settles_step IH3 | settles_step IH2].
    + cbn [expressionLoop]. unfold peek, peekNext.
      repeat first [settles_step IH1 | settles_step IH2].
    + change (settles
                (bind (grouping operators fuel) (applicationLoop operators fuel) c)
                (bind (grouping operators (S fuel))
                   (applicationLoop operators (S fuel)) c)).
      repeat first [settles_step IH5 | settles_step IH4].
    + cbn [applicationLoop]. unfold peekFunctionTerm.
      repeat first [settles_step IH5 | settles_step IH4].
    + cbn [grouping]. unfold peek, previous.
      repeat first [settles_step IH1 | settles_step IH6].
    + cbn [functionTerm]. unfold previous.
      repeat first [settles_step IH7].
    + cbn [listLoop]. unfold isAtEnd, peek.
      repeat first [settles_step IH1 | settles_step IH7].
Qed.

Lemma statement_settles fuel c :
  settles (statement operators fuel c) (statement operators (S fuel) c).
Proof.
  unfold statement, declaration.
  apply settles_bind; [|intros; apply settles_refl].
  apply settles_bind; [|intros; apply settles_refl].
  apply (proj1 (grammar_settles fuel)).
Qed.

Lemma parseLoop_settles fuel statements c :
  parseLoop operators expressionBounds fuel statements c <> OutOfFuel ->
  parseLoop operators expressionBounds (S fuel) statements c
  = parseLoop operators expressionBounds fuel statements c.
Proof.
  revert statements c. induction fuel as [|fuel IH]; intros statements c H.
  - contradiction H. reflexivity.
  - remember (S fuel) as fuel' eqn:Efuel. cbn [parseLoop]. subst fuel'.
    cbn [parseLoop] in H |- *.
    destruct (isAtEndAt c); [reflexivity|].
    destruct (checkAt TokenType.LineBreak c).
    + unfold advance in *. apply IH, H.
    + pose proof (statement_settles fuel c) as Hs. unfold settles in Hs.
      destruct (statement operators fuel c) as [stmt c'| e |] eqn:Es.
      * rewrite Hs by discriminate. apply IH, H.
      * rewrite Hs by discriminate. reflexivity.
      * contradiction H. reflexivity.
Qed.

(** A run that did not run out of fuel is the run for every larger fuel. *)
Lemma parse_stable fuel fuel' toks :
  parse operators expressionBounds fuel toks <> OutOfFuel -> fuel <= fuel' ->
  parse operators expressionBounds fuel' toks
  = parse operators expressionBounds fuel toks.
Proof.
  intros H Hle. induction Hle as [|fuel' Hle IH]; [reflexivity|].
  unfold parse in *. rewrite parseLoop_settles; rewrite IH; auto.
Qed.

Lemma parse_settles fuel toks run :
  parse operators expressionBounds fuel toks = run -> run <> OutOfFuel ->
  parsesTo operators expressionBounds toks run.
Proof.
  intros <- H. exists fuel. intros fuel' Hle. apply parse_stable; assumption.
Qed.

End Errors.

(** ** Termination *)

Section Termination.
Variable operators : gmap string (Number.t * Associativity).
Variable expressionBounds : Expr.t -> option (nat * nat).

(** The tokens from the lookahead on. *)
Definition remaining (c : Cursor) : nat := length (tokens c) - current c.

(** [c'] is a cursor into the same tokens, not before [c]. *)
Definition within (c c' : Cursor) : Prop :=
  tokens c' = tokens c /\ remaining c' <= remaining c.

(** The result is there (the fuel was enough), and a cursor it returns is
    within [c]. *)
Definition returns {A} (c : Cursor) (r : Res A) : Prop :=
  match r with
  | Ok _ c' => within c c'
  | Throw _ => True
  | Starved => False
  end.

(** The same, and the cursor moved. *)
Definition consumes {A} (c : Cursor) (r : Res A) : Prop :=
  match r with
  | Ok _ c' => tokens c' = tokens c /\ remaining c' < remaining c
  | Throw _ => True
  | Starved => False
  end.

Lemma within_refl c : within c c.
Proof. split; [reflexivity|lia]. Qed.

Lemma within_trans c1 c2 c3 : within c1 c2 -> within c2 c3 -> within c1 c3.
Proof. intros [H1 H2] [H3 H4]. split; [congruence|lia]. Qed.

Lemma not_at_end_remaining c : isAtEndAt c = false -> 0 < remaining c.
Proof.
  unfold isAtEndAt, peekAt, remaining. intros H.
  destruct (tokens c !! current c) eqn:E; [|discriminate H].
  apply lookup_lt_Some in E. lia.
Qed.

Lemma next_remaining c :
  isAtEndAt c = false ->
  tokens (next c) = tokens c /\ remaining (next c) < remaining c.
Proof.
  intros H. apply not_at_end_remaining in H. unfold next, remaining in *.
  cbn. split; [reflexivity|lia].
Qed.

Lemma advance_spec c :
  exists tok c', advance c = Ok tok c'
    /\ (c' = c \/ (c' = next c /\ isAtEndAt c = false)).
Proof.
  unfold advance. destruct (isAtEndAt c) eqn:E; eauto 6.
Qed.

Lemma match_spec types c :
  let hit := existsb (fun ty => checkAt ty c) types in
  match_ types c = Ok hit (if hit then next c else c)
  /\ (hit = true -> isAtEndAt c = false).
Proof.
  cbv zeta. unfold match_. destruct (existsb _ _) eqn:E; [|split; [reflexivity|discriminate]].
  assert (Hend : isAtEndAt c = false).
  { apply existsb_exists in E as (ty & _ & Hty). unfold checkAt in Hty.
    destruct (isAtEndAt c); [discriminate|reflexivity]. }
  unfold bind, advance, ret. rewrite Hend. split; [reflexivity|auto].
Qed.

Lemma match_bind {A} types (k : bool -> P A) c :
  let hit := existsb (fun ty => checkAt ty c) types in
  bind (match_ types) k c = k hit (if hit then next c else c).
Proof.
  cbv zeta. unfold bind at 1. rewrite (proj1 (match_spec types c)). reflexivity.
Qed.

Lemma consume_spec ty message c :
  (exists e, consume ty message c = Throw e)
  \/ (exists tok, consume ty message c = Ok tok (next c) /\ isAtEndAt c = false).
Proof.
  unfold consume, checkAt. destruct (isAtEndAt c) eqn:E; [left; eauto|].
  destruct (TokenType.eqb _ _); [|left; eauto]. right.
  unfold advance. rewrite E. eauto.
Qed.

Lemma returns_advance c : returns c (advance c).
Proof.
  destruct (advance_spec c) as (tok & c' & -> & [->|[-> Hend]]); cbn.
  - apply within_refl.
  - destruct (next_remaining c Hend). split; [assumption|lia].
Qed.

Lemma returns_match types c : returns c (match_ types c).
Proof.
  destruct (match_spec types c) as [-> Hend]. cbn.
  destruct (existsb _ _); [|apply within_refl].
  destruct (next_remaining c (Hend eq_refl)). split; [assumption|lia].
Qed.

Lemma returns_consume ty message c : returns c (consume ty message c).
Proof.
  destruct (consume_spec ty message c) as [[e ->]|(tok & -> & Hend)]; cbn; [exact I|].
  destruct (next_remaining c Hend). split; [assumption|lia].
Qed.

Lemma returns_finishGrouping lp leftOp rightOp expr rp c :
  returns c (finishGrouping operators lp leftOp rightOp expr rp c).
Proof.
  unfold finishGrouping.
  destruct leftOp, rightOp; try exact I; try apply within_refl;
    (destruct (operators !! _) as [[precedence assoc]|]; [|exact I]);
    destruct expr; try apply within_refl; destruct (Number.ltb _ _);
    first [exact I | apply within_refl].
Qed.


Lemma returns_bind {A B} (m : P A) (k : A -> P B) c :
  returns c (m c) ->
  (forall a c1, m c = Ok a c1 -> within c c1 -> returns c1 (k a c1)) ->
  returns c (bind m k c).
Proof.
  unfold bind. intros Hm Hk. destruct (m c) as [a c1| e |] eqn:Em; cbn in Hm; auto.
  specialize (Hk a c1 eq_refl Hm). destruct (k a c1) as [b c2| e |]; cbn in *; auto.
  eapply within_trans; eassumption.
Qed.

Lemma returns_within {A} c c1 (r : Res A) :
  within c c1 -> returns c1 r -> returns c r.
Proof.
  intros Hw Hr. destruct r; cbn in *; auto. eapply within_trans; eassumption.
Qed.

Lemma consumes_returns {A} c (r : Res A) : consumes c r -> returns c r.
Proof. destruct r; cbn; auto. intros [H1 H2]. split; [exact H1|lia]. Qed.

Lemma consumes_after {A} c c1 (r : Res A) :
  tokens c1 = tokens c -> remaining c1 < remaining c ->
  returns c1 r -> consumes c r.
Proof.
  intros Ht Hr H. destruct r as [a c2| |]; cbn in *; auto.
  destruct H as [H1 H2]. split; [congruence|lia].
Qed.

(** The fuel that is enough for each function, from the tokens left. *)
Definition fuelExpression (r : nat) : nat := 8 * r + 6.
Definition fuelExpressionLoop (r : nat) : nat := 8 * r + 5.
Definition fuelApplication (r : nat) : nat := 8 * r + 5.
Definition fuelApplicationLoop (r : nat) : nat := 8 * r + 4.
Definition fuelGrouping (r : nat) : nat := 8 * r + 3.
Definition fuelFunctionTerm (r : nat) : nat := 8 * r + 2.
Definition fuelListLoop (r : nat) (items : list Expr.t) : nat :=
  8 * r + 8 + match items with [] => 1 | _ => 0 end.

Record terminating (fuel : nat) : Prop := {
  expression_returns : forall precedence c,
    fuelExpression (remaining c) <= fuel ->
    returns c (expression operators fuel precedence c);
  expressionLoop_returns : forall precedence left c,
    fuelExpressionLoop (remaining c) <= fuel ->
    returns c (expressionLoop operators fuel precedence left c);
  application_returns : forall c,
    fuelApplication (remaining c) <= fuel ->
    returns c (application operators fuel c);
  applicationLoop_returns : forall expr c,
    fuelApplicationLoop (remaining c) <= fuel ->
    returns c (applicationLoop operators fuel expr c);
  grouping_returns : forall c,
    fuelGrouping (remaining c) <= fuel ->
    returns c (grouping operators fuel c)
    /\ (peekFunctionTermAt c = true -> consumes c (grouping operators fuel c));
  functionTerm_returns : forall c,
    fuelFunctionTerm (remaining c) <= fuel ->
    returns c (functionTerm operators fuel c)
    /\ (peekFunctionTermAt c = true ->
        TokenType.eqb (type (peekAt c)) TokenType.LeftParen = false ->
        consumes c (functionTerm operators fuel c));
  listLoop_returns : forall items c,
    fuelListLoop (remaining c) items <= fuel ->
    returns c (listLoop operators fuel items c);
}.

Lemma expression_step fuel :
  terminating fuel ->
  forall precedence c,
    fuelExpression (remaining c) <= S fuel ->
    returns c (expression operators (S fuel) precedence c).
Proof.
  intros IH precedence c Hfuel. unfold fuelExpression in Hfuel.
  rewrite expression_unfold. apply returns_bind.
  - apply (application_returns _ IH). unfold fuelApplication. lia.
  - intros left c1 _ [_ Hr]. apply (expressionLoop_returns _ IH).
    unfold fuelExpressionLoop. lia.
Qed.

Lemma application_step fuel :
  terminating fuel ->
  forall c,
    fuelApplication (remaining c) <= S fuel ->
    returns c (application operators (S fuel) c).
Proof.
  intros IH c Hfuel. unfold fuelApplication in Hfuel.
  rewrite application_unfold. apply returns_bind.
  - apply (grouping_returns _ IH). unfold fuelGrouping. lia.
  - intros expr c1 _ [_ Hr]. apply (applicationLoop_returns _ IH).
    unfold fuelApplicationLoop. lia.
Qed.

Lemma applicationLoop_step fuel :
  terminating fuel ->
  forall expr c,
    fuelApplicationLoop (remaining c) <= S fuel ->
    returns c (applicationLoop operators (S fuel) expr c).
Proof.
  intros IH expr c Hfuel. unfold fuelApplicationLoop in Hfuel.
  cbn [applicationLoop]. unfold bind at 1, peekFunctionTerm.
  destruct (peekFunctionTermAt c) eqn:Hterm; [|apply within_refl].
  assert (Hg : fuelGrouping (remaining c) <= fuel) by (unfold fuelGrouping; lia).
  pose proof (proj2 (grouping_returns _ IH c Hg) Hterm) as Hcons.
  unfold bind. destruct (grouping operators fuel c) as [arg c1| e |];
    cbn in Hcons; [|exact I|contradiction].
  destruct Hcons as [Ht Hr].
  apply returns_within with (c1 := c1); [split; [exact Ht|lia]|].
  apply (applicationLoop_returns _ IH). unfold fuelApplicationLoop. lia.
Qed.

Lemma expressionLoop_step fuel :
  terminating fuel ->
  forall precedence left c,
    fuelExpressionLoop (remaining c) <= S fuel ->
    returns c (expressionLoop operators (S fuel) precedence left c).
Proof.
  intros IH precedence left c Hfuel. unfold fuelExpressionLoop in Hfuel.
  cbn [expressionLoop]. unfold bind at 1, peek.
  destruct (isType TokenType.Operator (peekAt c)) eqn:Hop; [|apply within_refl].
  destruct (operators !! lexeme (peekAt c)) as [[opPrecedence assoc]|]; [|exact I].
  destruct (Number.ltb opPrecedence precedence); [apply within_refl|].
  unfold bind at 1, peekNext.
  destruct (isType TokenType.RightParen (peekNextAt c)); [apply within_refl|].
  assert (Hend : isAtEndAt c = false).
  { unfold isAtEndAt, isType in *. destruct (type (peekAt c)); try discriminate Hop.
    reflexivity. }
  destruct (next_remaining c Hend) as [Ht Hr].
  unfold bind at 1, advance. rewrite Hend. fold (next c).
  apply returns_within with (c1 := next c); [split; [exact Ht|lia]|].
  apply returns_bind.
  - apply (expression_returns _ IH). unfold fuelExpression. lia.
  - intros right c2 _ [_ Hr2].
    destruct (Expr.isEmpty left || Expr.isEmpty right); [exact I|].
    apply (expressionLoop_returns _ IH). unfold fuelExpressionLoop. lia.
Qed.

Ltac returns_step :=
  first
    [ exact I
    | apply within_refl
    | apply returns_advance
    | apply returns_match
    | apply returns_consume
    | apply returns_finishGrouping
    | apply returns_bind; [|intros ? ? _ [? ?]]
    | match goal with
      | |- returns _ ((if ?b then _ else _) _) => destruct b
      | |- returns _ ((match ?x with _ => _ end) _) => destruct x
      end ].

Lemma functionTerm_step fuel :
  terminating fuel ->
  forall c,
    fuelFunctionTerm (remaining c) <= S fuel ->
    returns c (functionTerm operators (S fuel) c)
    /\ (peekFunctionTermAt c = true ->
        TokenType.eqb (type (peekAt c)) TokenType.LeftParen = false ->
        consumes c (functionTerm operators (S fuel) c)).
Proof.
  intros IH c Hfuel. unfold fuelFunctionTerm in Hfuel.
  cbn [functionTerm].
  destruct (match_spec [TokenType.Number; TokenType.String] c) as [H1 E1].
  destruct (match_spec [TokenType.Identifier] c) as [H2 E2].
  destruct (match_spec [TokenType.LeftBracket] c) as [H3 E3].
  unfold bind, previous, ret. rewrite H1.
  destruct (existsb _ [TokenType.Number; TokenType.String]) eqn:Hit1.
  { destruct (next_remaining c (E1 eq_refl)) as [Ht Hr]. cbv beta iota.
    split; [|intros _ _]; unfold returns, consumes, within;
      (split; [exact Ht|first [exact Hr|apply Nat.lt_le_incl, Hr]]). }
  cbv beta iota. rewrite H2.
  destruct (existsb _ [TokenType.Identifier]) eqn:Hit2.
  { destruct (next_remaining c (E2 eq_refl)) as [Ht Hr]. cbv beta iota.
    split; [|intros _ _]; unfold returns, consumes, within;
      (split; [exact Ht|first [exact Hr|apply Nat.lt_le_incl, Hr]]). }
  cbv beta iota. rewrite H3.
  destruct (existsb _ [TokenType.LeftBracket]) eqn:Hit3.
  { destruct (next_remaining c (E3 eq_refl)) as [Ht Hr]. cbv beta iota.
    assert (Hl : returns (next c)
                   (bind (listLoop operators fuel [])
                      (fun items => ret (Expr.List items)) (next c))).
    { apply returns_bind; [|intros; apply within_refl].
      apply (listLoop_returns _ IH). unfold fuelListLoop. lia. }
    unfold bind, ret in Hl.
    split; [|intros _ _].
    - apply consumes_returns. eapply consumes_after; eassumption.
    - eapply consumes_after; eassumption. }
  cbv beta iota.
  split; [apply within_refl|].
  intros Hterm Hlp. exfalso.
  unfold peekFunctionTermAt in Hterm. cbv zeta in Hterm.
  cbn [existsb] in Hit1, Hit2, Hit3. unfold checkAt, isAtEndAt in Hit1, Hit2, Hit3.
  destruct (type (peekAt c)); discriminate.
Qed.

Lemma grouping_step fuel :
  terminating fuel ->
  forall c,
    fuelGrouping (remaining c) <= S fuel ->
    returns c (grouping operators (S fuel) c)
    /\ (peekFunctionTermAt c = true -> consumes c (grouping operators (S fuel) c)).
Proof.
  intros IH c Hfuel. unfold fuelGrouping in Hfuel.
  cbn [grouping]. rewrite match_bind. cbv zeta.
  pose proof (proj2 (match_spec [TokenType.LeftParen] c)) as E1. cbv zeta in E1.
  destruct (existsb _ [TokenType.LeftParen]) eqn:Hit1.
  - destruct (next_remaining c (E1 eq_refl)) as [Ht Hr].
    match goal with
    | |- returns c ?r /\ _ => assert (Hrest : returns (next c) r)
    end.
    { unfold previous, peek.
      repeat first
        [ returns_step
        | apply (expression_returns _ IH); unfold fuelExpression; lia ]. }
    split; [|intros _].
    + apply consumes_returns. eapply consumes_after; eassumption.
    + eapply consumes_after; eassumption.
  - assert (Hft : fuelFunctionTerm (remaining c) <= fuel)
      by (unfold fuelFunctionTerm; lia).
    destruct (functionTerm_returns _ IH c Hft) as [Hret Hcons].
    split; [exact Hret|]. intros Hterm. apply Hcons; [exact Hterm|].
    cbn [existsb] in Hit1. unfold checkAt, isAtEndAt in Hit1.
    destruct (type (peekAt c)); try discriminate; reflexivity.
Qed.

Lemma listLoop_step fuel :
  terminating fuel ->
  forall items c,
    fuelListLoop (remaining c) items <= S fuel ->
    returns c (listLoop operators (S fuel) items c).
Proof.
  intros IH items c Hfuel. unfold fuelListLoop in Hfuel.
  cbn [listLoop].
  destruct (match_spec [TokenType.RightBracket] c) as [H1 E1].
  unfold bind at 1. rewrite H1.
  destruct (existsb _ [TokenType.RightBracket]) eqn:Hit1.
  { destruct (next_remaining c (E1 eq_refl)) as [Ht Hr].
    unfold ret, returns, within. split; [exact Ht|apply Nat.lt_le_incl, Hr]. }
  unfold bind at 1, isAtEnd.
  destruct (isAtEndAt c) eqn:Hend; [exact I|].
  destruct items as [|item0 items].
  - cbn [length Nat.ltb Nat.leb]. unfold bind at 1, ret.
    apply returns_bind.
    + apply (expression_returns _ IH). unfold fuelExpression. lia.
    + intros item c1 _ [_ Hr1]. apply (listLoop_returns _ IH).
      unfold fuelListLoop. cbn [app]. lia.
  - cbn [length Nat.ltb Nat.leb]. unfold bind at 1 2.
    destruct (consume_spec TokenType.Comma "Expect ',' after list items" c)
      as [[e ->]|(tok & -> & _)]; [exact I|].
    destruct (next_remaining c Hend) as [Ht Hr]. unfold ret.
    apply returns_within with (c1 := next c); [split; [exact Ht|lia]|].
    apply returns_bind.
    + apply (expression_returns _ IH). unfold fuelExpression. lia.
    + intros item c1 _ [_ Hr1]. apply (listLoop_returns _ IH).
      unfold fuelListLoop. cbn [app]. lia.
Qed.

(** With the fuel its bound asks for, every function of the grammar
    returns or throws. *)
Lemma grammar_terminates fuel : terminating fuel.
Proof.
  induction fuel as [|fuel IH].
  - split; intros; unfold fuelExpression, fuelExpressionLoop, fuelApplication,
      fuelApplicationLoop, fuelGrouping, fuelFunctionTerm, fuelListLoop in *;
      lia.
  - split.
    + apply expression_step, IH.
    + apply expressionLoop_step, IH.
    + apply application_step, IH.
    + apply applicationLoop_step, IH.
    + apply grouping_step, IH.
    + apply functionTerm_step, IH.
    + apply listLoop_step, IH.
Qed.

Lemma returns_variable varExp c : returns c (variable varExp c).
Proof. destruct varExp; first [exact I | apply within_refl]. Qed.

Lemma returns_parseFunlhs expr c : returns c (parseFunlhs expr c).
Proof.
  revert c. induction expr; intros c0; cbn [parseFunlhs];
    repeat first
      [ returns_step
      | apply returns_variable
      | match goal with
        | H : forall c, returns c (parseFunlhs _ c) |- _ => apply H
        end ].
Qed.

Lemma declaration_returns fuel c :
  fuelExpression (remaining c) <= fuel ->
  returns c (declaration operators fuel c).
Proof.
  intros H. unfold declaration, peek.
  repeat first
    [ returns_step
    | apply returns_parseFunlhs
    | apply (expression_returns _ (grammar_terminates fuel)); exact H ].
Qed.

(** A cursor that reached the end is not the cursor that was before it. *)
Lemma within_at_end c c1 :
  within c c1 -> isAtEndAt c = false -> isAtEndAt c1 = true ->
  remaining c1 < remaining c.
Proof.
  intros [Ht Hr] H H1. pose proof (not_at_end_remaining c H) as Hpos.
  destruct (Nat.eq_dec (remaining c1) (remaining c)) as [E|E]; [|lia].
  exfalso. unfold remaining in *. rewrite Ht in *.
  assert (Ec : current c1 = current c) by lia.
  unfold isAtEndAt, peekAt in *. rewrite Ht, Ec, H in H1. discriminate H1.
Qed.

(** A statement that is parsed from a cursor not at the end takes at
    least one token. *)
Lemma statement_returns fuel c :
  fuelExpression (remaining c) <= fuel ->
  isAtEndAt c = false ->
  consumes c (statement operators fuel c).
Proof.
  intros H Hend. pose proof (declaration_returns fuel c H) as Hd.
  unfold statement, bind at 1.
  destruct (declaration operators fuel c) as [stmt c1| e |];
    [|exact I|contradiction].
  cbn in Hd. unfold bind at 1, isAtEnd.
  destruct (isAtEndAt c1) eqn:E1.
  - unfold ret, consumes. split; [apply Hd|].
    apply within_at_end; assumption.
  - unfold bind.
    destruct (consume_spec TokenType.LineBreak
                "Expect new line after expression." c1)
      as [[e ->]|(tok & -> & _)]; [exact I|].
    destruct (next_remaining c1 E1) as [Ht Hr]. destruct Hd as [Ht1 Hr1].
    unfold ret, consumes. split; [congruence|lia].
Qed.

(** The fuel that is enough for the top-level loop. *)
Definition fuelParseLoop (r : nat) : nat := 8 * r + 7.

Lemma parseLoop_terminates fuel statements c :
  fuelParseLoop (remaining c) <= fuel ->
  parseLoop operators expressionBounds fuel statements c <> OutOfFuel.
Proof.
  unfold fuelParseLoop. revert statements c.
  induction fuel as [|fuel IH]; intros statements c Hfuel; [lia|].
  cbn [parseLoop]. destruct (isAtEndAt c) eqn:Hend; [discriminate|].
  destruct (next_remaining c Hend) as [Ht Hr].
  destruct (checkAt TokenType.LineBreak c).
  - unfold advance. rewrite Hend. fold (next c). apply IH. lia.
  - assert (Hs : fuelExpression (remaining c) <= fuel)
      by (unfold fuelExpression; lia).
    pose proof (statement_returns fuel c Hs Hend) as Hc.
    destruct (statement operators fuel c) as [stmt c1| e |];
      [|destruct e as [[tok|expr] message| |]; cbn; try discriminate;
        destruct (expressionBounds expr) as [[from to]|]; discriminate
       |contradiction].
    destruct Hc as [_ Hr1]. apply IH. lia.
Qed.

Lemma parse_enough_fuel toks :
  parse operators expressionBounds (fuelParseLoop (length toks)) toks
  <> OutOfFuel.
Proof.
  apply parseLoop_terminates. unfold remaining. cbn.
  unfold fuelParseLoop. lia.
Qed.

(** [parse] returns or lets an exception through on every token list:
    there is a run that it comes to, and that run is not out of fuel. *)
Lemma parse_terminates toks :
  exists run, parsesTo operators expressionBounds toks run /\ run <> OutOfFuel.
Proof.
  pose proof (parse_enough_fuel toks) as H.
  exists (parse operators expressionBounds (fuelParseLoop (length toks)) toks).
  split; [|exact H]. eapply parse_settles; [reflexivity|exact H].
Qed.

(** [parse] is total, with a bound that is linear in the input: on [n]
    tokens, [8 * n + 7] units of fuel are enough for the loop of [parse]
    and every call below it, and any fuel from there on gives the same
    run. *)
Theorem parse_completes_within_linear_fuel toks fuel :
  8 * length toks + 7 <= fuel ->
  parse operators expressionBounds fuel toks <> OutOfFuel
  /\ parsesTo operators expressionBounds toks
       (parse operators expressionBounds fuel toks).
Proof.
  intros Hfuel. pose proof (parse_enough_fuel toks) as H.
  assert (E : parse operators expressionBounds fuel toks
              = parse operators expressionBounds
                  (fuelParseLoop (length toks)) toks)
    by (apply parse_stable; [exact H|exact Hfuel]).
  rewrite E. split; [exact H|].
  eapply parse_settles; [reflexivity|exact H].
Qed.

End Termination.

(** ** One step of each function *)

Section Unfolding.
Variable operators : gmap string (Number.t * Associativity).

Lemma expressionLoop_unfold fuel precedence left c :
  expressionLoop operators (S fuel) precedence left c
  = (tok <- peek ;;
     if isType TokenType.Operator tok then
       match operators !! lexeme tok with
       | None => throw (ParseError (AtToken tok) (undefinedOperator tok))
       | Some (opPrecedence, opAssociativity) =>
           if Number.ltb opPrecedence precedence then ret left
           else
             next <- peekNext ;;
             if isType TokenType.RightParen next then ret left
             else
               operator <- advance ;;
               right <- expression operators fuel
                 (match opAssociativity with
                  | AssocLeft => Number.add opPrecedence Number.one
                  | AssocRight => opPrecedence
                  end) ;;
               let lNull := Expr.isEmpty left in
               let rNull := Expr.isEmpty right in
               if lNull || rNull
               then throw (ParseError (AtToken operator)
                             (missingExpression lNull rNull operator))
               else expressionLoop operators fuel precedence
                      (Expr.Binary left operator right opPrecedence)
       end
     else ret left) c.
Proof. reflexivity. Qed.

Lemma applicationLoop_unfold fuel expr c :
  applicationLoop operators (S fuel) expr c
  = (more <- peekFunctionTerm ;;
     if more : bool then
       right <- grouping operators fuel ;;
       applicationLoop operators fuel (Expr.Application expr right)
     else ret expr) c.
Proof. reflexivity. Qed.

Lemma grouping_unfold fuel c :
  grouping operators (S fuel) c
  = (opened <- match_ [TokenType.LeftParen] ;;
     if opened : bool then
       leftParen <- previous ;;
       tok <- peek ;;
       leftOp <- (if isType TokenType.Operator tok
                  then op <- advance ;; ret (Some op)
                  else ret None) ;;
       closed <- match_ [TokenType.RightParen] ;;
       if closed : bool then
         match leftOp with
         | Some op => ret (Expr.Var op)
         | None => throw (ThrownString
                     "Encountered unit literal, but unit isn't supported yet")
         end
       else
         expr <- expression operators fuel Number.zero ;;
         tok' <- peek ;;
         rightOp <- (if isType TokenType.Operator tok'
                     then op <- advance ;; ret (Some op)
                     else ret None) ;;
         rightParen <- consume TokenType.RightParen "Expect ')' after expression." ;;
         finishGrouping operators leftParen leftOp rightOp expr rightParen
     else functionTerm operators fuel) c.
Proof. reflexivity. Qed.

Lemma functionTerm_unfold fuel c :
  functionTerm operators (S fuel) c
  = (lit <- match_ [TokenType.Number; TokenType.String] ;;
     if lit : bool then
       tok <- previous ;;
       ret (Expr.Literal (literal tok) tok)
     else
       ident <- match_ [TokenType.Identifier] ;;
       if ident : bool then
         tok <- previous ;;
         ret (Expr.Var tok)
       else
         bracket <- match_ [TokenType.LeftBracket] ;;
         if bracket : bool then
           items <- listLoop operators fuel [] ;;
           ret (Expr.List items)
         else ret Expr.Empty) c.
Proof. reflexivity. Qed.

Lemma listLoop_unfold fuel items c :
  listLoop operators (S fuel) items c
  = (closed <- match_ [TokenType.RightBracket] ;;
     if closed : bool then ret items
     else
       atEnd <- isAtEnd ;;
       if atEnd : bool then
         tok <- peek ;;
         throw (ParseError (AtToken tok) "Unterminated list literal")
       else
         (if (0 <? length items)%nat
          then consume TokenType.Comma "Expect ',' after list items" ;;; ret tt
          else ret tt) ;;;
         item <- expression operators fuel Number.zero ;;
         listLoop operators fuel (items ++ [item])) c.
Proof. reflexivity. Qed.

End Unfolding.

#[local] Arguments expression : simpl never.
#[local] Arguments expressionLoop : simpl never.
#[local] Arguments application : simpl never.
#[local] Arguments applicationLoop : simpl never.
#[local] Arguments grouping : simpl never.
#[local] Arguments functionTerm : simpl never.
#[local] Arguments listLoop : simpl never.
#[local] Arguments parseLoop : simpl never.

Lemma isAtom_cases tok :
  isAtom tok = true ->
  type tok = TokenType.Identifier \/ type tok = TokenType.Number
  \/ type tok = TokenType.String.
Proof.
  unfold isAtom, isType. destruct (type tok); try discriminate; auto.
Qed.

(** Side conditions on a cursor into an explicit token list. *)
Ltac side :=
  unfold checkAt, isAtEndAt, peekFunctionTermAt, isType, peekAt,
    peekNextAt, next;
  cbn -[isAtom];
  repeat match goal with
         | H : type _ = _ |- _ => rewrite H
         end;
  first [ assumption
        | reflexivity
        | match goal with
          | H : isAtom ?x = true |- context [type ?x] =>
              let E := fresh in
              destruct (isAtom_cases x H) as [E|[E|E]]; rewrite E; reflexivity
          end
        | idtac ].

(** ** Infix expressions *)

Section Infix.
Variable operators : gmap string (Number.t * Associativity).
Variable expressionBounds : Expr.t -> option (nat * nat).
Variables a op1 b op2 c eof : Token.
Variables (p q : Number.t) (assoc1 assoc2 : Associativity).
Hypothesis atom_a : isAtom a = true.
Hypothesis atom_b : isAtom b = true.
Hypothesis atom_c : isAtom c = true.
Hypothesis operator_1 : type op1 = TokenType.Operator.
Hypothesis operator_2 : type op2 = TokenType.Operator.
Hypothesis eof_last : type eof = TokenType.EOF.
Hypothesis table_1 : operators !! lexeme op1 = Some (p, assoc1).
Hypothesis table_2 : operators !! lexeme op2 = Some (q, assoc2).

(** The program [a op1 b op2 c]. *)
Local Abbreviation infixTokens := [a; op1; b; op2; c; eof].

(** [a op1 (b op2 c)] *)
Definition nestRight : Expr.t :=
  Expr.Binary (atomExpr a) op1 (Expr.Binary (atomExpr b) op2 (atomExpr c) q) p.

(** [(a op1 b) op2 c] *)
Definition nestLeft : Expr.t :=
  Expr.Binary (Expr.Binary (atomExpr a) op1 (atomExpr b) p) op2 (atomExpr c) q.

(** The minimum precedence the right operand of [op1] is parsed at:
    [opPrecedence + 1] or [opPrecedence], as JavaScript computes it. *)
Definition rightOperandLevel : Number.t :=
  match assoc1 with AssocLeft => Number.add p Number.one | AssocRight => p end.

Lemma infix_expression_right k :
  Number.ltb p Number.zero = false -> Number.ltb q rightOperandLevel = false ->
  expression operators (20 + k) Number.zero (mkCursor infixTokens 0)
  = Ok nestRight (mkCursor infixTokens 5).
Proof.
  intros Hp Hq. cbn [Nat.add].
  rewrite expression_atom by side.
  rewrite (expressionLoop_take _ _ _ _ _ p assoc1) by (side; exact Hp).
  fold rightOperandLevel.
  rewrite expression_atom by side.
  rewrite (expressionLoop_take _ _ _ _ _ q assoc2) by (side; exact Hq).
  rewrite expression_atom by side.
  rewrite expressionLoop_stop by side.
  rewrite !atomExpr_not_empty. cbn [orb Expr.isEmpty].
  rewrite expressionLoop_stop by side.
  cbn [orb Expr.isEmpty].
  rewrite expressionLoop_stop by side.
  reflexivity.
Qed.

Lemma infix_expression_left k :
  Number.ltb p Number.zero = false -> Number.ltb q Number.zero = false ->
  Number.ltb q rightOperandLevel = true ->
  expression operators (20 + k) Number.zero (mkCursor infixTokens 0)
  = Ok nestLeft (mkCursor infixTokens 5).
Proof.
  intros Hp Hq Hlt. cbn [Nat.add].
  rewrite expression_atom by side.
  rewrite (expressionLoop_take _ _ _ _ _ p assoc1) by (side; exact Hp).
  fold rightOperandLevel.
  rewrite expression_atom by side.
  rewrite (expressionLoop_low _ _ _ _ _ q assoc2) by (side; exact Hlt).
  rewrite !atomExpr_not_empty. cbn [orb Expr.isEmpty].
  rewrite (expressionLoop_take _ _ _ _ _ q assoc2) by (side; exact Hq).
  rewrite expression_atom by side.
  rewrite expressionLoop_stop by side.
  rewrite !atomExpr_not_empty. cbn [orb Expr.isEmpty].
  rewrite expressionLoop_stop by side.
  reflexivity.
Qed.

(** [op2] is below both minimums: the expression ends before it. *)
Lemma infix_expression_stops k :
  Number.ltb p Number.zero = false -> Number.ltb q Number.zero = true ->
  Number.ltb q rightOperandLevel = true ->
  expression operators (20 + k) Number.zero (mkCursor infixTokens 0)
  = Ok (Expr.Binary (atomExpr a) op1 (atomExpr b) p) (mkCursor infixTokens 3).
Proof.
  intros Hp Hq Hlt. cbn [Nat.add].
  rewrite expression_atom by side.
  rewrite (expressionLoop_take _ _ _ _ _ p assoc1) by (side; exact Hp).
  fold rightOperandLevel.
  rewrite expression_atom by side.
  rewrite (expressionLoop_low _ _ _ _ _ q assoc2) by (side; exact Hlt).
  rewrite !atomExpr_not_empty. cbn [orb Expr.isEmpty].
  rewrite (expressionLoop_low _ _ _ _ _ q assoc2) by (side; exact Hq).
  reflexivity.
Qed.

(** [op1] is below the minimum of a statement: the expression is [a]. *)
Lemma infix_expression_first k :
  Number.ltb p Number.zero = true ->
  expression operators (20 + k) Number.zero (mkCursor infixTokens 0)
  = Ok (atomExpr a) (mkCursor infixTokens 1).
Proof.
  intros Hp. cbn [Nat.add].
  rewrite expression_atom by side.
  rewrite (expressionLoop_low _ _ _ _ _ p assoc1) by (side; exact Hp).
  reflexivity.
Qed.

Lemma infix_parse expr :
  (forall k, expression operators (20 + k) Number.zero (mkCursor infixTokens 0)
             = Ok expr (mkCursor infixTokens 5)) ->
  parsesTo operators expressionBounds infixTokens
    (Returned [Stmt.Expression expr] []).
Proof.
  intros H. apply (parsesTo_from _ _ _ _ 22). intros k.
  change (22 + k) with (S (S (20 + k))).
  apply parse_one_statement with (c' := mkCursor infixTokens 5); try solve [side].
  apply statement_expression; [|solve [side]].
  apply (H (S k)).
Qed.

(** A statement whose expression ends at an operator. *)
Lemma infix_stray expr last tok :
  infixTokens !! last = Some tok -> type tok = TokenType.Operator ->
  (forall k, expression operators (20 + k) Number.zero (mkCursor infixTokens 0)
             = Ok expr (mkCursor infixTokens last)) ->
  parsesTo operators expressionBounds infixTokens
    (Returned [] [ReportToken tok newLineExpected]).
Proof.
  intros Hlast Htok H. apply (parsesTo_from _ _ _ _ 21). intros k.
  change (21 + k) with (S (20 + k)).
  apply (parse_first_statement_throws _ _ _ _ (AtToken tok)); try solve [side].
  apply statement_stray with (expr := expr) (c' := mkCursor infixTokens last).
  - apply H.
  - unfold peekAt. cbn [tokens current]. rewrite Hlast. reflexivity.
  - exact Htok.
Qed.

Lemma infix_nests_right :
  Number.ltb p Number.zero = false -> Number.ltb q rightOperandLevel = false ->
  parsesTo operators expressionBounds infixTokens
    (Returned [Stmt.Expression nestRight] []).
Proof.
  intros Hp Hq. apply infix_parse. intros k.
  now apply infix_expression_right.
Qed.

Lemma infix_nests_left :
  Number.ltb p Number.zero = false -> Number.ltb q Number.zero = false ->
  Number.ltb q rightOperandLevel = true ->
  parsesTo operators expressionBounds infixTokens
    (Returned [Stmt.Expression nestLeft] []).
Proof.
  intros Hp Hq Hlt. apply infix_parse. intros k.
  now apply infix_expression_left.
Qed.

(** C1, as the code has it.  Precedences are JavaScript numbers, compared
    with [<] and incremented with [+ 1].  When the precedence of [op1] is
    not below 0, the minimum of a statement, [a op1 b op2 c] parses by the
    table: [op2] goes to the right operand of [op1], [a op1 (b op2 c)],
    exactly when its precedence is not below the minimum of that operand,
    the precedence of [op1] plus one for a left-associative [op1] and the
    precedence of [op1] for a right-associative one; otherwise it is
    [(a op1 b) op2 c] when the precedence of [op2] is not below 0, and a
    syntax error at [op2] when it is.  When the precedence of [op1] is
    below 0 the statement is a syntax error at [op1].  For integer
    precedences from 0 up, below [2 ^ 53] (where adding one is exact), this
    is the table's precedence and associativity: a higher [op2] nests to
    the right, a lower one to the left, and an equal one by the
    associativity of [op1]. *)
Theorem infix_precedence_and_associativity :
  (Number.ltb p Number.zero = false ->
   (Number.ltb q rightOperandLevel = false ->
    parsesTo operators expressionBounds infixTokens
      (Returned [Stmt.Expression nestRight] []))
   /\ (Number.ltb q rightOperandLevel = true -> Number.ltb q Number.zero = false ->
       parsesTo operators expressionBounds infixTokens
         (Returned [Stmt.Expression nestLeft] []))
   /\ (Number.ltb q rightOperandLevel = true -> Number.ltb q Number.zero = true ->
       parsesTo operators expressionBounds infixTokens
         (Returned [] [ReportToken op2 newLineExpected])))
  /\ (Number.ltb p Number.zero = true ->
      parsesTo operators expressionBounds infixTokens
        (Returned [] [ReportToken op1 newLineExpected]))
  /\ (forall x y : Z,
        p = Number.ofZ x -> q = Number.ofZ y ->
        (0 <= x < 2 ^ 53 - 1)%Z -> (0 <= y < 2 ^ 53)%Z ->
        ((x < y)%Z ->
         parsesTo operators expressionBounds infixTokens
           (Returned [Stmt.Expression nestRight] []))
        /\ ((y < x)%Z ->
            parsesTo operators expressionBounds infixTokens
              (Returned [Stmt.Expression nestLeft] []))
        /\ (y = x -> assoc1 = AssocLeft ->
            parsesTo operators expressionBounds infixTokens
              (Returned [Stmt.Expression nestLeft] []))
        /\ (y = x -> assoc1 = AssocRight ->
            parsesTo operators expressionBounds infixTokens
              (Returned [Stmt.Expression nestRight] []))).
Proof.
  split; [intros Hp; split; [|split]|split].
  - apply infix_nests_right. exact Hp.
  - intros Hlt Hq. now apply infix_nests_left.
  - intros Hlt Hq.
    apply (infix_stray (Expr.Binary (atomExpr a) op1 (atomExpr b) p) 3 op2);
      [reflexivity|exact operator_2|].
    intros k. now apply infix_expression_stops.
  - intros Hp. apply (infix_stray (atomExpr a) 1 op1);
      [reflexivity|exact operator_1|].
    intros k. now apply infix_expression_first.
  - intros x y Ex Ey Hx Hy.
    assert (Hp : Number.ltb p Number.zero = false).
    { rewrite Ex. unfold Number.zero. rewrite NumberFacts.ofZ_ltb by lia.
      apply Z.ltb_ge. lia. }
    assert (Hq : Number.ltb q Number.zero = false).
    { rewrite Ey. unfold Number.zero. rewrite NumberFacts.ofZ_ltb by lia.
      apply Z.ltb_ge. lia. }
    assert (Hlevel : Number.ltb q rightOperandLevel
                     = match assoc1 with
                       | AssocLeft => (y <? x + 1)%Z
                       | AssocRight => (y <? x)%Z
                       end).
    { unfold rightOperandLevel. rewrite Ex, Ey. destruct assoc1.
      - unfold Number.one. rewrite NumberFacts.ofZ_add by lia.
        apply NumberFacts.ofZ_ltb; lia.
      - apply NumberFacts.ofZ_ltb; lia. }
    split; [|split; [|split]].
    + intros Hlt. apply infix_nests_right; [exact Hp|].
      rewrite Hlevel. destruct assoc1; apply Z.ltb_ge; lia.
    + intros Hlt. apply infix_nests_left; [exact Hp|exact Hq|].
      rewrite Hlevel. destruct assoc1; apply Z.ltb_lt; lia.
    + intros -> Hassoc. apply infix_nests_left; [exact Hp|exact Hq|].
      rewrite Hlevel, Hassoc. apply Z.ltb_lt. lia.
    + intros -> Hassoc. apply infix_nests_right; [exact Hp|].
      rewrite Hlevel, Hassoc. apply Z.ltb_ge. lia.
Qed.

End Infix.

(** ** Sections *)

Section SectionGuard.
Variable operators : gmap string (Number.t * Associativity).
Variable expressionBounds : Expr.t -> option (nat * nat).
Variables lp op lp' a plus b rp' rp eof : Token.
Variables (po pp : Number.t) (assoc_o assoc_p : Associativity).
Hypothesis left_paren : type lp = TokenType.LeftParen.
Hypothesis left_paren' : type lp' = TokenType.LeftParen.
Hypothesis right_paren : type rp = TokenType.RightParen.
Hypothesis right_paren' : type rp' = TokenType.RightParen.
Hypothesis operator_o : type op = TokenType.Operator.
Hypothesis operator_p : type plus = TokenType.Operator.
Hypothesis atom_a : isAtom a = true.
Hypothesis atom_b : isAtom b = true.
Hypothesis eof_last : type eof = TokenType.EOF.
Hypothesis table_o : operators !! lexeme op = Some (po, assoc_o).
Hypothesis table_p : operators !! lexeme plus = Some (pp, assoc_p).
Hypothesis plus_level : Number.ltb pp Number.zero = false.

(** [(op a + b)]: the operand of the section is the binary expression. *)
Local Abbreviation bareTokens := [lp; op; a; plus; b; rp; eof].

(** [(a + b op)]: the same operand, the operator after it. *)
Local Abbreviation trailingTokens := [lp; a; plus; b; op; rp; eof].

(** [(op (a + b))]: the operand of the section is parenthesised. *)
Local Abbreviation wrappedTokens := [lp; op; lp'; a; plus; b; rp'; rp; eof].

Definition inner : Expr.t := Expr.Binary (atomExpr a) plus (atomExpr b) pp.

Definition bareSection : Expr.t :=
  Expr.Grouping lp (Expr.Section op inner SideLeft) rp.

Definition trailingSection : Expr.t :=
  Expr.Grouping lp (Expr.Section op inner SideRight) rp.

Definition wrappedSection : Expr.t :=
  Expr.Grouping lp (Expr.Section op (Expr.Grouping lp' inner rp') SideLeft) rp.

Definition guardMessage : string :=
  "Section operator must have lower precedence than expression".

Ltac inner_expression :=
  cbn [Nat.add];
  rewrite expression_atom by side;
  rewrite (expressionLoop_take _ _ _ _ _ pp assoc_p) by (side; exact plus_level);
  rewrite expression_atom by side;
  rewrite expressionLoop_stop by side;
  rewrite !atomExpr_not_empty; cbn [orb Expr.isEmpty];
  rewrite expressionLoop_stop by side;
  reflexivity.

Lemma bare_inner k :
  expression operators (20 + k) Number.zero (mkCursor bareTokens 2)
  = Ok inner (mkCursor bareTokens 5).
Proof. inner_expression. Qed.

Lemma wrapped_inner k :
  expression operators (20 + k) Number.zero (mkCursor wrappedTokens 3)
  = Ok inner (mkCursor wrappedTokens 6).
Proof. inner_expression. Qed.

Lemma bare_grouping k :
  grouping operators (S (20 + k)) (mkCursor bareTokens 0)
  = if Number.ltb pp po
    then Throw (ParseError (AtToken op) guardMessage)
    else Ok bareSection (mkCursor bareTokens 6).
Proof.
  rewrite (grouping_left_section _ _ _ inner (mkCursor bareTokens 5)).
  - apply (finishGrouping_left_binary _ _ _ _ _ _ _ _ _ po assoc_o). exact table_o.
  - side.
  - side.
  - side.
  - apply bare_inner.
  - side.
Qed.

Lemma trailing_inner k :
  expression operators (20 + k) Number.zero (mkCursor trailingTokens 1)
  = Ok inner (mkCursor trailingTokens 4).
Proof.
  cbn [Nat.add].
  rewrite expression_atom by side.
  rewrite (expressionLoop_take _ _ _ _ _ pp assoc_p) by (side; exact plus_level).
  rewrite expression_atom by side.
  rewrite (expressionLoop_section _ _ _ _ _ po assoc_o) by side.
  rewrite !atomExpr_not_empty. cbn [orb Expr.isEmpty].
  rewrite (expressionLoop_section _ _ _ _ _ po assoc_o) by side.
  reflexivity.
Qed.

Lemma trailing_grouping k :
  grouping operators (S (20 + k)) (mkCursor trailingTokens 0)
  = if Number.ltb pp po
    then Throw (ParseError (AtToken op) guardMessage)
    else Ok trailingSection (mkCursor trailingTokens 6).
Proof.
  rewrite (grouping_right_section _ _ _ inner (mkCursor trailingTokens 4)).
  - apply (finishGrouping_right_binary _ _ _ _ _ _ _ _ _ po assoc_o). exact table_o.
  - side.
  - side.
  - side.
  - apply trailing_inner.
  - side.
  - side.
Qed.

Lemma wrapped_operand k :
  expression operators (S (S (S (20 + k)))) Number.zero (mkCursor wrappedTokens 2)
  = Ok (Expr.Grouping lp' inner rp') (mkCursor wrappedTokens 7).
Proof.
  rewrite (expression_via_grouping _ _ _ _ (Expr.Grouping lp' inner rp')
             (mkCursor wrappedTokens 7)).
  - rewrite expressionLoop_stop by side. reflexivity.
  - rewrite (grouping_plain _ _ _ inner (mkCursor wrappedTokens 6)).
    + reflexivity.
    + side.
    + side.
    + side.
    + apply wrapped_inner.
    + side.
  - side.
Qed.

Lemma wrapped_grouping k :
  grouping operators (S (S (S (S (20 + k))))) (mkCursor wrappedTokens 0)
  = Ok wrappedSection (mkCursor wrappedTokens 8).
Proof.
  rewrite (grouping_left_section _ _ _ (Expr.Grouping lp' inner rp')
             (mkCursor wrappedTokens 7)).
  - apply (finishGrouping_left_grouping _ _ _ _ _ _ _ _ po assoc_o). exact table_o.
  - side.
  - side.
  - side.
  - apply wrapped_operand.
  - side.
Qed.

(** A program that is one parenthesised expression. *)
Lemma parse_grouping toks fuel expr last :
  type (peekAt (mkCursor toks 0)) = TokenType.LeftParen ->
  grouping operators (S fuel) (mkCursor toks 0) = Ok expr (mkCursor toks last) ->
  type (peekAt (mkCursor toks last)) = TokenType.EOF ->
  parse operators expressionBounds (S (S (S (S fuel)))) toks
  = Returned [Stmt.Expression expr] [].
Proof.
  intros Hopen Hg Hend.
  apply parse_one_statement with (c' := mkCursor toks last).
  - unfold isAtEndAt. rewrite Hopen. reflexivity.
  - unfold checkAt, isAtEndAt. rewrite Hopen. reflexivity.
  - apply statement_expression.
    + rewrite (expression_via_grouping _ _ _ _ expr (mkCursor toks last)).
      * apply expressionLoop_stop. unfold isType. rewrite Hend. reflexivity.
      * exact Hg.
      * unfold peekFunctionTermAt. rewrite Hend. reflexivity.
    + unfold isAtEndAt. rewrite Hend. reflexivity.
  - unfold isAtEndAt. rewrite Hend. reflexivity.
Qed.

Lemma guard_rejects toks k :
  type (peekAt (mkCursor toks 0)) = TokenType.LeftParen ->
  grouping operators (S (20 + k)) (mkCursor toks 0)
  = Throw (ParseError (AtToken op) guardMessage) ->
  parse operators expressionBounds (24 + k) toks
  = Returned [] [ReportToken op guardMessage].
Proof.
  intros Hopen Hg. change (24 + k) with (S (S (S (S (20 + k))))).
  apply (parse_first_statement_throws _ _ _ _ (AtToken op)).
  - unfold isAtEndAt. rewrite Hopen. reflexivity.
  - unfold checkAt, isAtEndAt. rewrite Hopen. reflexivity.
  - apply statement_throws, expression_grouping_throws. exact Hg.
Qed.

(** C4, as the code has it. The guard looks at the operand of the section
    as it was parsed, on either side.  [(op a + b)] and [(a + b op)], whose
    operand is the binary expression itself, are rejected when the
    precedence cached in that expression is below the one the table gives
    [op], and accepted otherwise.  [(op (a + b))], whose operand is a
    parenthesised expression, is accepted whatever the two precedences
    are. *)
Theorem section_precedence_guard :
  (Number.ltb pp po = true ->
   parsesTo operators expressionBounds bareTokens
     (Returned [] [ReportToken op guardMessage])
   /\ parsesTo operators expressionBounds trailingTokens
        (Returned [] [ReportToken op guardMessage]))
  /\ (Number.ltb pp po = false ->
      parsesTo operators expressionBounds bareTokens
        (Returned [Stmt.Expression bareSection] [])
      /\ parsesTo operators expressionBounds trailingTokens
           (Returned [Stmt.Expression trailingSection] []))
  /\ parsesTo operators expressionBounds wrappedTokens
       (Returned [Stmt.Expression wrappedSection] []).
Proof.
  split; [|split].
  - intros Hlt. split; apply (parsesTo_from _ _ _ _ 24); intros k;
      apply guard_rejects; try solve [side].
    + rewrite bare_grouping, Hlt. reflexivity.
    + rewrite trailing_grouping, Hlt. reflexivity.
  - intros Hle. split; apply (parsesTo_from _ _ _ _ 24); intros k;
      change (24 + k) with (S (S (S (S (20 + k))))).
    + apply parse_grouping with (last := 6).
      * side.
      * rewrite bare_grouping, Hle. reflexivity.
      * side.
    + apply parse_grouping with (last := 6).
      * side.
      * rewrite trailing_grouping, Hle. reflexivity.
      * side.
  - apply (parsesTo_from _ _ _ _ 27). intros k.
    change (27 + k) with (S (S (S (S (S (S (S (20 + k)))))))).
    apply parse_grouping with (last := 8).
    + side.
    + apply wrapped_grouping.
    + side.
Qed.

End SectionGuard.

(** ** Juxtaposition and missing operands *)

Section Operands.
Variable operators : gmap string (Number.t * Associativity).
Variable expressionBounds : Expr.t -> option (nat * nat).
Variables f x y op eof : Token.
Variables (p : Number.t) (assoc : Associativity).
Hypothesis atom_f : isAtom f = true.
Hypothesis atom_x : isAtom x = true.
Hypothesis atom_y : isAtom y = true.
Hypothesis operator_op : type op = TokenType.Operator.
Hypothesis eof_last : type eof = TokenType.EOF.
Hypothesis table_op : operators !! lexeme op = Some (p, assoc).
Hypothesis level : Number.ltb p Number.zero = false.

(** Terms side by side nest to the left: [f x y] is [(f x) y]. *)
Theorem juxtaposition_nests_left :
  parsesTo operators expressionBounds [f; x; y; eof]
    (Returned
       [Stmt.Expression
          (Expr.Application (Expr.Application (atomExpr f) (atomExpr x)) (atomExpr y))]
       []).
Proof.
  apply (parsesTo_from _ _ _ _ 14). intros k.
  change (14 + k) with (S (S (12 + k))).
  apply parse_one_statement with (c' := mkCursor [f; x; y; eof] 3).
  - side.
  - side.
  - apply statement_expression; [|side].
    cbn [Nat.add].
    rewrite expression_unfold. unfold bind at 1.
    rewrite application_unfold. unfold bind at 1.
    rewrite grouping_atom by side.
    rewrite (applicationLoop_take _ _ _ _ (atomExpr x) (mkCursor [f; x; y; eof] 2));
      [|side|apply grouping_atom; side].
    rewrite (applicationLoop_take _ _ _ _ (atomExpr y) (mkCursor [f; x; y; eof] 3));
      [|side|apply grouping_atom; side].
    rewrite applicationLoop_stop by side.
    apply expressionLoop_stop. side.
  - side.
Qed.


End Operands.

(** ** The error policy of [parse] *)

Section Policy.
Variable operators : gmap string (Number.t * Associativity).
Variable expressionBounds : Expr.t -> option (nat * nat).

Lemma statement_left_side fuel c expr c' e :
  expression operators fuel Number.zero c = Ok expr c' ->
  type (peekAt c') = TokenType.Equal ->
  parseFunlhs expr c' = Throw e ->
  statement operators fuel c = Throw e.
Proof.
  intros He Heq Hl. unfold statement, declaration, bind. rewrite He.
  unfold peek, isType. rewrite Heq. cbn. rewrite Hl. reflexivity.
Qed.

Lemma empty_list_left_side lb rb eq rest k :
  type lb = TokenType.LeftBracket -> type rb = TokenType.RightBracket ->
  type eq = TokenType.Equal ->
  statement operators (S (S (S (S (S k))))) (mkCursor (lb :: rb :: eq :: rest) 0)
  = Throw (ParseError (AtExpr (Expr.List [])) expectedVariable).
Proof.
  intros Hlb Hrb Heq.
  apply statement_left_side with (expr := Expr.List [])
    (c' := mkCursor (lb :: rb :: eq :: rest) 2).
  - rewrite (expression_via_grouping _ _ _ _ (Expr.List [])
               (mkCursor (lb :: rb :: eq :: rest) 2)).
    + apply expressionLoop_stop. side.
    + rewrite grouping_unfold.
      unfold bind, match_, checkAt, isAtEndAt, peekAt.
      repeat (progress (cbn; rewrite ?Hlb, ?Hrb; unfold isAtEndAt, peekAt)).
      rewrite functionTerm_unfold.
      unfold bind, match_, checkAt, isAtEndAt, peekAt.
      repeat (progress (cbn; rewrite ?Hlb, ?Hrb; unfold isAtEndAt, peekAt)).
      rewrite listLoop_unfold.
      unfold bind, match_, checkAt, isAtEndAt, peekAt.
      repeat (progress (cbn; rewrite ?Hlb, ?Hrb; unfold isAtEndAt, peekAt)).
      reflexivity.
    + side.
  - side.
  - reflexivity.
Qed.

(** C6, as the code has it.  Every [ParseError] carries a token, except the
    one of a binding's left-hand side, which carries the expression that is
    no variable.  The loop of [parse] stops at the first [ParseError], with
    the statements it had parsed: an error at a token, or at an expression
    [expressionBounds] resolves a span for, is reported to the sink, once;
    an expression that holds no token ([Empty], in [= code], and the empty
    list, in [[ ] = code]) is handed to [expressionBounds] all the same,
    and what the sink receives then is up to that function.  On every
    token list [parse] comes to a run, and no run reports more than once.
    The unit literal and the
    type annotation are no [ParseError]: the first is thrown as a bare
    string and the second as a plain error, they carry no token, [parse]
    does not catch them and the sink receives nothing; they are the only
    exceptions of the parser that leave [parse]. *)
Theorem syntax_error_policy :
  (forall fuel statements c source message,
     isAtEndAt c = false ->
     checkAt TokenType.LineBreak c = false ->
     statement operators fuel c = Throw (ParseError source message) ->
     parseLoop operators expressionBounds (S fuel) statements c
     = report expressionBounds statements source message
     /\ match source with
        | AtToken token =>
            report expressionBounds statements source message
            = Returned statements [ReportToken token message]
        | AtExpr expr =>
            message = expectedVariable
            /\ (forall name, expr <> Expr.Var name)
            /\ forall from to,
                 expressionBounds expr = Some (from, to) ->
                 report expressionBounds statements source message
                 = Returned statements [ReportSpan from to message]
        end)
  /\ (forall toks,
        exists run,
          parsesTo operators expressionBounds toks run
          /\ match run with
             | Returned _ reports => length reports <= 1
             | Propagated e => e = unitLiteral \/ e = typeAnnotation
             | NoSpan _ expr message =>
                 message = expectedVariable
                 /\ expressionBounds expr = None
                 /\ forall name, expr <> Expr.Var name
             | OutOfFuel => False
             end)
  /\ (forall lp rp rest,
        type lp = TokenType.LeftParen -> type rp = TokenType.RightParen ->
        parsesTo operators expressionBounds (lp :: rp :: rest)
          (Propagated unitLiteral))
  /\ (forall a colons rest,
        isAtom a = true -> type colons = TokenType.ColonColon ->
        parsesTo operators expressionBounds (a :: colons :: rest)
          (Propagated typeAnnotation))
  /\ (forall eq rest,
        type eq = TokenType.Equal ->
        parsesTo operators expressionBounds (eq :: rest)
          (report expressionBounds [] (AtExpr Expr.Empty) expectedVariable))
  /\ (forall lb rb eq rest,
        type lb = TokenType.LeftBracket -> type rb = TokenType.RightBracket ->
        type eq = TokenType.Equal ->
        parsesTo operators expressionBounds (lb :: rb :: eq :: rest)
          (report expressionBounds [] (AtExpr (Expr.List [])) expectedVariable)).
Proof.
  split; [|split; [|split; [|split; [|split]]]].
  - intros fuel statements c source message H0 H1 Hs. split.
    + rewrite parseLoop_unfold, H0, H1, Hs. reflexivity.
    + pose proof (statement_throwsOnly operators fuel c) as Hp.
      rewrite Hs in Hp. destruct source as [token|expr]; [reflexivity|].
      destruct Hp as [Hm Hv]. split; [exact Hm|]. split; [exact Hv|].
      intros from to E. cbn. rewrite E. reflexivity.
  - intros toks.
    destruct (parse_terminates operators expressionBounds toks)
      as (run & Hrun & Hfuel).
    exists run. split; [exact Hrun|]. destruct Hrun as [n Hn].
    pose proof (parseLoop_policy operators expressionBounds n []
                  (mkCursor toks 0)) as Hp.
    fold (parse operators expressionBounds n toks) in Hp.
    rewrite (Hn n (le_n n)) in Hp.
    destruct run; [exact Hp|exact Hp|exact Hp|contradiction Hfuel; reflexivity].
  - intros lp rp rest Hlp Hrp. apply (parsesTo_from _ _ _ _ 4). intros k.
    change (4 + k) with (S (S (S (S k)))).
    apply parse_first_statement_propagates.
    + side.
    + side.
    + apply statement_throws, expression_grouping_throws, grouping_unit; side.
    + discriminate.
  - intros a colons rest Ha Hcc. apply (parsesTo_from _ _ _ _ 5). intros k.
    change (5 + k) with (S (S (S (S (S k))))).
    apply parse_first_statement_propagates.
    + side.
    + side.
    + apply statement_type_annotation with (expr := atomExpr a)
        (c' := mkCursor (a :: colons :: rest) 1).
      * rewrite expression_atom by side. apply expressionLoop_stop. side.
      * side.
    + discriminate.
  - intros eq rest Heq. apply (parsesTo_from _ _ _ _ 6). intros k.
    change (6 + k) with (S (S (S (S (S (S k)))))).
    apply (parse_first_statement_throws _ _ _ _ (AtExpr Expr.Empty)).
    + side.
    + side.
    + apply statement_left_side with (expr := Expr.Empty)
        (c' := mkCursor (eq :: rest) 0).
      * rewrite (expression_via_grouping _ _ _ _ Expr.Empty (mkCursor (eq :: rest) 0));
          [|apply grouping_empty; side|side].
        apply expressionLoop_stop. side.
      * side.
      * reflexivity.
  - intros lb rb eq rest Hlb Hrb Heq. apply (parsesTo_from _ _ _ _ 6). intros k.
    change (6 + k) with (S (S (S (S (S (S k)))))).
    apply (parse_first_statement_throws _ _ _ _ (AtExpr (Expr.List []))).
    + side.
    + side.
    + apply empty_list_left_side; assumption.
Qed.

End Policy.

(** ** The tokens ahead *)

Section Ahead.

(** The tokens from the lookahead on. *)
Definition ahead (c : Cursor) : list Token := drop (current c) (tokens c).

(** The cursor [n] tokens further. *)
Definition skip (n : nat) (c : Cursor) : Cursor :=
  mkCursor (tokens c) (current c + n).

Lemma peekAt_ahead c : peekAt c = default eofToken (head (ahead c)).
Proof.
  unfold peekAt, ahead. rewrite head_lookup, lookup_drop, Nat.add_0_r. reflexivity.
Qed.

Lemma peekNextAt_ahead c : peekNextAt c = default eofToken (ahead c !! 1).
Proof.
  unfold peekNextAt, ahead. rewrite lookup_drop, Nat.add_1_r. reflexivity.
Qed.

Lemma ahead_next c : ahead (next c) = drop 1 (ahead c).
Proof.
  unfold ahead, next. cbn [tokens current]. rewrite drop_drop, Nat.add_1_r.
  reflexivity.
Qed.

Lemma ahead_skip n c : ahead (skip n c) = drop n (ahead c).
Proof. unfold ahead, skip. cbn [tokens current]. rewrite drop_drop. reflexivity. Qed.

Lemma skip_next n c : skip n (next c) = skip (S n) c.
Proof. unfold skip, next. cbn [tokens current]. f_equal. lia. Qed.

Lemma skip_0 c : skip 0 c = c.
Proof. destruct c. unfold skip. cbn. f_equal. lia. Qed.

Lemma skip_1 c : skip 1 c = next c.
Proof. unfold skip, next. f_equal. lia. Qed.

Lemma skip_skip n m c : skip n (skip m c) = skip (m + n) c.
Proof. unfold skip. cbn [tokens current]. f_equal. lia. Qed.

Lemma ahead_start toks : ahead (mkCursor toks 0) = toks.
Proof. reflexivity. Qed.

Lemma peekAt_cons c x rest : ahead c = x :: rest -> peekAt c = x.
Proof. intros H. rewrite peekAt_ahead, H. reflexivity. Qed.

Lemma peekAt_nil c : ahead c = [] -> peekAt c = eofToken.
Proof. intros H. rewrite peekAt_ahead, H. reflexivity. Qed.

Lemma ahead_next_cons c x rest : ahead c = x :: rest -> ahead (next c) = rest.
Proof. intros H. rewrite ahead_next, H. reflexivity. Qed.

Lemma peekNextAt_cons c x rest :
  ahead c = x :: rest -> peekNextAt c = default eofToken (head rest).
Proof. intros H. rewrite peekNextAt_ahead, H. destruct rest; reflexivity. Qed.

Lemma ahead_skip_app c pre rest :
  ahead c = pre ++ rest -> ahead (skip (length pre) c) = rest.
Proof. intros H. rewrite ahead_skip, H, drop_app_length. reflexivity. Qed.

End Ahead.

(** ** Results that no longer depend on the fuel *)

Section ComesTo.
Variable operators : gmap string (Number.t * Associativity).
Variable expressionBounds : Expr.t -> option (nat * nat).

(** [run] gives [r] for every fuel from some fuel on. *)
Definition comesTo {A} (run : nat -> A) (r : A) : Prop :=
  exists n, forall fuel, n <= fuel -> run fuel = r.

Lemma comesTo_const {A} (r : A) : comesTo (fun _ => r) r.
Proof. exists 0. reflexivity. Qed.

Lemma comesTo_step {A} (run run' : nat -> A) r :
  (forall fuel, run' (S fuel) = run fuel) -> comesTo run r -> comesTo run' r.
Proof.
  intros Hstep [n Hn]. exists (S n). intros fuel Hfuel.
  destruct fuel as [|fuel]; [lia|]. rewrite Hstep. apply Hn. lia.
Qed.

Lemma comesTo_ext {A} (run run' : nat -> A) r :
  (forall fuel, run' fuel = run fuel) -> comesTo run r -> comesTo run' r.
Proof. intros Hext [n Hn]. exists n. intros fuel Hfuel. rewrite Hext. auto. Qed.

Lemma comesTo_unique {A} (run : nat -> A) r r' :
  comesTo run r -> comesTo run r' -> r = r'.
Proof.
  intros [n Hn] [n' Hn'].
  rewrite <- (Hn (n `max` n')), <- (Hn' (n `max` n')) by lia. reflexivity.
Qed.

Lemma comesTo_bind {A B} (m : nat -> P A) (k : nat -> A -> P B) c a c1 r :
  comesTo (fun fuel => m fuel c) (Ok a c1) ->
  comesTo (fun fuel => k fuel a c1) r ->
  comesTo (fun fuel => bind (m fuel) (k fuel) c) r.
Proof.
  intros [n1 H1] [n2 H2]. exists (n1 `max` n2). intros fuel Hfuel.
  unfold bind. rewrite H1 by lia. apply H2. lia.
Qed.

Lemma comesTo_bind_throw {A B} (m : nat -> P A) (k : nat -> A -> P B) c e :
  comesTo (fun fuel => m fuel c) (Throw e) ->
  comesTo (fun fuel => bind (m fuel) (k fuel) c) (Throw e).
Proof.
  intros [n1 H1]. exists n1. intros fuel Hfuel.
  unfold bind. rewrite H1 by lia. reflexivity.
Qed.

(** *** The grammar, one production at a time *)

Abbreviation expression_at precedence c :=
  (fun fuel => expression operators fuel precedence c).
Abbreviation expressionLoop_at precedence left c :=
  (fun fuel => expressionLoop operators fuel precedence left c).
Abbreviation application_at c := (fun fuel => application operators fuel c).
Abbreviation applicationLoop_at expr c :=
  (fun fuel => applicationLoop operators fuel expr c).
Abbreviation grouping_at c := (fun fuel => grouping operators fuel c).
Abbreviation listLoop_at items c := (fun fuel => listLoop operators fuel items c).
Abbreviation statement_at c := (fun fuel => statement operators fuel c).
Abbreviation parseLoop_at statements c :=
  (fun fuel => parseLoop operators expressionBounds fuel statements c).

Lemma expression_comesTo precedence c left c1 r :
  comesTo (application_at c) (Ok left c1) ->
  comesTo (expressionLoop_at precedence left c1) r ->
  comesTo (expression_at precedence c) r.
Proof.
  intros H1 H2. eapply comesTo_step; [intros; apply expression_unfold|].
  exact (comesTo_bind (application operators)
           (fun fuel => expressionLoop operators fuel precedence) c left c1 r H1 H2).
Qed.

Lemma expression_comesTo_throw precedence c e :
  comesTo (application_at c) (Throw e) ->
  comesTo (expression_at precedence c) (Throw e).
Proof.
  intros H1. eapply comesTo_step; [intros; apply expression_unfold|].
  exact (comesTo_bind_throw (application operators)
           (fun fuel => expressionLoop operators fuel precedence) c e H1).
Qed.

Lemma application_comesTo c expr c1 r :
  comesTo (grouping_at c) (Ok expr c1) ->
  comesTo (applicationLoop_at expr c1) r ->
  comesTo (application_at c) r.
Proof.
  intros H1 H2. eapply comesTo_step; [intros; apply application_unfold|].
  exact (comesTo_bind (grouping operators) (applicationLoop operators) c expr c1 r
           H1 H2).
Qed.

Lemma application_comesTo_throw c e :
  comesTo (grouping_at c) (Throw e) ->
  comesTo (application_at c) (Throw e).
Proof.
  intros H1. eapply comesTo_step; [intros; apply application_unfold|].
  exact (comesTo_bind_throw (grouping operators) (applicationLoop operators) c e H1).
Qed.

Lemma applicationLoop_comesTo_stop expr c :
  peekFunctionTermAt c = false ->
  comesTo (applicationLoop_at expr c) (Ok expr c).
Proof.
  intros H. exists 1. intros fuel Hfuel. destruct fuel as [|fuel]; [lia|].
  apply applicationLoop_stop. exact H.
Qed.

Lemma applicationLoop_comesTo_take expr c arg c1 r :
  peekFunctionTermAt c = true ->
  comesTo (grouping_at c) (Ok arg c1) ->
  comesTo (applicationLoop_at (Expr.Application expr arg) c1) r ->
  comesTo (applicationLoop_at expr c) r.
Proof.
  intros Hterm [n1 H1] [n2 H2]. exists (S (n1 `max` n2)). intros fuel Hfuel.
  destruct fuel as [|fuel]; [lia|].
  rewrite (applicationLoop_take _ _ _ _ arg c1) by (first [exact Hterm | apply H1; lia]).
  apply H2. lia.
Qed.

Lemma applicationLoop_comesTo_throw expr c e :
  peekFunctionTermAt c = true ->
  comesTo (grouping_at c) (Throw e) ->
  comesTo (applicationLoop_at expr c) (Throw e).
Proof.
  intros Hterm [n1 H1]. exists (S n1). intros fuel Hfuel.
  destruct fuel as [|fuel]; [lia|].
  rewrite applicationLoop_unfold. unfold bind at 1, peekFunctionTerm.
  rewrite Hterm. unfold bind. rewrite H1 by lia. reflexivity.
Qed.

Lemma expressionLoop_comesTo_stop precedence left c :
  isType TokenType.Operator (peekAt c) = false ->
  comesTo (expressionLoop_at precedence left c) (Ok left c).
Proof.
  intros H. exists 1. intros fuel Hfuel. destruct fuel as [|fuel]; [lia|].
  apply expressionLoop_stop. exact H.
Qed.


Lemma expressionLoop_comesTo_section precedence left c q assoc :
  isType TokenType.Operator (peekAt c) = true ->
  operators !! lexeme (peekAt c) = Some (q, assoc) ->
  isType TokenType.RightParen (peekNextAt c) = true ->
  comesTo (expressionLoop_at precedence left c) (Ok left c).
Proof.
  intros H Hop Hn. exists 1. intros fuel Hfuel. destruct fuel as [|fuel]; [lia|].
  rewrite expressionLoop_unfold. unfold bind, peek, peekNext, ret.
  rewrite H, Hop. destruct (Number.ltb q precedence); [reflexivity|].
  cbv beta iota. rewrite Hn. reflexivity.
Qed.

Lemma expressionLoop_comesTo_take precedence left c q assoc rhs c1 r :
  isType TokenType.Operator (peekAt c) = true ->
  operators !! lexeme (peekAt c) = Some (q, assoc) ->
  Number.ltb q precedence = false ->
  isType TokenType.RightParen (peekNextAt c) = false ->
  comesTo (expression_at
             (match assoc with AssocLeft => Number.add q Number.one | AssocRight => q end) (next c))
    (Ok rhs c1) ->
  Expr.isEmpty left = false -> Expr.isEmpty rhs = false ->
  comesTo (expressionLoop_at precedence (Expr.Binary left (peekAt c) rhs q) c1) r ->
  comesTo (expressionLoop_at precedence left c) r.
Proof.
  intros H Hop Hle Hn [n1 H1] Hl Hr [n2 H2]. exists (S (n1 `max` n2)).
  intros fuel Hfuel. destruct fuel as [|fuel]; [lia|].
  rewrite (expressionLoop_take _ _ _ _ _ q assoc) by assumption.
  rewrite H1 by lia. rewrite Hl, Hr. apply H2. lia.
Qed.

Lemma grouping_comesTo_atom c :
  isAtom (peekAt c) = true ->
  comesTo (grouping_at c) (Ok (atomExpr (peekAt c)) (next c)).
Proof.
  intros H. exists 2. intros fuel Hfuel.
  destruct fuel as [|[|fuel]]; try lia. apply grouping_atom. exact H.
Qed.

Lemma grouping_comesTo_empty c :
  TokenType.eqb (type (peekAt c)) TokenType.LeftParen = false ->
  peekFunctionTermAt c = false ->
  comesTo (grouping_at c) (Ok Expr.Empty c).
Proof.
  intros H1 H2. exists 2. intros fuel Hfuel.
  destruct fuel as [|[|fuel]]; try lia. apply grouping_empty; assumption.
Qed.

End ComesTo.

(** ** The helpers of the base parser at a cursor *)

Section Helpers.

Lemma bind_peek {A} (k : Token -> P A) c : bind peek k c = k (peekAt c) c.
Proof. reflexivity. Qed.

Lemma bind_previous {A} (k : Token -> P A) c :
  bind previous k c = k (previousAt c) c.
Proof. reflexivity. Qed.

Lemma bind_isAtEnd {A} (k : bool -> P A) c : bind isAtEnd k c = k (isAtEndAt c) c.
Proof. reflexivity. Qed.

Lemma bind_ret {A B} (a : A) (k : A -> P B) c : bind (ret a) k c = k a c.
Proof. reflexivity. Qed.

Lemma bind_advance {A} (k : Token -> P A) c :
  isAtEndAt c = false -> bind advance k c = k (peekAt c) (next c).
Proof. intros H. unfold bind, advance. rewrite H. reflexivity. Qed.

Lemma checkAt_true ty c : checkAt ty c = true -> isAtEndAt c = false.
Proof. unfold checkAt. destruct (isAtEndAt c); [discriminate|reflexivity]. Qed.

Lemma bind_consume {A} ty message (k : Token -> P A) c :
  bind (consume ty message) k c
  = if checkAt ty c then k (peekAt c) (next c)
    else Throw (ParseError (AtToken (peekAt c)) message).
Proof.
  unfold consume, bind. destruct (checkAt ty c) eqn:E; [|reflexivity].
  apply checkAt_true in E. unfold advance. rewrite E. reflexivity.
Qed.

Lemma bind_match {A} types (k : bool -> P A) c :
  bind (match_ types) k c
  = if existsb (fun ty => checkAt ty c) types then k true (next c) else k false c.
Proof.
  rewrite match_bind. cbv zeta. destruct (existsb _ _); reflexivity.
Qed.

Lemma isType_not_at_end ty c :
  isType ty (peekAt c) = true -> ty <> TokenType.EOF -> isAtEndAt c = false.
Proof.
  unfold isType, isAtEndAt. intros H Hty. apply TokenType.eqb_eq in H.
  rewrite H. destruct ty; try reflexivity. contradiction Hty. reflexivity.
Qed.

Lemma checkAt_isType ty c :
  type (peekAt c) <> TokenType.EOF -> checkAt ty c = isType ty (peekAt c).
Proof.
  unfold checkAt, isAtEndAt, isType. intros H.
  destruct (TokenType.eqb (type (peekAt c)) TokenType.EOF) eqn:E; [|reflexivity].
  apply TokenType.eqb_eq in E. contradiction.
Qed.

Lemma checkAt_at_end ty c : isAtEndAt c = true -> checkAt ty c = false.
Proof. unfold checkAt. intros ->. reflexivity. Qed.

Lemma checkAt_type ty c :
  type (peekAt c) = ty -> ty <> TokenType.EOF -> checkAt ty c = true.
Proof.
  intros H Hty. rewrite checkAt_isType by congruence.
  unfold isType. rewrite H. apply TokenType.eqb_eq. reflexivity.
Qed.

Lemma checkAt_other ty c :
  type (peekAt c) <> ty -> checkAt ty c = false.
Proof.
  intros H. unfold checkAt. destruct (isAtEndAt c); [reflexivity|].
  destruct (TokenType.eqb (type (peekAt c)) ty) eqn:E; [|reflexivity].
  apply TokenType.eqb_eq in E. contradiction.
Qed.

End Helpers.

(** ** Parentheses, lists, statements and the loop of [parse] *)

Section Productions.
Variable operators : gmap string (Number.t * Associativity).
Variable expressionBounds : Expr.t -> option (nat * nat).

Lemma bind_bind {A B C} (m : P A) (f : A -> P B) (k : B -> P C) c :
  bind (bind m f) k c = bind m (fun a => bind (f a) k) c.
Proof. unfold bind. destruct (m c); reflexivity. Qed.

(** The optional operator that [grouping] takes after the opening
    parenthesis and before the closing one. *)
Definition optionalOperator (c : Cursor) : option Token * Cursor :=
  if isType TokenType.Operator (peekAt c) then (Some (peekAt c), next c)
  else (None, c).

Lemma bind_optionalOperator {A} (k : option Token -> P A) c :
  bind (if isType TokenType.Operator (peekAt c)
        then bind advance (fun op => ret (Some op))
        else ret None) k c
  = k (optionalOperator c).1 (optionalOperator c).2.
Proof.
  unfold optionalOperator.
  destruct (isType TokenType.Operator (peekAt c)) eqn:E; [|reflexivity].
  rewrite bind_bind, bind_advance; [reflexivity|].
  apply (isType_not_at_end _ _ E). discriminate.
Qed.

(** What [grouping] comes to after [( op? expression op?]: the closing
    parenthesis is consumed and the group is built, or it is missing. *)
Definition closeGrouping (leftParen : Token) (leftOp rightOp : option Token)
    (expr : Expr.t) (c : Cursor) : Res Expr.t :=
  if checkAt TokenType.RightParen c
  then finishGrouping operators leftParen leftOp rightOp expr (peekAt c) (next c)
  else Throw (ParseError (AtToken (peekAt c)) "Expect ')' after expression.").

Lemma grouping_paren fuel c expr c1 :
  type (peekAt c) = TokenType.LeftParen ->
  let leftOp := (optionalOperator (next c)).1 in
  let c0 := (optionalOperator (next c)).2 in
  checkAt TokenType.RightParen c0 = false ->
  expression operators fuel Number.zero c0 = Ok expr c1 ->
  grouping operators (S fuel) c
  = closeGrouping (peekAt c) leftOp (optionalOperator c1).1 expr
      (optionalOperator c1).2.
Proof.
  intros Hlp leftOp c0 Hclose Hexpr. subst leftOp c0.
  rewrite grouping_unfold, bind_match. cbn [existsb].
  rewrite (checkAt_type TokenType.LeftParen) by (first [exact Hlp | discriminate]).
  cbn [orb]. rewrite bind_previous, previousAt_next, bind_peek.
  rewrite bind_optionalOperator, bind_match. cbn [existsb].
  rewrite Hclose. cbn [orb]. unfold bind at 1. rewrite Hexpr.
  rewrite bind_peek, bind_optionalOperator, bind_consume. reflexivity.
Qed.

Lemma grouping_comesTo_paren c expr c1 :
  type (peekAt c) = TokenType.LeftParen ->
  checkAt TokenType.RightParen (optionalOperator (next c)).2 = false ->
  comesTo (fun fuel => expression operators fuel Number.zero (optionalOperator (next c)).2)
    (Ok expr c1) ->
  comesTo (fun fuel => grouping operators fuel c)
    (closeGrouping (peekAt c) (optionalOperator (next c)).1
       (optionalOperator c1).1 expr (optionalOperator c1).2).
Proof.
  intros Hlp Hclose [n Hn]. exists (S n). intros fuel Hfuel.
  destruct fuel as [|fuel]; [lia|].
  apply grouping_paren; [exact Hlp|exact Hclose|apply Hn; lia].
Qed.

Lemma grouping_comesTo_paren_throw c e :
  type (peekAt c) = TokenType.LeftParen ->
  checkAt TokenType.RightParen (optionalOperator (next c)).2 = false ->
  comesTo (fun fuel => expression operators fuel Number.zero (optionalOperator (next c)).2)
    (Throw e) ->
  comesTo (fun fuel => grouping operators fuel c) (Throw e).
Proof.
  intros Hlp Hclose [n Hn]. exists (S n). intros fuel Hfuel.
  destruct fuel as [|fuel]; [lia|].
  rewrite grouping_unfold, bind_match. cbn [existsb].
  rewrite (checkAt_type TokenType.LeftParen) by (first [exact Hlp | discriminate]).
  cbn [orb]. rewrite bind_previous, previousAt_next, bind_peek.
  rewrite bind_optionalOperator, bind_match. cbn [existsb].
  rewrite Hclose. cbn [orb]. unfold bind at 1. rewrite Hn by lia. reflexivity.
Qed.

(** [( op )] and [( )]. *)
Lemma grouping_comesTo_closed c :
  type (peekAt c) = TokenType.LeftParen ->
  checkAt TokenType.RightParen (optionalOperator (next c)).2 = true ->
  comesTo (fun fuel => grouping operators fuel c)
    (match (optionalOperator (next c)).1 with
     | Some op => Ok (Expr.Var op) (next (optionalOperator (next c)).2)
     | None => Throw (ThrownString
                 "Encountered unit literal, but unit isn't supported yet")
     end).
Proof.
  intros Hlp Hclose. exists 1. intros fuel Hfuel.
  destruct fuel as [|fuel]; [lia|].
  rewrite grouping_unfold, bind_match. cbn [existsb].
  rewrite (checkAt_type TokenType.LeftParen) by (first [exact Hlp | discriminate]).
  cbn [orb]. rewrite bind_previous, previousAt_next, bind_peek.
  rewrite bind_optionalOperator, bind_match. cbn [existsb].
  rewrite Hclose. cbn [orb].
  destruct (optionalOperator (next c)).1; reflexivity.
Qed.

(** *** Lists *)

Lemma grouping_bracket fuel c :
  type (peekAt c) = TokenType.LeftBracket ->
  grouping operators (S (S fuel)) c
  = bind (listLoop operators fuel []) (fun items => ret (Expr.List items)) (next c).
Proof.
  intros H. rewrite grouping_unfold, bind_match. cbn [existsb].
  rewrite (checkAt_other TokenType.LeftParen) by (rewrite H; discriminate).
  cbn [orb]. rewrite functionTerm_unfold, bind_match. cbn [existsb].
  rewrite (checkAt_other TokenType.Number) by (rewrite H; discriminate).
  rewrite (checkAt_other TokenType.String) by (rewrite H; discriminate).
  cbn [orb]. rewrite bind_match. cbn [existsb].
  rewrite (checkAt_other TokenType.Identifier) by (rewrite H; discriminate).
  cbn [orb]. rewrite bind_match. cbn [existsb].
  rewrite (checkAt_type TokenType.LeftBracket) by (first [exact H | discriminate]).
  reflexivity.
Qed.

Lemma grouping_comesTo_list c items c1 :
  type (peekAt c) = TokenType.LeftBracket ->
  comesTo (fun fuel => listLoop operators fuel [] (next c)) (Ok items c1) ->
  comesTo (fun fuel => grouping operators fuel c) (Ok (Expr.List items) c1).
Proof.
  intros H [n Hn]. exists (S (S n)). intros fuel Hfuel.
  destruct fuel as [|[|fuel]]; try lia.
  rewrite grouping_bracket by exact H. unfold bind. rewrite Hn by lia. reflexivity.
Qed.

Lemma grouping_comesTo_list_throw c e :
  type (peekAt c) = TokenType.LeftBracket ->
  comesTo (fun fuel => listLoop operators fuel [] (next c)) (Throw e) ->
  comesTo (fun fuel => grouping operators fuel c) (Throw e).
Proof.
  intros H [n Hn]. exists (S (S n)). intros fuel Hfuel.
  destruct fuel as [|[|fuel]]; try lia.
  rewrite grouping_bracket by exact H. unfold bind. rewrite Hn by lia. reflexivity.
Qed.

Lemma listLoop_comesTo_close items c :
  type (peekAt c) = TokenType.RightBracket ->
  comesTo (fun fuel => listLoop operators fuel items c) (Ok items (next c)).
Proof.
  intros H. exists 1. intros fuel Hfuel. destruct fuel as [|fuel]; [lia|].
  rewrite listLoop_unfold, bind_match. cbn [existsb].
  rewrite (checkAt_type TokenType.RightBracket) by (first [exact H | discriminate]).
  reflexivity.
Qed.

Lemma listLoop_comesTo_unterminated items c :
  isAtEndAt c = true ->
  comesTo (fun fuel => listLoop operators fuel items c)
    (Throw (ParseError (AtToken (peekAt c)) "Unterminated list literal")).
Proof.
  intros H. exists 1. intros fuel Hfuel. destruct fuel as [|fuel]; [lia|].
  rewrite listLoop_unfold, bind_match. cbn [existsb].
  rewrite (checkAt_at_end _ _ H). cbn [orb].
  rewrite bind_isAtEnd, H. reflexivity.
Qed.

Lemma listLoop_comesTo_first c item c1 r :
  type (peekAt c) <> TokenType.RightBracket ->
  isAtEndAt c = false ->
  comesTo (fun fuel => expression operators fuel Number.zero c) (Ok item c1) ->
  comesTo (fun fuel => listLoop operators fuel [item] c1) r ->
  comesTo (fun fuel => listLoop operators fuel [] c) r.
Proof.
  intros Hrb Hend [n1 H1] [n2 H2]. exists (S (n1 `max` n2)). intros fuel Hfuel.
  destruct fuel as [|fuel]; [lia|].
  rewrite listLoop_unfold, bind_match. cbn [existsb].
  rewrite (checkAt_other _ _ Hrb). cbn [orb].
  rewrite bind_isAtEnd, Hend. cbn [length Nat.ltb Nat.leb].
  rewrite bind_ret. unfold bind. rewrite H1 by lia. apply H2. lia.
Qed.

Lemma listLoop_comesTo_more items c item c1 r :
  items <> [] ->
  type (peekAt c) = TokenType.Comma ->
  comesTo (fun fuel => expression operators fuel Number.zero (next c)) (Ok item c1) ->
  comesTo (fun fuel => listLoop operators fuel (items ++ [item]) c1) r ->
  comesTo (fun fuel => listLoop operators fuel items c) r.
Proof.
  intros Hitems Hcomma [n1 H1] [n2 H2]. exists (S (n1 `max` n2)).
  intros fuel Hfuel. destruct fuel as [|fuel]; [lia|].
  assert (Hend : isAtEndAt c = false).
  { unfold isAtEndAt. rewrite Hcomma. reflexivity. }
  rewrite listLoop_unfold, bind_match. cbn [existsb].
  rewrite (checkAt_other TokenType.RightBracket) by (rewrite Hcomma; discriminate).
  cbn [orb]. rewrite bind_isAtEnd, Hend.
  destruct items as [|i0 items]; [contradiction Hitems; reflexivity|].
  cbn [length Nat.ltb Nat.leb]. rewrite bind_bind, bind_consume.
  rewrite (checkAt_type TokenType.Comma) by (first [exact Hcomma | discriminate]).
  rewrite bind_ret. unfold bind. rewrite H1 by lia. apply H2. lia.
Qed.

Lemma listLoop_comesTo_no_comma items c :
  items <> [] ->
  isAtEndAt c = false ->
  type (peekAt c) <> TokenType.RightBracket ->
  type (peekAt c) <> TokenType.Comma ->
  comesTo (fun fuel => listLoop operators fuel items c)
    (Throw (ParseError (AtToken (peekAt c)) "Expect ',' after list items")).
Proof.
  intros Hitems Hend Hrb Hcomma. exists 1. intros fuel Hfuel.
  destruct fuel as [|fuel]; [lia|].
  rewrite listLoop_unfold, bind_match. cbn [existsb].
  rewrite (checkAt_other _ _ Hrb). cbn [orb]. rewrite bind_isAtEnd, Hend.
  destruct items as [|i0 items]; [contradiction Hitems; reflexivity|].
  cbn [length Nat.ltb Nat.leb]. rewrite bind_bind, bind_consume.
  rewrite (checkAt_other _ _ Hcomma). reflexivity.
Qed.

(** *** Statements *)

Lemma statement_comesTo_throw c e :
  comesTo (fun fuel => expression operators fuel Number.zero c) (Throw e) ->
  comesTo (fun fuel => statement operators fuel c) (Throw e).
Proof.
  intros [n Hn]. exists n. intros fuel Hfuel.
  apply statement_throws, Hn, Hfuel.
Qed.

(** The statement after its expression [expr], with the cursor at [c1]. *)
Definition afterExpression (expr : Expr.t) (c1 : Cursor) : Res Stmt.t :=
  if isType TokenType.ColonColon (peekAt c1) then
    Throw (PlainError "Parsing type annotations isn't supported yet")
  else if isType TokenType.Equal (peekAt c1) then
    match parseFunlhs expr c1 with
    | Ok lhs _ =>
        if checkAt TokenType.CodeLiteral (next c1) then
          let stmt :=
            match lhs with
            | name :: args => Stmt.Binding name args (peekAt (next c1))
            | [] => Stmt.Binding eofToken [] (peekAt (next c1))
            end in
          let c2 := next (next c1) in
          if isAtEndAt c2 then Ok stmt c2
          else if checkAt TokenType.LineBreak c2 then Ok stmt (next c2)
          else Throw (ParseError (AtToken (peekAt c2))
                        "Expect new line after expression.")
        else Throw (ParseError (AtToken (peekAt (next c1)))
               "Right-hand sign of an assignment variable must be foreign Javascript block")
    | Throw e => Throw e
    | Starved => Starved
    end
  else if isAtEndAt c1 then Ok (Stmt.Expression expr) c1
  else if checkAt TokenType.LineBreak c1 then Ok (Stmt.Expression expr) (next c1)
  else Throw (ParseError (AtToken (peekAt c1)) "Expect new line after expression.").

Lemma parseFunlhs_cursor expr c names c' :
  parseFunlhs expr c = Ok names c' -> c' = c.
Proof.
  revert c names c'.
  induction expr as [| | | | | | l IHl r _ |]; intros c names c';
    cbn [parseFunlhs variable]; try discriminate.
  - intros H. injection H as _ <-. reflexivity.
  - unfold bind. destruct (parseFunlhs l c) as [ns c1| |] eqn:El; try discriminate.
    apply IHl in El. subst c1.
    destruct r; cbn; try discriminate. intros H. injection H as _ <-. reflexivity.
Qed.

Lemma statement_after fuel c expr c1 :
  expression operators fuel Number.zero c = Ok expr c1 ->
  statement operators fuel c = afterExpression expr c1.
Proof.
  intros He. unfold statement, declaration, afterExpression.
  rewrite bind_bind. unfold bind at 1. rewrite He. cbv beta iota.
  rewrite bind_bind, bind_peek.
  destruct (isType TokenType.ColonColon (peekAt c1)); [reflexivity|].
  destruct (isType TokenType.Equal (peekAt c1)) eqn:Eeq.
  - assert (Hst : forall (stmt : Stmt.t) c2,
      bind (ret stmt)
        (fun stmt0 : Stmt.t => bind isAtEnd (fun atEnd =>
           if atEnd : bool then ret stmt0
           else bind (consume TokenType.LineBreak "Expect new line after expression.")
                  (fun _ => ret stmt0))) c2
      = if isAtEndAt c2 then Ok stmt c2
        else if checkAt TokenType.LineBreak c2
             then Ok stmt (next c2)
             else Throw (ParseError (AtToken (peekAt c2))
                           "Expect new line after expression.")).
    { intros stmt c2. rewrite bind_ret, bind_isAtEnd.
      destruct (isAtEndAt c2); [reflexivity|].
      rewrite bind_consume. destruct (checkAt _ _); reflexivity. }
    rewrite bind_bind. unfold bind at 1.
    destruct (parseFunlhs expr c1) as [lhs c2| |] eqn:El; [|reflexivity..].
    apply parseFunlhs_cursor in El. subst c2.
    rewrite bind_bind.
    rewrite bind_advance by (apply (isType_not_at_end _ _ Eeq); discriminate).
    rewrite bind_bind, bind_consume.
    destruct (checkAt TokenType.CodeLiteral (next c1)); [|reflexivity].
    cbv zeta. destruct lhs; apply Hst.
  - rewrite bind_ret, bind_isAtEnd.
    destruct (isAtEndAt c1); [reflexivity|].
    rewrite bind_consume. destruct (checkAt _ _); reflexivity.
Qed.

Lemma statement_comesTo c expr c1 :
  comesTo (fun fuel => expression operators fuel Number.zero c) (Ok expr c1) ->
  comesTo (fun fuel => statement operators fuel c) (afterExpression expr c1).
Proof.
  intros [n Hn]. exists n. intros fuel Hfuel. apply statement_after, Hn, Hfuel.
Qed.

(** *** The loop of [parse] *)

Lemma parseLoop_comesTo_end statements c :
  isAtEndAt c = true ->
  comesTo (fun fuel => parseLoop operators expressionBounds fuel statements c)
    (Returned statements []).
Proof.
  intros H. exists 1. intros fuel Hfuel. destruct fuel as [|fuel]; [lia|].
  rewrite parseLoop_unfold, H. reflexivity.
Qed.

Lemma parseLoop_comesTo_blank statements c r :
  checkAt TokenType.LineBreak c = true ->
  comesTo (fun fuel => parseLoop operators expressionBounds fuel statements (next c)) r ->
  comesTo (fun fuel => parseLoop operators expressionBounds fuel statements c) r.
Proof.
  intros H [n Hn]. exists (S n). intros fuel Hfuel.
  destruct fuel as [|fuel]; [lia|].
  pose proof (checkAt_true _ _ H) as Hend.
  rewrite parseLoop_unfold, H, Hend. unfold advance. rewrite Hend.
  apply Hn. lia.
Qed.

Lemma parseLoop_comesTo_statement statements c stmt c1 r :
  isAtEndAt c = false ->
  checkAt TokenType.LineBreak c = false ->
  comesTo (fun fuel => statement operators fuel c) (Ok stmt c1) ->
  comesTo (fun fuel => parseLoop operators expressionBounds fuel
                         (statements ++ [stmt]) c1) r ->
  comesTo (fun fuel => parseLoop operators expressionBounds fuel statements c) r.
Proof.
  intros Hend Hlb [n1 H1] [n2 H2]. exists (S (n1 `max` n2)). intros fuel Hfuel.
  destruct fuel as [|fuel]; [lia|].
  rewrite parseLoop_unfold, Hend, Hlb, H1 by lia. apply H2. lia.
Qed.

Lemma parseLoop_comesTo_error statements c source message :
  isAtEndAt c = false ->
  checkAt TokenType.LineBreak c = false ->
  comesTo (fun fuel => statement operators fuel c)
    (Throw (ParseError source message)) ->
  comesTo (fun fuel => parseLoop operators expressionBounds fuel statements c)
    (report expressionBounds statements source message).
Proof.
  intros Hend Hlb [n1 H1]. exists (S n1). intros fuel Hfuel.
  destruct fuel as [|fuel]; [lia|].
  rewrite parseLoop_unfold, Hend, Hlb, H1 by lia. reflexivity.
Qed.

Lemma parsesTo_comesTo toks run :
  comesTo (fun fuel => parseLoop operators expressionBounds fuel [] (mkCursor toks 0))
    run ->
  parsesTo operators expressionBounds toks run.
Proof. intros H. exact H. Qed.

End Productions.

(** ** Programs of any length *)

Section Programs.
Variable operators : gmap string (Number.t * Associativity).
Variable expressionBounds : Expr.t -> option (nat * nat).

(** The tokens after which an expression cannot go on: they start no
    function term and are no operator. *)
Definition endsExpression (tok : Token) : bool :=
  match type tok with
  | TokenType.RightParen | TokenType.RightBracket | TokenType.Comma
  | TokenType.Equal | TokenType.ColonColon | TokenType.CodeLiteral
  | TokenType.LineBreak | TokenType.EOF => true
  | _ => false
  end.

Definition atoms (xs : list Token) : Prop := Forall (fun x => isAtom x = true) xs.

(** [e x1 ... xn] *)
Definition applyAll (e : Expr.t) (xs : list Token) : Expr.t :=
  foldl Expr.Application e (atomExpr <$> xs).

(** [f x1 ... xn] *)
Definition spine (f : Token) (xs : list Token) : Expr.t := applyAll (atomExpr f) xs.

Lemma endsExpression_stops c :
  endsExpression (peekAt c) = true ->
  peekFunctionTermAt c = false
  /\ isType TokenType.Operator (peekAt c) = false
  /\ TokenType.eqb (type (peekAt c)) TokenType.LeftParen = false.
Proof.
  unfold endsExpression, peekFunctionTermAt, isType. cbv zeta.
  destruct (type (peekAt c)); try discriminate; repeat split.
Qed.

Lemma isAtom_starts c :
  isAtom (peekAt c) = true ->
  peekFunctionTermAt c = true /\ isAtEndAt c = false
  /\ checkAt TokenType.LineBreak c = false
  /\ type (peekAt c) <> TokenType.RightBracket.
Proof.
  unfold isAtom, peekFunctionTermAt, isAtEndAt, checkAt, isAtEndAt, isType.
  cbv zeta. destruct (type (peekAt c)); try discriminate; repeat split; discriminate.
Qed.

Lemma applicationLoop_atoms xs :
  forall acc c rest r,
    ahead c = xs ++ rest -> atoms xs ->
    comesTo (fun fuel => applicationLoop operators fuel (applyAll acc xs)
                           (skip (length xs) c)) r ->
    comesTo (fun fuel => applicationLoop operators fuel acc c) r.
Proof.
  induction xs as [|x xs IH]; intros acc c rest r Hahead Hxs Hr.
  - cbn [length] in Hr. rewrite skip_0 in Hr. exact Hr.
  - apply Forall_cons in Hxs as [Hx Hxs]. cbn [app] in Hahead.
    pose proof (peekAt_cons _ _ _ Hahead) as Hpeek.
    rewrite <- Hpeek in Hx.
    apply (applicationLoop_comesTo_take operators acc c (atomExpr x) (next c)).
    + apply (isAtom_starts c Hx).
    + rewrite <- Hpeek. apply grouping_comesTo_atom. exact Hx.
    + apply (IH _ _ rest).
      * apply (ahead_next_cons _ _ _ Hahead).
      * exact Hxs.
      * rewrite skip_next. exact Hr.
Qed.

Lemma expression_comesTo_spine precedence c f xs rest :
  ahead c = f :: xs ++ rest ->
  isAtom f = true -> atoms xs ->
  endsExpression (default eofToken (head rest)) = true ->
  comesTo (fun fuel => expression operators fuel precedence c)
    (Ok (spine f xs) (skip (S (length xs)) c)).
Proof.
  intros Hahead Hf Hxs Hrest.
  pose proof (peekAt_cons _ _ _ Hahead) as Hpeek.
  assert (Hlast : ahead (skip (S (length xs)) c) = rest).
  { apply (ahead_skip_app c (f :: xs)). exact Hahead. }
  assert (Hstop : endsExpression (peekAt (skip (S (length xs)) c)) = true).
  { rewrite peekAt_ahead, Hlast. exact Hrest. }
  apply endsExpression_stops in Hstop as (Hterm & Hop & _).
  apply (expression_comesTo operators precedence c (spine f xs)
           (skip (S (length xs)) c)).
  - apply (application_comesTo operators c (atomExpr f) (next c)).
    + rewrite <- Hpeek. apply grouping_comesTo_atom. rewrite Hpeek. exact Hf.
    + apply (applicationLoop_atoms xs _ _ rest).
      * apply (ahead_next_cons _ _ _ Hahead).
      * exact Hxs.
      * rewrite skip_next. apply applicationLoop_comesTo_stop. exact Hterm.
  - apply expressionLoop_comesTo_stop. exact Hop.
Qed.

Lemma expression_comesTo_atom precedence c x rest :
  ahead c = x :: rest ->
  isAtom x = true ->
  endsExpression (default eofToken (head rest)) = true ->
  comesTo (fun fuel => expression operators fuel precedence c)
    (Ok (atomExpr x) (next c)).
Proof.
  intros Hahead Hx Hrest. rewrite <- skip_1.
  apply (expression_comesTo_spine precedence c x [] rest);
    [exact Hahead|exact Hx|constructor|exact Hrest].
Qed.

Lemma expression_comesTo_empty precedence c :
  endsExpression (peekAt c) = true ->
  comesTo (fun fuel => expression operators fuel precedence c) (Ok Expr.Empty c).
Proof.
  intros H. apply endsExpression_stops in H as (Hterm & Hop & Hlp).
  apply (expression_comesTo operators precedence c Expr.Empty c).
  - apply (application_comesTo operators c Expr.Empty c).
    + apply grouping_comesTo_empty; assumption.
    + apply applicationLoop_comesTo_stop. exact Hterm.
  - apply expressionLoop_comesTo_stop. exact Hop.
Qed.

(** One statement that begins the program. *)
Lemma parse_first_statement toks stmt c1 r :
  isAtEndAt (mkCursor toks 0) = false ->
  checkAt TokenType.LineBreak (mkCursor toks 0) = false ->
  comesTo (fun fuel => statement operators fuel (mkCursor toks 0)) (Ok stmt c1) ->
  comesTo (fun fuel => parseLoop operators expressionBounds fuel [stmt] c1) r ->
  parsesTo operators expressionBounds toks r.
Proof.
  intros H0 H1 Hs Hr.
  apply (parseLoop_comesTo_statement operators expressionBounds [] _ stmt c1 r);
    assumption.
Qed.

Lemma parse_first_error toks source message :
  isAtEndAt (mkCursor toks 0) = false ->
  checkAt TokenType.LineBreak (mkCursor toks 0) = false ->
  comesTo (fun fuel => statement operators fuel (mkCursor toks 0))
    (Throw (ParseError source message)) ->
  parsesTo operators expressionBounds toks
    (report expressionBounds [] source message).
Proof.
  intros H0 H1 Hs.
  apply (parseLoop_comesTo_error operators expressionBounds [] _ source message);
    assumption.
Qed.

Lemma start_atom f rest :
  isAtom f = true ->
  isAtEndAt (mkCursor (f :: rest) 0) = false
  /\ checkAt TokenType.LineBreak (mkCursor (f :: rest) 0) = false.
Proof.
  intros Hf.
  assert (H : isAtom (peekAt (mkCursor (f :: rest) 0)) = true) by exact Hf.
  apply isAtom_starts in H as (_ & H1 & H2 & _). split; assumption.
Qed.

Lemma parse_application f xs eof :
  isAtom f = true -> atoms xs -> type eof = TokenType.EOF ->
  parsesTo operators expressionBounds (f :: xs ++ [eof])
    (Returned [Stmt.Expression (spine f xs)] []).
Proof.
  intros Hf Hxs Heof.
  set (c0 := mkCursor (f :: xs ++ [eof]) 0).
  set (c1 := skip (S (length xs)) c0).
  assert (Hahead : ahead c1 = [eof]).
  { apply (ahead_skip_app c0 (f :: xs)). reflexivity. }
  assert (Hpeek : peekAt c1 = eof) by (apply (peekAt_cons _ _ _ Hahead)).
  destruct (start_atom f (xs ++ [eof]) Hf) as [H0 H1].
  apply (parse_first_statement _ (Stmt.Expression (spine f xs)) c1); try assumption.
  - replace (Ok (Stmt.Expression (spine f xs)) c1)
      with (afterExpression (spine f xs) c1).
    + apply statement_comesTo.
      apply (expression_comesTo_spine Number.zero c0 f xs [eof]);
        [reflexivity|exact Hf|exact Hxs|].
      cbn. unfold endsExpression. rewrite Heof. reflexivity.
    + unfold afterExpression, isType, isAtEndAt. rewrite Hpeek, Heof. reflexivity.
  - apply parseLoop_comesTo_end. unfold isAtEndAt. rewrite Hpeek, Heof. reflexivity.
Qed.

(** Juxtaposition, at any length: the program [f x1 ... xn] of
    identifiers, numbers and strings is the one expression statement
    [(...((f x1) x2)...) xn], an application nested to the left. *)
Theorem application_nests_left f xs eof :
  isAtom f = true -> atoms xs -> type eof = TokenType.EOF ->
  parsesTo operators expressionBounds (f :: xs ++ [eof])
    (Returned [Stmt.Expression (spine f xs)] []).
Proof. exact (parse_application f xs eof). Qed.

(** *** Lines *)

Lemma afterExpression_end expr c1 :
  isAtEndAt c1 = true -> afterExpression expr c1 = Ok (Stmt.Expression expr) c1.
Proof.
  intros H. unfold afterExpression, isType. rewrite H.
  unfold isAtEndAt in H. apply TokenType.eqb_eq in H. rewrite H. reflexivity.
Qed.

Lemma afterExpression_line expr c1 :
  type (peekAt c1) = TokenType.LineBreak ->
  afterExpression expr c1 = Ok (Stmt.Expression expr) (next c1).
Proof.
  intros H. unfold afterExpression, isType, isAtEndAt, checkAt, isAtEndAt.
  rewrite H. reflexivity.
Qed.

(** The tokens that can follow an expression and are neither the end of
    the line nor the start of a binding or of a type annotation. *)
Definition isStray (tok : Token) : bool :=
  match type tok with
  | TokenType.RightParen | TokenType.RightBracket | TokenType.Comma
  | TokenType.CodeLiteral => true
  | _ => false
  end.

Lemma afterExpression_stray expr c1 :
  isStray (peekAt c1) = true ->
  afterExpression expr c1
  = Throw (ParseError (AtToken (peekAt c1)) "Expect new line after expression.").
Proof.
  unfold isStray, afterExpression, isType, isAtEndAt, checkAt, isAtEndAt.
  destruct (type (peekAt c1)); try discriminate; reflexivity.
Qed.

(** A line: its first token, the tokens applied to it, the line break. *)
Definition Line : Type := Token * list Token * Token.

Definition lineTokens (l : Line) : list Token := l.1.1 :: l.1.2 ++ [l.2].

Definition lineStatement (l : Line) : Stmt.t := Stmt.Expression (spine l.1.1 l.1.2).

Definition isLine (l : Line) : Prop :=
  isAtom l.1.1 = true /\ atoms l.1.2 /\ type l.2 = TokenType.LineBreak.

Lemma parseLoop_lines eof lines :
  type eof = TokenType.EOF ->
  Forall isLine lines ->
  forall statements c,
    ahead c = flat_map lineTokens lines ++ [eof] ->
    comesTo (fun fuel => parseLoop operators expressionBounds fuel statements c)
      (Returned (statements ++ (lineStatement <$> lines)) []).
Proof.
  intros Heof Hlines.
  induction Hlines as [|[[f xs] lb] lines (Hf & Hxs & Hlb) _ IH];
    intros statements c Hahead.
  - cbn in Hahead |- *. rewrite app_nil_r.
    apply parseLoop_comesTo_end. unfold isAtEndAt.
    rewrite (peekAt_cons _ _ _ Hahead), Heof. reflexivity.
  - cbn [fst snd] in Hf, Hxs, Hlb.
    assert (Hahead' : ahead c = f :: xs ++ lb :: flat_map lineTokens lines ++ [eof]).
    { rewrite Hahead. cbn [flat_map lineTokens fst snd app].
      rewrite <- ?app_assoc. reflexivity. }
    clear Hahead. rename Hahead' into Hahead.
    set (c1 := skip (S (length xs)) c).
    assert (Hahead1 : ahead c1 = lb :: flat_map lineTokens lines ++ [eof]).
    { apply (ahead_skip_app c (f :: xs)). exact Hahead. }
    pose proof (peekAt_cons _ _ _ Hahead1) as Hpeek1.
    pose proof (peekAt_cons _ _ _ Hahead) as Hpeek.
    assert (Hstart : isAtom (peekAt c) = true) by (rewrite Hpeek; exact Hf).
    apply isAtom_starts in Hstart as (_ & H0 & H1 & _).
    apply (parseLoop_comesTo_statement operators expressionBounds statements c
             (Stmt.Expression (spine f xs)) (next c1)); try assumption.
    + replace (Ok (Stmt.Expression (spine f xs)) (next c1))
        with (afterExpression (spine f xs) c1)
        by (apply afterExpression_line; rewrite Hpeek1; exact Hlb).
      apply statement_comesTo.
      apply (expression_comesTo_spine Number.zero c f xs
               (lb :: flat_map lineTokens lines ++ [eof]));
        [exact Hahead|exact Hf|exact Hxs|].
      cbn. unfold endsExpression. rewrite Hlb. reflexivity.
    + rewrite fmap_cons.
      change (lineStatement (f, xs, lb)) with (Stmt.Expression (spine f xs)).
      replace (statements ++ Stmt.Expression (spine f xs) :: (lineStatement <$> lines))
        with ((statements ++ [Stmt.Expression (spine f xs)]) ++ (lineStatement <$> lines))
        by (rewrite <- app_assoc; reflexivity).
      apply IH. apply (ahead_next_cons _ _ _ Hahead1).
Qed.

(** One statement per line: a program of lines [f x1 ... xn], each ended
    by a line break, is the list of their applications, in the order of
    the lines, and nothing is reported. *)
Theorem one_statement_per_line lines eof :
  Forall isLine lines -> type eof = TokenType.EOF ->
  parsesTo operators expressionBounds (flat_map lineTokens lines ++ [eof])
    (Returned (lineStatement <$> lines) []).
Proof.
  intros Hlines Heof.
  apply (parseLoop_lines eof lines Heof Hlines [] (mkCursor _ 0)). reflexivity.
Qed.

(** A token that cannot follow an expression on its line: the statement
    is a syntax error at that token, whatever comes after it. *)
Theorem statement_ends_at_line_break f xs stray rest :
  isAtom f = true -> atoms xs -> isStray stray = true ->
  parsesTo operators expressionBounds (f :: xs ++ stray :: rest)
    (Returned [] [ReportToken stray "Expect new line after expression."]).
Proof.
  intros Hf Hxs Hstray.
  set (c0 := mkCursor (f :: xs ++ stray :: rest) 0).
  set (c1 := skip (S (length xs)) c0).
  assert (Hahead : ahead c1 = stray :: rest).
  { apply (ahead_skip_app c0 (f :: xs)). reflexivity. }
  assert (Hpeek : peekAt c1 = stray) by (apply (peekAt_cons _ _ _ Hahead)).
  destruct (start_atom f (xs ++ stray :: rest) Hf) as [H0 H1].
  apply (parse_first_error _ (AtToken stray)); try assumption.
  replace (Throw (ParseError (AtToken stray) "Expect new line after expression."))
    with (afterExpression (spine f xs) c1)
    by (rewrite afterExpression_stray, Hpeek by (rewrite Hpeek; exact Hstray);
        reflexivity).
  apply statement_comesTo.
  apply (expression_comesTo_spine Number.zero c0 f xs (stray :: rest));
    [reflexivity|exact Hf|exact Hxs|].
  cbn. unfold isStray in Hstray. unfold endsExpression.
  destruct (type stray); try discriminate; reflexivity.
Qed.

(** *** Bindings *)

Definition identifiers (xs : list Token) : Prop :=
  Forall (fun x => isType TokenType.Identifier x = true) xs.


Definition expectedCode : string :=
  "Right-hand sign of an assignment variable must be foreign Javascript block".

Lemma identifiers_atoms xs : identifiers xs -> atoms xs.
Proof.
  intros Hxs. eapply Forall_impl; [exact Hxs|].
  intros x H. unfold isAtom. cbv beta in H. rewrite H. reflexivity.
Qed.

Lemma atomExpr_identifier x :
  isType TokenType.Identifier x = true -> atomExpr x = Expr.Var x.
Proof. intros H. unfold atomExpr. rewrite H. reflexivity. Qed.

Lemma applyAll_app e xs ys : applyAll e (xs ++ ys) = applyAll (applyAll e xs) ys.
Proof. unfold applyAll. rewrite fmap_app, foldl_app. reflexivity. Qed.

Lemma applyAll_cons e x xs :
  applyAll e (x :: xs) = applyAll (Expr.Application e (atomExpr x)) xs.
Proof. reflexivity. Qed.

Lemma applyAll_identifiers e xs :
  identifiers xs -> applyAll e xs = foldl Expr.Application e (Expr.Var <$> xs).
Proof.
  intros H. unfold applyAll. f_equal.
  apply Forall_fmap_ext_1. eapply Forall_impl; [exact H|].
  intros x Hx. apply atomExpr_identifier, Hx.
Qed.

Lemma parseFunlhs_application l r c :
  parseFunlhs (Expr.Application l r) c
  = match parseFunlhs l c with
    | Ok names c1 =>
        match r with
        | Expr.Var name => Ok (names ++ [name]) c1
        | _ => Throw (ParseError (AtExpr r) expectedVariable)
        end
    | Throw e => Throw e
    | Starved => Starved
    end.
Proof.
  cbn [parseFunlhs]. unfold bind.
  destruct (parseFunlhs l c); try reflexivity. destruct r; reflexivity.
Qed.

Lemma parseFunlhs_variables xs :
  forall e names c,
    parseFunlhs e c = Ok names c ->
    parseFunlhs (foldl Expr.Application e (Expr.Var <$> xs)) c = Ok (names ++ xs) c.
Proof.
  induction xs as [|x xs IH]; intros e names c He.
  - cbn. rewrite app_nil_r. exact He.
  - cbn [fmap list_fmap foldl].
    rewrite (IH _ (names ++ [x])).
    + rewrite <- app_assoc. reflexivity.
    + rewrite parseFunlhs_application, He. reflexivity.
Qed.

Lemma parseFunlhs_throws xs :
  forall e c err,
    parseFunlhs e c = Throw err ->
    parseFunlhs (applyAll e xs) c = Throw err.
Proof.
  induction xs as [|x xs IH]; intros e c err He; [exact He|].
  rewrite applyAll_cons. apply IH. rewrite parseFunlhs_application, He. reflexivity.
Qed.

(** [parseFunlhs] and the left-hand sides it accepts are inverse to each
    other: it returns the names [f, x1, ..., xn] exactly on the
    application [f x1 ... xn] of variables, nested to the left and
    without parentheses, and it never moves the cursor; on anything else
    it throws a [ParseError] that carries a subexpression which is no
    variable. *)
Theorem parseFunlhs_inverse expr c :
  (forall names c',
     parseFunlhs expr c = Ok names c'
     <-> c' = c
         /\ exists f xs, names = f :: xs
              /\ expr = foldl Expr.Application (Expr.Var f) (Expr.Var <$> xs))
  /\ (forall e,
        parseFunlhs expr c = Throw e ->
        exists sub, e = ParseError (AtExpr sub) expectedVariable
                    /\ forall name, sub <> Expr.Var name)
  /\ parseFunlhs expr c <> Starved.
Proof.
  split; [|split].
  - intros names c'. split.
    + intros H. pose proof (parseFunlhs_cursor _ _ _ _ H) as ->.
      split; [reflexivity|]. revert names H.
      induction expr as [| | | | | name | l IHl r _ |]; intros names H;
        try discriminate H.
      * injection H as <-. exists name, []. split; reflexivity.
      * rewrite parseFunlhs_application in H.
        destruct (parseFunlhs l c) as [ns c1| |] eqn:El; try discriminate H.
        pose proof (parseFunlhs_cursor _ _ _ _ El) as ->.
        destruct r; try discriminate H. injection H as <-.
        destruct (IHl ns eq_refl) as (f & xs & -> & ->).
        exists f, (xs ++ [name]). split; [reflexivity|].
        rewrite fmap_app, foldl_app. reflexivity.
    + intros (-> & f & xs & -> & ->).
      apply (parseFunlhs_variables xs (Expr.Var f) [f]). reflexivity.
  - intros e.
    induction expr as [| | | | | name | l IHl r _ |]; cbn [parseFunlhs variable];
      try (intros H; injection H as <-; eexists; split; [reflexivity|];
           intros name'; discriminate).
    + discriminate.
    + fold (parseFunlhs l). change (bind (parseFunlhs l) _ c)
        with (parseFunlhs (Expr.Application l r) c).
      rewrite parseFunlhs_application.
      destruct (parseFunlhs l c) as [ns c1| e' |]; [| |discriminate].
      * destruct r; try discriminate;
          intros H; injection H as <-; eexists; (split; [reflexivity|]);
          intros name'; discriminate.
      * intros H. injection H as <-. apply IHl. reflexivity.
  - induction expr as [| | | | | name | l IHl r _ |]; try discriminate.
    rewrite parseFunlhs_application.
    destruct (parseFunlhs l c); [|discriminate|contradiction IHl; reflexivity].
    destruct r; discriminate.
Qed.

Lemma parseFunlhs_spine f xs c :
  identifiers (f :: xs) -> parseFunlhs (spine f xs) c = Ok (f :: xs) c.
Proof.
  intros H. apply Forall_cons in H as [Hf Hxs].
  unfold spine. rewrite (applyAll_identifiers _ _ Hxs), (atomExpr_identifier _ Hf).
  apply (parseFunlhs_variables xs (Expr.Var f) [f]). reflexivity.
Qed.

Lemma parseFunlhs_first_bad pre bad post f xs c :
  f :: xs = pre ++ bad :: post ->
  identifiers pre ->
  isType TokenType.Identifier bad = false ->
  parseFunlhs (spine f xs) c
  = Throw (ParseError (AtExpr (atomExpr bad)) expectedVariable).
Proof.
  intros E Hpre Hbad. unfold spine.
  assert (Hb : forall l names,
            parseFunlhs l c = Ok names c ->
            parseFunlhs (Expr.Application l (atomExpr bad)) c
            = Throw (ParseError (AtExpr (atomExpr bad)) expectedVariable)).
  { intros l names Hl. rewrite parseFunlhs_application, Hl.
    unfold atomExpr. rewrite Hbad. reflexivity. }
  destruct pre as [|p pre]; cbn [app] in E; injection E as -> ->.
  - apply parseFunlhs_throws. unfold atomExpr. rewrite Hbad. reflexivity.
  - rewrite applyAll_app, applyAll_cons. apply parseFunlhs_throws.
    apply (Hb _ (p :: pre)). apply (parseFunlhs_spine p pre c Hpre).
Qed.

Lemma afterExpression_binding expr c1 lhs :
  type (peekAt c1) = TokenType.Equal ->
  parseFunlhs expr c1 = Ok lhs c1 ->
  afterExpression expr c1
  = if checkAt TokenType.CodeLiteral (next c1) then
      let stmt :=
        match lhs with
        | name :: args => Stmt.Binding name args (peekAt (next c1))
        | [] => Stmt.Binding eofToken [] (peekAt (next c1))
        end in
      let c2 := next (next c1) in
      if isAtEndAt c2 then Ok stmt c2
      else if checkAt TokenType.LineBreak c2 then Ok stmt (next c2)
      else Throw (ParseError (AtToken (peekAt c2))
                    "Expect new line after expression.")
    else Throw (ParseError (AtToken (peekAt (next c1))) expectedCode).
Proof.
  intros Heq Hl. unfold afterExpression, isType. rewrite Heq, Hl. reflexivity.
Qed.

Lemma afterExpression_binding_throws expr c1 e :
  type (peekAt c1) = TokenType.Equal ->
  parseFunlhs expr c1 = Throw e ->
  afterExpression expr c1 = Throw e.
Proof.
  intros Heq Hl. unfold afterExpression, isType. rewrite Heq, Hl. reflexivity.
Qed.

Lemma parse_binding f xs eq code eof :
  identifiers (f :: xs) ->
  type eq = TokenType.Equal -> type code = TokenType.CodeLiteral ->
  type eof = TokenType.EOF ->
  parsesTo operators expressionBounds (f :: xs ++ [eq; code; eof])
    (Returned [Stmt.Binding f xs code] []).
Proof.
  intros Hids Heq Hcode Heof.
  pose proof (identifiers_atoms _ Hids) as Hatoms.
  apply Forall_cons in Hatoms as [Hf Hxs].
  set (c0 := mkCursor (f :: xs ++ [eq; code; eof]) 0).
  set (c1 := skip (S (length xs)) c0).
  assert (Hahead : ahead c1 = [eq; code; eof]).
  { apply (ahead_skip_app c0 (f :: xs)). reflexivity. }
  pose proof (peekAt_cons _ _ _ Hahead) as Hpeek.
  pose proof (ahead_next_cons _ _ _ Hahead) as Hahead2.
  pose proof (peekAt_cons _ _ _ Hahead2) as Hpeek2.
  pose proof (ahead_next_cons _ _ _ Hahead2) as Hahead3.
  pose proof (peekAt_cons _ _ _ Hahead3) as Hpeek3.
  destruct (start_atom f (xs ++ [eq; code; eof]) Hf) as [H0 H1].
  apply (parse_first_statement _ (Stmt.Binding f xs code) (next (next c1)));
    try assumption.
  - replace (Ok (Stmt.Binding f xs code) (next (next c1)))
      with (afterExpression (spine f xs) c1).
    + apply statement_comesTo.
      apply (expression_comesTo_spine Number.zero c0 f xs [eq; code; eof]);
        [reflexivity|exact Hf|exact Hxs|].
      cbn. unfold endsExpression. rewrite Heq. reflexivity.
    + rewrite (afterExpression_binding _ _ (f :: xs))
        by (first [rewrite Hpeek; exact Heq | apply parseFunlhs_spine, Hids]).
      rewrite (checkAt_type TokenType.CodeLiteral)
        by (first [rewrite Hpeek2; exact Hcode | discriminate]).
      cbv zeta. unfold isAtEndAt. rewrite Hpeek2, Hpeek3, Heof. reflexivity.
  - apply parseLoop_comesTo_end. unfold isAtEndAt. rewrite Hpeek3, Heof. reflexivity.
Qed.

(** A binding: the program [f x1 ... xn = code] of identifiers is the one
    statement that binds [f] with the arguments [x1 ... xn] and the code
    literal as its initializer. *)
Theorem binding_statement_parses f xs eq code eof :
  identifiers (f :: xs) ->
  type eq = TokenType.Equal -> type code = TokenType.CodeLiteral ->
  type eof = TokenType.EOF ->
  parsesTo operators expressionBounds (f :: xs ++ [eq; code; eof])
    (Returned [Stmt.Binding f xs code] []).
Proof. exact (parse_binding f xs eq code eof). Qed.

(** The left-hand side of a binding must be variables: in [... = ...]
    whose left-hand side is an application of identifiers, numbers and
    strings, the error is at the leftmost token that is no identifier; the
    [catch] block of [parse] gets the literal of that token, and reports
    the error with the span [expressionBounds] resolves for it; nothing is
    bound and the [=] is not consumed. *)
Theorem binding_left_side_must_be_variables pre bad post eq rest :
  identifiers pre -> isAtom bad = true ->
  isType TokenType.Identifier bad = false -> atoms post ->
  type eq = TokenType.Equal ->
  parsesTo operators expressionBounds (pre ++ bad :: post ++ eq :: rest)
    (report expressionBounds [] (AtExpr (atomExpr bad)) expectedVariable)
  /\ forall from to,
       expressionBounds (atomExpr bad) = Some (from, to) ->
       parsesTo operators expressionBounds (pre ++ bad :: post ++ eq :: rest)
         (Returned [] [ReportSpan from to expectedVariable]).
Proof.
  intros Hpre Hbad Hnot Hpost Heq.
  assert (Hrun : parsesTo operators expressionBounds
                   (pre ++ bad :: post ++ eq :: rest)
                   (report expressionBounds [] (AtExpr (atomExpr bad))
                      expectedVariable));
    [|split; [exact Hrun|];
      intros from to E; unfold report in Hrun; rewrite E in Hrun; exact Hrun].
  assert (Hall : atoms (pre ++ bad :: post)).
  { apply Forall_app. split; [apply identifiers_atoms, Hpre|].
    apply Forall_cons. split; assumption. }
  destruct (pre ++ bad :: post) as [|f xs] eqn:E.
  { destruct pre; discriminate E. }
  apply Forall_cons in Hall as [Hf Hxs].
  replace (pre ++ bad :: post ++ eq :: rest) with (f :: xs ++ eq :: rest)
    by (change (f :: xs ++ eq :: rest) with ((f :: xs) ++ eq :: rest);
        rewrite <- E, <- app_assoc; reflexivity).
  set (c0 := mkCursor (f :: xs ++ eq :: rest) 0).
  set (c1 := skip (S (length xs)) c0).
  assert (Hahead : ahead c1 = eq :: rest).
  { apply (ahead_skip_app c0 (f :: xs)). reflexivity. }
  pose proof (peekAt_cons _ _ _ Hahead) as Hpeek.
  destruct (start_atom f (xs ++ eq :: rest) Hf) as [H0 H1].
  apply (parse_first_error _ (AtExpr (atomExpr bad))); try assumption.
  replace (Throw (ParseError (AtExpr (atomExpr bad)) expectedVariable))
    with (afterExpression (spine f xs) c1).
  - apply statement_comesTo.
    apply (expression_comesTo_spine Number.zero c0 f xs (eq :: rest));
      [reflexivity|exact Hf|exact Hxs|].
    cbn. unfold endsExpression. rewrite Heq. reflexivity.
  - apply afterExpression_binding_throws; [rewrite Hpeek; exact Heq|].
    apply (parseFunlhs_first_bad pre bad post); [symmetry; exact E|assumption..].
Qed.

(** The right-hand side of a binding must be a code literal: after
    [f x1 ... xn =] any other token is reported, and nothing is bound. *)
Theorem binding_right_side_must_be_code f xs eq other rest :
  identifiers (f :: xs) ->
  type eq = TokenType.Equal -> type other <> TokenType.CodeLiteral ->
  parsesTo operators expressionBounds (f :: xs ++ eq :: other :: rest)
    (Returned [] [ReportToken other expectedCode]).
Proof.
  intros Hids Heq Hother.
  pose proof (identifiers_atoms _ Hids) as Hatoms.
  apply Forall_cons in Hatoms as [Hf Hxs].
  set (c0 := mkCursor (f :: xs ++ eq :: other :: rest) 0).
  set (c1 := skip (S (length xs)) c0).
  assert (Hahead : ahead c1 = eq :: other :: rest).
  { apply (ahead_skip_app c0 (f :: xs)). reflexivity. }
  pose proof (peekAt_cons _ _ _ Hahead) as Hpeek.
  pose proof (ahead_next_cons _ _ _ Hahead) as Hahead2.
  pose proof (peekAt_cons _ _ _ Hahead2) as Hpeek2.
  destruct (start_atom f (xs ++ eq :: other :: rest) Hf) as [H0 H1].
  apply (parse_first_error _ (AtToken other)); try assumption.
  replace (Throw (ParseError (AtToken other) expectedCode))
    with (afterExpression (spine f xs) c1).
  - apply statement_comesTo.
    apply (expression_comesTo_spine Number.zero c0 f xs (eq :: other :: rest));
      [reflexivity|exact Hf|exact Hxs|].
    cbn. unfold endsExpression. rewrite Heq. reflexivity.
  - rewrite (afterExpression_binding _ _ (f :: xs))
      by (first [rewrite Hpeek; exact Heq | apply parseFunlhs_spine, Hids]).
    rewrite (checkAt_other TokenType.CodeLiteral) by (rewrite Hpeek2; exact Hother).
    rewrite Hpeek2. reflexivity.
Qed.

(** *** One expression *)

Lemma application_comesTo_spine c f xs rest :
  ahead c = f :: xs ++ rest ->
  isAtom f = true -> atoms xs ->
  peekFunctionTermAt (skip (S (length xs)) c) = false ->
  comesTo (fun fuel => application operators fuel c)
    (Ok (spine f xs) (skip (S (length xs)) c)).
Proof.
  intros Hahead Hf Hxs Hterm.
  pose proof (peekAt_cons _ _ _ Hahead) as Hpeek.
  apply (application_comesTo operators c (atomExpr f) (next c)).
  - rewrite <- Hpeek. apply grouping_comesTo_atom. rewrite Hpeek. exact Hf.
  - apply (applicationLoop_atoms xs _ _ rest).
    + apply (ahead_next_cons _ _ _ Hahead).
    + exact Hxs.
    + rewrite skip_next. apply applicationLoop_comesTo_stop. exact Hterm.
Qed.

Lemma expression_comesTo_grouping precedence c expr c1 :
  comesTo (fun fuel => grouping operators fuel c) (Ok expr c1) ->
  endsExpression (peekAt c1) = true ->
  comesTo (fun fuel => expression operators fuel precedence c) (Ok expr c1).
Proof.
  intros Hg Hends. apply endsExpression_stops in Hends as (Hterm & Hop & _).
  apply (expression_comesTo operators precedence c expr c1).
  - apply (application_comesTo operators c expr c1); [exact Hg|].
    apply applicationLoop_comesTo_stop. exact Hterm.
  - apply expressionLoop_comesTo_stop. exact Hop.
Qed.

Lemma expression_comesTo_grouping_throw precedence c e :
  comesTo (fun fuel => grouping operators fuel c) (Throw e) ->
  comesTo (fun fuel => expression operators fuel precedence c) (Throw e).
Proof.
  intros Hg. apply expression_comesTo_throw, application_comesTo_throw, Hg.
Qed.

Lemma parse_one_expression toks expr c1 :
  isAtEndAt (mkCursor toks 0) = false ->
  checkAt TokenType.LineBreak (mkCursor toks 0) = false ->
  comesTo (fun fuel => expression operators fuel Number.zero (mkCursor toks 0)) (Ok expr c1) ->
  isAtEndAt c1 = true ->
  parsesTo operators expressionBounds toks (Returned [Stmt.Expression expr] []).
Proof.
  intros H0 H1 He Hend.
  apply (parse_first_statement _ (Stmt.Expression expr) c1); try assumption.
  - rewrite <- (afterExpression_end expr c1 Hend). apply statement_comesTo, He.
  - apply parseLoop_comesTo_end, Hend.
Qed.

Lemma parse_one_error toks source message :
  isAtEndAt (mkCursor toks 0) = false ->
  checkAt TokenType.LineBreak (mkCursor toks 0) = false ->
  comesTo (fun fuel => expression operators fuel Number.zero (mkCursor toks 0))
    (Throw (ParseError source message)) ->
  parsesTo operators expressionBounds toks
    (report expressionBounds [] source message).
Proof.
  intros H0 H1 He. apply parse_first_error; try assumption.
  apply statement_comesTo_throw, He.
Qed.

Lemma start_type tok rest :
  type tok <> TokenType.EOF -> type tok <> TokenType.LineBreak ->
  isAtEndAt (mkCursor (tok :: rest) 0) = false
  /\ checkAt TokenType.LineBreak (mkCursor (tok :: rest) 0) = false.
Proof.
  intros H1 H2. unfold checkAt, isAtEndAt.
  change (peekAt (mkCursor (tok :: rest) 0)) with tok.
  destruct (type tok); try contradiction; split; reflexivity.
Qed.

(** *** Lists *)

(** The items of a list after the first: a comma and an item, each. *)
Definition separated (more : list (Token * Token)) : list Token :=
  flat_map (fun p => [p.1; p.2]) more.

Definition isItem (p : Token * Token) : Prop :=
  type p.1 = TokenType.Comma /\ isAtom p.2 = true.

Definition itemsOf (more : list (Token * Token)) : list Expr.t :=
  (fun p => atomExpr p.2) <$> more.

Lemma separated_head more rest :
  Forall isItem more ->
  endsExpression (default eofToken (head rest)) = true ->
  endsExpression (default eofToken (head (separated more ++ rest))) = true.
Proof.
  intros Hmore Hrest. destruct Hmore as [|[comma y] more [Hc _] _]; [exact Hrest|].
  cbn. unfold endsExpression. cbn in Hc. rewrite Hc. reflexivity.
Qed.

Lemma listLoop_items more :
  forall items c rest r,
    items <> [] ->
    ahead c = separated more ++ rest ->
    Forall isItem more ->
    endsExpression (default eofToken (head rest)) = true ->
    comesTo (fun fuel => listLoop operators fuel (items ++ itemsOf more)
                           (skip (2 * length more) c)) r ->
    comesTo (fun fuel => listLoop operators fuel items c) r.
Proof.
  induction more as [|[comma y] more IH]; intros items c rest r Hne Hahead Hmore
    Hrest Hr.
  - cbn in Hr. rewrite skip_0, app_nil_r in Hr. exact Hr.
  - apply Forall_cons in Hmore as [[Hcomma Hy] Hmore]. cbn [fst snd] in Hcomma, Hy.
    change (separated ((comma, y) :: more) ++ rest)
      with (comma :: y :: separated more ++ rest) in Hahead.
    pose proof (peekAt_cons _ _ _ Hahead) as Hpeek.
    pose proof (ahead_next_cons _ _ _ Hahead) as Hahead2.
    pose proof (ahead_next_cons _ _ _ Hahead2) as Hahead3.
    apply (listLoop_comesTo_more operators items c (atomExpr y) (next (next c)));
      [exact Hne|rewrite Hpeek; exact Hcomma| |].
    + apply (expression_comesTo_atom Number.zero (next c) y (separated more ++ rest));
        [exact Hahead2|exact Hy|].
      apply separated_head; assumption.
    + apply (IH _ _ rest); [destruct items; discriminate|exact Hahead3|exact Hmore
                           |exact Hrest|].
      rewrite !skip_next.
      replace (S (S (2 * length more))) with (2 * length ((comma, y) :: more))
        by (cbn [length]; lia).
      rewrite <- app_assoc. exact Hr.
Qed.

Lemma listLoop_from_first c x more rest r :
  ahead c = x :: separated more ++ rest ->
  isAtom x = true -> Forall isItem more ->
  endsExpression (default eofToken (head rest)) = true ->
  comesTo (fun fuel => listLoop operators fuel (atomExpr x :: itemsOf more)
                         (skip (S (2 * length more)) c)) r ->
  comesTo (fun fuel => listLoop operators fuel [] c) r.
Proof.
  intros Hahead Hx Hmore Hrest Hr.
  pose proof (peekAt_cons _ _ _ Hahead) as Hpeek.
  assert (Hstart : isAtom (peekAt c) = true) by (rewrite Hpeek; exact Hx).
  apply isAtom_starts in Hstart as (_ & Hend & _ & Hrb).
  apply (listLoop_comesTo_first operators c (atomExpr x) (next c));
    [exact Hrb|exact Hend| |].
  - apply (expression_comesTo_atom Number.zero c x (separated more ++ rest));
      [exact Hahead|exact Hx|apply separated_head; assumption].
  - apply (listLoop_items more [atomExpr x] (next c) rest);
      [discriminate|apply (ahead_next_cons _ _ _ Hahead)|exact Hmore|exact Hrest|].
    rewrite skip_next. exact Hr.
Qed.

(** The expression that is one list literal, up to the end of the
    program. *)
Lemma parse_list toks c1 items eof :
  type (peekAt (mkCursor toks 0)) = TokenType.LeftBracket ->
  comesTo (fun fuel => listLoop operators fuel [] (next (mkCursor toks 0)))
    (Ok items c1) ->
  ahead c1 = [eof] -> type eof = TokenType.EOF ->
  parsesTo operators expressionBounds toks
    (Returned [Stmt.Expression (Expr.List items)] []).
Proof.
  intros Hopen Hitems Hahead Heof.
  pose proof (peekAt_cons _ _ _ Hahead) as Hpeek.
  assert (Hend : isAtEndAt c1 = true).
  { unfold isAtEndAt. rewrite Hpeek, Heof. reflexivity. }
  assert (H0 : isAtEndAt (mkCursor toks 0) = false /\
               checkAt TokenType.LineBreak (mkCursor toks 0) = false).
  { unfold checkAt, isAtEndAt. rewrite Hopen. split; reflexivity. }
  destruct H0 as [H0 H1].
  apply (parse_one_expression _ (Expr.List items) c1); try assumption.
  apply expression_comesTo_grouping.
  - apply grouping_comesTo_list; assumption.
  - unfold endsExpression. rewrite Hpeek, Heof. reflexivity.
Qed.

Lemma parse_list_error toks source message :
  type (peekAt (mkCursor toks 0)) = TokenType.LeftBracket ->
  comesTo (fun fuel => listLoop operators fuel [] (next (mkCursor toks 0)))
    (Throw (ParseError source message)) ->
  parsesTo operators expressionBounds toks
    (report expressionBounds [] source message).
Proof.
  intros Hopen Hitems.
  assert (H0 : isAtEndAt (mkCursor toks 0) = false /\
               checkAt TokenType.LineBreak (mkCursor toks 0) = false).
  { unfold checkAt, isAtEndAt. rewrite Hopen. split; reflexivity. }
  destruct H0 as [H0 H1].
  apply parse_one_error; try assumption.
  apply expression_comesTo_grouping_throw, grouping_comesTo_list_throw; assumption.
Qed.

(** A list literal: [[ x1 , ... , xn ]] is the list of its items in
    order, and [[ ]] is the empty list. *)
Theorem list_literal_parses open x more close eof :
  type open = TokenType.LeftBracket -> type close = TokenType.RightBracket ->
  type eof = TokenType.EOF ->
  isAtom x = true -> Forall isItem more ->
  parsesTo operators expressionBounds (open :: x :: separated more ++ [close; eof])
    (Returned [Stmt.Expression (Expr.List (atomExpr x :: itemsOf more))] [])
  /\ parsesTo operators expressionBounds [open; close; eof]
       (Returned [Stmt.Expression (Expr.List [])] []).
Proof.
  intros Hopen Hclose Heof Hx Hmore. split.
  - set (c0 := mkCursor (open :: x :: separated more ++ [close; eof]) 0).
    set (c1 := skip (S (2 * length more)) (next c0)).
    assert (Hahead0 : ahead (next c0) = x :: separated more ++ [close; eof])
      by reflexivity.
    assert (Hlen : length (x :: separated more) = S (2 * length more)).
    { cbn [length]. f_equal. unfold separated. clear.
      induction more as [|p more IH]; [reflexivity|]. cbn [flat_map app length].
      rewrite IH. lia. }
    assert (Hahead1 : ahead c1 = [close; eof]).
    { unfold c1. rewrite <- Hlen.
      apply (ahead_skip_app (next c0) (x :: separated more)). exact Hahead0. }
    pose proof (peekAt_cons _ _ _ Hahead1) as Hpeek1.
    apply (parse_list _ (next c1) (atomExpr x :: itemsOf more) eof);
      [exact Hopen| |apply (ahead_next_cons _ _ _ Hahead1)|exact Heof].
    apply (listLoop_from_first (next c0) x more [close; eof]);
      [exact Hahead0|exact Hx|exact Hmore| |].
    + cbn. unfold endsExpression. rewrite Hclose. reflexivity.
    + apply listLoop_comesTo_close. rewrite Hpeek1. exact Hclose.
  - apply (parse_list _ (next (next (mkCursor [open; close; eof] 0))) [] eof);
      [exact Hopen| |reflexivity|exact Heof].
    apply listLoop_comesTo_close. exact Hclose.
Qed.

Lemma separated_length more : length (separated more) = 2 * length more.
Proof.
  unfold separated. induction more as [|p more IH]; [reflexivity|].
  cbn [flat_map app length]. rewrite IH. lia.
Qed.

Lemma ahead_after_items c x more rest :
  ahead c = x :: separated more ++ rest ->
  ahead (skip (S (2 * length more)) c) = rest.
Proof.
  intros H. rewrite <- separated_length.
  apply (ahead_skip_app c (x :: separated more)). exact H.
Qed.

(** A list that is not closed, and items that no comma separates: the
    list whose items are followed by the end of the program is reported
    there as unterminated; the list whose items are followed by a token
    that is no comma and no closing bracket is reported at that token. *)
Theorem list_literal_errors open x more :
  type open = TokenType.LeftBracket ->
  isAtom x = true -> Forall isItem more ->
  (forall eof,
     type eof = TokenType.EOF ->
     parsesTo operators expressionBounds (open :: x :: separated more ++ [eof])
       (Returned [] [ReportToken eof "Unterminated list literal"])
     /\ parsesTo operators expressionBounds [open; eof]
          (Returned [] [ReportToken eof "Unterminated list literal"]))
  /\ (forall stray rest,
     endsExpression stray = true ->
     type stray <> TokenType.RightBracket -> type stray <> TokenType.Comma ->
     type stray <> TokenType.EOF ->
     parsesTo operators expressionBounds (open :: x :: separated more ++ stray :: rest)
       (Returned [] [ReportToken stray "Expect ',' after list items"])).
Proof.
  intros Hopen Hx Hmore. split.
  - intros eof Heof. split.
    + set (c0 := mkCursor (open :: x :: separated more ++ [eof]) 0).
      assert (Hahead0 : ahead (next c0) = x :: separated more ++ [eof]) by reflexivity.
      pose proof (ahead_after_items _ _ _ _ Hahead0) as Hahead1.
      pose proof (peekAt_cons _ _ _ Hahead1) as Hpeek1.
      apply (parse_list_error _ (AtToken eof)); [exact Hopen|].
      apply (listLoop_from_first (next c0) x more [eof]);
        [exact Hahead0|exact Hx|exact Hmore| |].
      * cbn. unfold endsExpression. rewrite Heof. reflexivity.
      * rewrite <- Hpeek1. apply listLoop_comesTo_unterminated.
        unfold isAtEndAt. rewrite Hpeek1, Heof. reflexivity.
    + apply (parse_list_error _ (AtToken eof)); [exact Hopen|].
      change eof with (peekAt (next (mkCursor [open; eof] 0))) at 2.
      apply listLoop_comesTo_unterminated.
      unfold isAtEndAt. change (peekAt (next (mkCursor [open; eof] 0))) with eof.
      rewrite Heof. reflexivity.
  - intros stray rest Hends Hrb Hcomma Heof.
    set (c0 := mkCursor (open :: x :: separated more ++ stray :: rest) 0).
    assert (Hahead0 : ahead (next c0) = x :: separated more ++ stray :: rest)
      by reflexivity.
    pose proof (ahead_after_items _ _ _ _ Hahead0) as Hahead1.
    pose proof (peekAt_cons _ _ _ Hahead1) as Hpeek1.
    apply (parse_list_error _ (AtToken stray)); [exact Hopen|].
    apply (listLoop_from_first (next c0) x more (stray :: rest));
      [exact Hahead0|exact Hx|exact Hmore|exact Hends|].
    rewrite <- Hpeek1. apply listLoop_comesTo_no_comma.
    + discriminate.
    + unfold isAtEndAt. rewrite Hpeek1.
      destruct (type stray); try reflexivity. contradiction Heof. reflexivity.
    + rewrite Hpeek1. exact Hrb.
    + rewrite Hpeek1. exact Hcomma.
Qed.

(** A comma before the closing bracket adds an empty item: after the
    comma [expression] is called at the bracket, returns the empty
    expression without consuming anything, and the loop pushes it. *)
Theorem trailing_comma_adds_empty_item open x more comma close eof :
  type open = TokenType.LeftBracket -> type comma = TokenType.Comma ->
  type close = TokenType.RightBracket -> type eof = TokenType.EOF ->
  isAtom x = true -> Forall isItem more ->
  parsesTo operators expressionBounds
    (open :: x :: separated more ++ [comma; close; eof])
    (Returned
       [Stmt.Expression (Expr.List (atomExpr x :: itemsOf more ++ [Expr.Empty]))] []).
Proof.
  intros Hopen Hcomma Hclose Heof Hx Hmore.
  set (c0 := mkCursor (open :: x :: separated more ++ [comma; close; eof]) 0).
  set (c1 := skip (S (2 * length more)) (next c0)).
  assert (Hahead0 : ahead (next c0) = x :: separated more ++ [comma; close; eof])
    by reflexivity.
  pose proof (ahead_after_items _ _ _ _ Hahead0) as Hahead1. fold c1 in Hahead1.
  pose proof (peekAt_cons _ _ _ Hahead1) as Hpeek1.
  pose proof (ahead_next_cons _ _ _ Hahead1) as Hahead2.
  pose proof (peekAt_cons _ _ _ Hahead2) as Hpeek2.
  apply (parse_list _ (next (next c1)) (atomExpr x :: itemsOf more ++ [Expr.Empty]) eof);
    [exact Hopen| |apply (ahead_next_cons _ _ _ Hahead2)|exact Heof].
  apply (listLoop_from_first (next c0) x more [comma; close; eof]);
    [exact Hahead0|exact Hx|exact Hmore| |].
  - cbn. unfold endsExpression. rewrite Hcomma. reflexivity.
  - fold c1.
    apply (listLoop_comesTo_more operators _ c1 Expr.Empty (next c1));
      [discriminate|rewrite Hpeek1; exact Hcomma| |].
    + apply expression_comesTo_empty. unfold endsExpression.
      rewrite Hpeek2, Hclose. reflexivity.
    + apply listLoop_comesTo_close. rewrite Hpeek2. exact Hclose.
Qed.

(** *** Parentheses *)

Lemma applyAll_not_binary xs :
  forall e, (forall l o r q, e <> Expr.Binary l o r q) ->
            forall l o r q, applyAll e xs <> Expr.Binary l o r q.
Proof.
  induction xs as [|x xs IH]; intros e He; [exact He|].
  rewrite applyAll_cons. apply IH. discriminate.
Qed.

Lemma spine_not_binary f xs l o r q : spine f xs <> Expr.Binary l o r q.
Proof.
  apply applyAll_not_binary. intros l' o' r' q'. unfold atomExpr.
  destruct (isType _ _); discriminate.
Qed.

Lemma isAtom_types x :
  isAtom x = true ->
  isType TokenType.Operator x = false /\ type x <> TokenType.RightParen
  /\ type x <> TokenType.EOF /\ type x <> TokenType.LineBreak.
Proof.
  unfold isAtom, isType. destruct (type x); try discriminate; repeat split;
    discriminate.
Qed.

Lemma optionalOperator_some c :
  isType TokenType.Operator (peekAt c) = true ->
  optionalOperator c = (Some (peekAt c), next c).
Proof. intros H. unfold optionalOperator. rewrite H. reflexivity. Qed.

Lemma optionalOperator_none c :
  isType TokenType.Operator (peekAt c) = false -> optionalOperator c = (None, c).
Proof. intros H. unfold optionalOperator. rewrite H. reflexivity. Qed.

Lemma finishGrouping_left lp op expr rp c p a :
  operators !! lexeme op = Some (p, a) ->
  (forall l o r q, expr <> Expr.Binary l o r q) ->
  finishGrouping operators lp (Some op) None expr rp c
  = Ok (Expr.Grouping lp (Expr.Section op expr SideLeft) rp) c.
Proof.
  intros Hop Hexpr. unfold finishGrouping. cbn. rewrite Hop.
  destruct expr; try reflexivity. exfalso. eapply Hexpr. reflexivity.
Qed.

Lemma finishGrouping_right lp op expr rp c p a :
  operators !! lexeme op = Some (p, a) ->
  (forall l o r q, expr <> Expr.Binary l o r q) ->
  finishGrouping operators lp None (Some op) expr rp c
  = Ok (Expr.Grouping lp (Expr.Section op expr SideRight) rp) c.
Proof.
  intros Hop Hexpr. unfold finishGrouping. cbn. rewrite Hop.
  destruct expr; try reflexivity. exfalso. eapply Hexpr. reflexivity.
Qed.


(** The application [f x1 ... xn] inside parentheses, after [before]
    (the opening parenthesis and the operator that may follow it). *)
Lemma expression_inside c f xs rest :
  ahead c = f :: xs ++ rest ->
  isAtom f = true -> atoms xs ->
  endsExpression (default eofToken (head rest)) = true
  \/ (exists op more p a,
        rest = op :: more /\ type op = TokenType.Operator
        /\ operators !! lexeme op = Some (p, a)
        /\ type (default eofToken (head more)) = TokenType.RightParen) ->
  comesTo (fun fuel => expression operators fuel Number.zero c)
    (Ok (spine f xs) (skip (S (length xs)) c)).
Proof.
  intros Hahead Hf Hxs [Hends|(op & more & p & a & -> & Hop & Htable & Hrp)].
  - apply (expression_comesTo_spine Number.zero c f xs rest); assumption.
  - set (c1 := skip (S (length xs)) c).
    assert (Hahead1 : ahead c1 = op :: more).
    { apply (ahead_skip_app c (f :: xs)). exact Hahead. }
    pose proof (peekAt_cons _ _ _ Hahead1) as Hpeek1.
    apply (expression_comesTo operators Number.zero c (spine f xs) c1).
    + apply (application_comesTo_spine c f xs (op :: more)); try assumption.
      fold c1. unfold peekFunctionTermAt. rewrite Hpeek1, Hop. reflexivity.
    + apply (expressionLoop_comesTo_section operators Number.zero _ c1 p a).
      * unfold isType. rewrite Hpeek1, Hop. reflexivity.
      * rewrite Hpeek1. exact Htable.
      * unfold isType. rewrite (peekNextAt_cons _ _ _ Hahead1), Hrp. reflexivity.
Qed.

Lemma parse_operator_applied lp op rp xs eof :
  type lp = TokenType.LeftParen -> type op = TokenType.Operator ->
  type rp = TokenType.RightParen -> type eof = TokenType.EOF ->
  atoms xs ->
  parsesTo operators expressionBounds (lp :: op :: rp :: xs ++ [eof])
    (Returned [Stmt.Expression (applyAll (Expr.Var op) xs)] []).
Proof.
  intros Hlp Hop Hrp Heof Hxs.
  set (c0 := mkCursor (lp :: op :: rp :: xs ++ [eof]) 0).
  set (c3 := next (next (next c0))).
  set (c4 := skip (length xs) c3).
  assert (Hstart : isAtEndAt c0 = false /\ checkAt TokenType.LineBreak c0 = false).
  { apply start_type; rewrite Hlp; discriminate. }
  destruct Hstart as [H0 H1].
  assert (Hahead3 : ahead c3 = xs ++ [eof]) by reflexivity.
  assert (Hahead4 : ahead c4 = [eof]).
  { apply (ahead_skip_app c3 xs). exact Hahead3. }
  pose proof (peekAt_cons _ _ _ Hahead4) as Hpeek4.
  assert (Hopt0 : optionalOperator (next c0) = (Some op, next (next c0))).
  { apply (optionalOperator_some (next c0)). unfold isType.
    change (peekAt (next c0)) with op. rewrite Hop. reflexivity. }
  assert (Hends : endsExpression (peekAt c4) = true).
  { unfold endsExpression. rewrite Hpeek4, Heof. reflexivity. }
  apply endsExpression_stops in Hends as (Hterm & Hnop & _).
  apply (parse_one_expression _ _ c4); [exact H0|exact H1| |].
  - apply (expression_comesTo operators Number.zero c0 (applyAll (Expr.Var op) xs) c4).
    + apply (application_comesTo operators c0 (Expr.Var op) c3).
      * pose proof (grouping_comesTo_closed operators c0 Hlp) as Hg.
        rewrite Hopt0 in Hg. cbn [fst snd] in Hg. apply Hg.
        apply checkAt_type; [exact Hrp|discriminate].
      * apply (applicationLoop_atoms xs _ _ [eof]); [exact Hahead3|exact Hxs|].
        apply applicationLoop_comesTo_stop. exact Hterm.
    + apply expressionLoop_comesTo_stop. exact Hnop.
  - unfold isAtEndAt. rewrite Hpeek4, Heof. reflexivity.
Qed.

(** What is in parentheses.  [( f x1 ... xn )] is a group; with an
    operator of the table after the opening parenthesis it is the section
    that takes the left operand, with one before the closing parenthesis
    the section that takes the right operand, whatever the precedence of
    the operator. *)
Theorem parenthesised_forms lp f xs rp eof op :
  type lp = TokenType.LeftParen -> type rp = TokenType.RightParen ->
  type eof = TokenType.EOF -> type op = TokenType.Operator ->
  isAtom f = true -> atoms xs ->
  parsesTo operators expressionBounds (lp :: f :: xs ++ [rp; eof])
    (Returned [Stmt.Expression (Expr.Grouping lp (spine f xs) rp)] [])
  /\ (forall p a,
        operators !! lexeme op = Some (p, a) ->
        parsesTo operators expressionBounds (lp :: op :: f :: xs ++ [rp; eof])
          (Returned
             [Stmt.Expression
                (Expr.Grouping lp (Expr.Section op (spine f xs) SideLeft) rp)] [])
        /\ parsesTo operators expressionBounds (lp :: f :: xs ++ [op; rp; eof])
             (Returned
                [Stmt.Expression
                   (Expr.Grouping lp (Expr.Section op (spine f xs) SideRight) rp)]
                [])).
Proof.
  intros Hlp Hrp Heof Hop Hf Hxs.
  destruct (isAtom_types f Hf) as (Hfop & Hfrp & _).
  assert (Hstart : forall rest,
            isAtEndAt (mkCursor (lp :: rest) 0) = false
            /\ checkAt TokenType.LineBreak (mkCursor (lp :: rest) 0) = false).
  { intros rest. apply start_type; rewrite Hlp; discriminate. }
  assert (Hisop : isType TokenType.Operator op = true).
  { unfold isType. rewrite Hop. reflexivity. }
  assert (Hends_rp : endsExpression rp = true).
  { unfold endsExpression. rewrite Hrp. reflexivity. }
  assert (Hends_eof : endsExpression eof = true).
  { unfold endsExpression. rewrite Heof. reflexivity. }
  assert (Hend : forall c, peekAt c = eof -> isAtEndAt c = true).
  { intros c Hc. unfold isAtEndAt. rewrite Hc, Heof. reflexivity. }
  split.
  - set (c0 := mkCursor (lp :: f :: xs ++ [rp; eof]) 0).
    set (c1 := skip (S (length xs)) (next c0)).
    destruct (Hstart (f :: xs ++ [rp; eof])) as [H0 H1].
    assert (Hahead0 : ahead (next c0) = f :: xs ++ [rp; eof]) by reflexivity.
    assert (Hahead1 : ahead c1 = [rp; eof]).
    { apply (ahead_skip_app (next c0) (f :: xs)). exact Hahead0. }
    pose proof (peekAt_cons _ _ _ Hahead1) as Hpeek1.
    pose proof (ahead_next_cons _ _ _ Hahead1) as Hahead2.
    pose proof (peekAt_cons _ _ _ Hahead2) as Hpeek2.
    assert (Hopt0 : optionalOperator (next c0) = (None, next c0)).
    { apply optionalOperator_none. exact Hfop. }
    assert (Hopt1 : optionalOperator c1 = (None, c1)).
    { apply optionalOperator_none. rewrite Hpeek1.
      unfold isType. rewrite Hrp. reflexivity. }
    apply (parse_one_expression _ _ (next c1)); [exact H0|exact H1| |apply Hend, Hpeek2].
    apply expression_comesTo_grouping; [|rewrite Hpeek2; exact Hends_eof].
    pose proof (grouping_comesTo_paren operators c0 (spine f xs) c1 Hlp) as Hg.
    rewrite Hopt0, Hopt1 in Hg. cbn [fst snd] in Hg.
    unfold closeGrouping in Hg.
    rewrite (checkAt_type TokenType.RightParen c1) in Hg
      by (first [rewrite Hpeek1; exact Hrp | discriminate]).
    rewrite Hpeek1 in Hg. apply Hg.
    + apply checkAt_other. exact Hfrp.
    + apply (expression_inside (next c0) f xs [rp; eof]);
        [exact Hahead0|exact Hf|exact Hxs|left; exact Hends_rp].
  - intros p a Htable. split.
    + set (c0 := mkCursor (lp :: op :: f :: xs ++ [rp; eof]) 0).
      set (c1 := skip (S (length xs)) (next (next c0))).
      destruct (Hstart (op :: f :: xs ++ [rp; eof])) as [H0 H1].
      assert (Hahead0 : ahead (next (next c0)) = f :: xs ++ [rp; eof]) by reflexivity.
      assert (Hahead1 : ahead c1 = [rp; eof]).
      { apply (ahead_skip_app (next (next c0)) (f :: xs)). exact Hahead0. }
      pose proof (peekAt_cons _ _ _ Hahead1) as Hpeek1.
      pose proof (ahead_next_cons _ _ _ Hahead1) as Hahead2.
      pose proof (peekAt_cons _ _ _ Hahead2) as Hpeek2.
      assert (Hopt0 : optionalOperator (next c0) = (Some op, next (next c0))).
      { apply (optionalOperator_some (next c0)). exact Hisop. }
      assert (Hopt1 : optionalOperator c1 = (None, c1)).
      { apply optionalOperator_none. rewrite Hpeek1.
        unfold isType. rewrite Hrp. reflexivity. }
      apply (parse_one_expression _ _ (next c1));
        [exact H0|exact H1| |apply Hend, Hpeek2].
      apply expression_comesTo_grouping; [|rewrite Hpeek2; exact Hends_eof].
      pose proof (grouping_comesTo_paren operators c0 (spine f xs) c1 Hlp) as Hg.
      rewrite Hopt0, Hopt1 in Hg. cbn [fst snd] in Hg.
      unfold closeGrouping in Hg.
      rewrite (checkAt_type TokenType.RightParen c1) in Hg
        by (first [rewrite Hpeek1; exact Hrp | discriminate]).
      rewrite Hpeek1 in Hg.
      rewrite (finishGrouping_left _ _ _ _ _ p a Htable) in Hg
        by (intros; apply spine_not_binary).
      apply Hg.
      * apply checkAt_other. exact Hfrp.
      * apply (expression_inside (next (next c0)) f xs [rp; eof]);
          [exact Hahead0|exact Hf|exact Hxs|left; exact Hends_rp].
    + set (c0 := mkCursor (lp :: f :: xs ++ [op; rp; eof]) 0).
      set (c1 := skip (S (length xs)) (next c0)).
      destruct (Hstart (f :: xs ++ [op; rp; eof])) as [H0 H1].
      assert (Hahead0 : ahead (next c0) = f :: xs ++ [op; rp; eof]) by reflexivity.
      assert (Hahead1 : ahead c1 = [op; rp; eof]).
      { apply (ahead_skip_app (next c0) (f :: xs)). exact Hahead0. }
      pose proof (peekAt_cons _ _ _ Hahead1) as Hpeek1.
      pose proof (ahead_next_cons _ _ _ Hahead1) as Hahead2.
      pose proof (peekAt_cons _ _ _ Hahead2) as Hpeek2.
      pose proof (ahead_next_cons _ _ _ Hahead2) as Hahead3.
      pose proof (peekAt_cons _ _ _ Hahead3) as Hpeek3.
      assert (Hopt0 : optionalOperator (next c0) = (None, next c0)).
      { apply optionalOperator_none. exact Hfop. }
      assert (Hopt1 : optionalOperator c1 = (Some op, next c1)).
      { rewrite <- Hpeek1. apply optionalOperator_some. rewrite Hpeek1. exact Hisop. }
      apply (parse_one_expression _ _ (next (next c1)));
        [exact H0|exact H1| |apply Hend, Hpeek3].
      apply expression_comesTo_grouping; [|rewrite Hpeek3; exact Hends_eof].
      pose proof (grouping_comesTo_paren operators c0 (spine f xs) c1 Hlp) as Hg.
      rewrite Hopt0, Hopt1 in Hg. cbn [fst snd] in Hg.
      unfold closeGrouping in Hg.
      rewrite (checkAt_type TokenType.RightParen (next c1)) in Hg
        by (first [rewrite Hpeek2; exact Hrp | discriminate]).
      rewrite Hpeek2 in Hg.
      rewrite (finishGrouping_right _ _ _ _ _ p a Htable) in Hg
        by (intros; apply spine_not_binary).
      apply Hg.
      * apply checkAt_other. exact Hfrp.
      * apply (expression_inside (next c0) f xs [op; rp; eof]);
          [exact Hahead0|exact Hf|exact Hxs|].
        right. exists op, [rp; eof], p, a. repeat split; assumption.
Qed.

(** An operator in parentheses is a variable: [( op )] is the variable
    named by the operator, whether the table has the operator or not, and
    what follows it is applied to it like to any function,
    [( op ) x1 ... xn] being [(...((op x1) x2)...) xn]. *)
Theorem operator_in_parentheses_is_a_function lp op rp xs eof :
  type lp = TokenType.LeftParen -> type op = TokenType.Operator ->
  type rp = TokenType.RightParen -> type eof = TokenType.EOF ->
  atoms xs ->
  parsesTo operators expressionBounds (lp :: op :: rp :: xs ++ [eof])
    (Returned [Stmt.Expression (applyAll (Expr.Var op) xs)] []).
Proof. exact (parse_operator_applied lp op rp xs eof). Qed.

(** A parenthesis that is not closed, and a group with an operator on
    both sides: [( f x1 ... xn] followed by a token that is no closing
    parenthesis is reported at that token; [( op f x1 ... xn op' )] is
    reported at the closing parenthesis, and [op] is not even looked up. *)
Theorem parenthesis_errors lp f xs :
  type lp = TokenType.LeftParen -> isAtom f = true -> atoms xs ->
  (forall other rest,
     endsExpression other = true -> type other <> TokenType.RightParen ->
     parsesTo operators expressionBounds (lp :: f :: xs ++ other :: rest)
       (Returned [] [ReportToken other "Expect ')' after expression."]))
  /\ (forall op op' rp rest p a,
     type op = TokenType.Operator -> type op' = TokenType.Operator ->
     type rp = TokenType.RightParen ->
     operators !! lexeme op' = Some (p, a) ->
     parsesTo operators expressionBounds (lp :: op :: f :: xs ++ op' :: rp :: rest)
       (Returned [] [ReportToken rp "Expect expression."])).
Proof.
  intros Hlp Hf Hxs.
  destruct (isAtom_types f Hf) as (Hfop & Hfrp & _).
  assert (Hstart : forall rest,
            isAtEndAt (mkCursor (lp :: rest) 0) = false
            /\ checkAt TokenType.LineBreak (mkCursor (lp :: rest) 0) = false).
  { intros rest. apply start_type; rewrite Hlp; discriminate. }
  split.
  - intros other rest Hends Hother.
    set (c0 := mkCursor (lp :: f :: xs ++ other :: rest) 0).
    set (c1 := skip (S (length xs)) (next c0)).
    destruct (Hstart (f :: xs ++ other :: rest)) as [H0 H1].
    assert (Hahead0 : ahead (next c0) = f :: xs ++ other :: rest) by reflexivity.
    assert (Hahead1 : ahead c1 = other :: rest).
    { apply (ahead_skip_app (next c0) (f :: xs)). exact Hahead0. }
    pose proof (peekAt_cons _ _ _ Hahead1) as Hpeek1.
    assert (Hopt0 : optionalOperator (next c0) = (None, next c0)).
    { apply optionalOperator_none. exact Hfop. }
    assert (Hopt1 : optionalOperator c1 = (None, c1)).
    { apply optionalOperator_none.
      assert (He : endsExpression (peekAt c1) = true) by (rewrite Hpeek1; exact Hends).
      apply (endsExpression_stops c1 He). }
    apply (parse_one_error _ (AtToken other)); [exact H0|exact H1|].
    apply expression_comesTo_grouping_throw.
    pose proof (grouping_comesTo_paren operators c0 (spine f xs) c1 Hlp) as Hg.
    rewrite Hopt0, Hopt1 in Hg. cbn [fst snd] in Hg.
    unfold closeGrouping in Hg.
    rewrite (checkAt_other TokenType.RightParen c1) in Hg
      by (rewrite Hpeek1; exact Hother).
    rewrite Hpeek1 in Hg. apply Hg.
    + apply checkAt_other. exact Hfrp.
    + apply (expression_inside (next c0) f xs (other :: rest));
        [exact Hahead0|exact Hf|exact Hxs|left; exact Hends].
  - intros op op' rp rest p a Hop Hop' Hrp Htable.
    set (c0 := mkCursor (lp :: op :: f :: xs ++ op' :: rp :: rest) 0).
    set (c1 := skip (S (length xs)) (next (next c0))).
    destruct (Hstart (op :: f :: xs ++ op' :: rp :: rest)) as [H0 H1].
    assert (Hahead0 : ahead (next (next c0)) = f :: xs ++ op' :: rp :: rest)
      by reflexivity.
    assert (Hahead1 : ahead c1 = op' :: rp :: rest).
    { apply (ahead_skip_app (next (next c0)) (f :: xs)). exact Hahead0. }
    pose proof (peekAt_cons _ _ _ Hahead1) as Hpeek1.
    pose proof (ahead_next_cons _ _ _ Hahead1) as Hahead2.
    pose proof (peekAt_cons _ _ _ Hahead2) as Hpeek2.
    assert (Hopt0 : optionalOperator (next c0) = (Some op, next (next c0))).
    { apply (optionalOperator_some (next c0)). unfold isType.
      change (peekAt (next c0)) with op. rewrite Hop. reflexivity. }
    assert (Hopt1 : optionalOperator c1 = (Some op', next c1)).
    { rewrite <- Hpeek1. apply optionalOperator_some. rewrite Hpeek1.
      unfold isType. rewrite Hop'. reflexivity. }
    apply (parse_one_error _ (AtToken rp)); [exact H0|exact H1|].
    apply expression_comesTo_grouping_throw.
    pose proof (grouping_comesTo_paren operators c0 (spine f xs) c1 Hlp) as Hg.
    rewrite Hopt0, Hopt1 in Hg. cbn [fst snd] in Hg.
    unfold closeGrouping in Hg.
    rewrite (checkAt_type TokenType.RightParen (next c1)) in Hg
      by (first [rewrite Hpeek2; exact Hrp | discriminate]).
    rewrite Hpeek2 in Hg. apply Hg.
    + apply checkAt_other. exact Hfrp.
    + apply (expression_inside (next (next c0)) f xs (op' :: rp :: rest));
        [exact Hahead0|exact Hf|exact Hxs|].
      right. exists op', (rp :: rest), p, a. repeat split; assumption.
Qed.


End Programs.

(** ** The parser reads only what is ahead *)

Section Locality.
Variable operators : gmap string (Number.t * Associativity).
Variable expressionBounds : Expr.t -> option (nat * nat).

Lemma bind_peekNext {A} (k : Token -> P A) c :
  bind peekNext k c = k (peekNextAt c) c.
Proof. reflexivity. Qed.

Lemma bind_peekFunctionTerm {A} (k : bool -> P A) c :
  bind peekFunctionTerm k c = k (peekFunctionTermAt c) c.
Proof. reflexivity. Qed.

(** *** Each function in terms of what it reads *)

Lemma expressionLoop_eq fuel precedence left c :
  expressionLoop operators (S fuel) precedence left c
  = if isType TokenType.Operator (peekAt c) then
      match operators !! lexeme (peekAt c) with
      | None => Throw (ParseError (AtToken (peekAt c)) (undefinedOperator (peekAt c)))
      | Some (q, assoc) =>
          if Number.ltb q precedence then Ok left c
          else if isType TokenType.RightParen (peekNextAt c) then Ok left c
          else
            bind (expression operators fuel
                    (match assoc with AssocLeft => Number.add q Number.one | AssocRight => q end))
              (fun right =>
                 if Expr.isEmpty left || Expr.isEmpty right
                 then throw (ParseError (AtToken (peekAt c))
                        (missingExpression (Expr.isEmpty left) (Expr.isEmpty right)
                           (peekAt c)))
                 else expressionLoop operators fuel precedence
                        (Expr.Binary left (peekAt c) right q))
              (next c)
      end
    else Ok left c.
Proof.
  rewrite expressionLoop_unfold, bind_peek.
  destruct (isType TokenType.Operator (peekAt c)) eqn:Hop; [|reflexivity].
  destruct (operators !! lexeme (peekAt c)) as [[q assoc]|]; [|reflexivity].
  destruct (Number.ltb q precedence); [reflexivity|].
  rewrite bind_peekNext.
  destruct (isType TokenType.RightParen (peekNextAt c)); [reflexivity|].
  rewrite bind_advance by (apply (isType_not_at_end _ _ Hop); discriminate).
  reflexivity.
Qed.

Lemma applicationLoop_eq fuel expr c :
  applicationLoop operators (S fuel) expr c
  = if peekFunctionTermAt c then
      bind (grouping operators fuel)
        (fun right => applicationLoop operators fuel (Expr.Application expr right)) c
    else Ok expr c.
Proof.
  rewrite applicationLoop_unfold, bind_peekFunctionTerm.
  destruct (peekFunctionTermAt c); reflexivity.
Qed.

Lemma grouping_eq fuel c :
  grouping operators (S fuel) c
  = if checkAt TokenType.LeftParen c then
      let leftOp := (optionalOperator (next c)).1 in
      let c0 := (optionalOperator (next c)).2 in
      if checkAt TokenType.RightParen c0 then
        match leftOp with
        | Some op => Ok (Expr.Var op) (next c0)
        | None => Throw (ThrownString
                    "Encountered unit literal, but unit isn't supported yet")
        end
      else
        match expression operators fuel Number.zero c0 with
        | Ok expr c1 =>
            closeGrouping operators (peekAt c) leftOp (optionalOperator c1).1 expr
              (optionalOperator c1).2
        | Throw e => Throw e
        | Starved => Starved
        end
    else functionTerm operators fuel c.
Proof.
  rewrite grouping_unfold, bind_match. cbn [existsb]. rewrite orb_false_r.
  destruct (checkAt TokenType.LeftParen c); [|reflexivity].
  rewrite bind_previous, previousAt_next, bind_peek.
  rewrite bind_optionalOperator, bind_match. cbn [existsb]. rewrite orb_false_r.
  cbv zeta.
  destruct (checkAt TokenType.RightParen (optionalOperator (next c)).2).
  - destruct (optionalOperator (next c)).1; reflexivity.
  - unfold bind at 1.
    destruct (expression operators fuel Number.zero (optionalOperator (next c)).2)
      as [expr c1| |]; [|reflexivity..].
    rewrite bind_peek, bind_optionalOperator, bind_consume. reflexivity.
Qed.

Lemma functionTerm_eq fuel c :
  functionTerm operators (S fuel) c
  = if checkAt TokenType.Number c || checkAt TokenType.String c then
      Ok (Expr.Literal (literal (peekAt c)) (peekAt c)) (next c)
    else if checkAt TokenType.Identifier c then Ok (Expr.Var (peekAt c)) (next c)
    else if checkAt TokenType.LeftBracket c then
      bind (listLoop operators fuel []) (fun items => ret (Expr.List items)) (next c)
    else Ok Expr.Empty c.
Proof.
  rewrite functionTerm_unfold, bind_match. cbn [existsb]. rewrite orb_false_r.
  destruct (checkAt TokenType.Number c || checkAt TokenType.String c).
  { rewrite bind_previous, previousAt_next. reflexivity. }
  rewrite bind_match. cbn [existsb]. rewrite orb_false_r.
  destruct (checkAt TokenType.Identifier c).
  { rewrite bind_previous, previousAt_next. reflexivity. }
  rewrite bind_match. cbn [existsb]. rewrite orb_false_r.
  destruct (checkAt TokenType.LeftBracket c); reflexivity.
Qed.

Lemma listLoop_eq fuel items c :
  listLoop operators (S fuel) items c
  = if checkAt TokenType.RightBracket c then Ok items (next c)
    else if isAtEndAt c then
      Throw (ParseError (AtToken (peekAt c)) "Unterminated list literal")
    else
      let more := fun c' =>
        bind (expression operators fuel Number.zero)
          (fun item => listLoop operators fuel (items ++ [item])) c' in
      if (0 <? length items)%nat then
        if checkAt TokenType.Comma c then more (next c)
        else Throw (ParseError (AtToken (peekAt c)) "Expect ',' after list items")
      else more c.
Proof.
  rewrite listLoop_unfold, bind_match. cbn [existsb]. rewrite orb_false_r.
  destruct (checkAt TokenType.RightBracket c); [reflexivity|].
  rewrite bind_isAtEnd. destruct (isAtEndAt c); [reflexivity|].
  cbv zeta. destruct (0 <? length items)%nat.
  - rewrite bind_bind, bind_consume.
    destruct (checkAt TokenType.Comma c); reflexivity.
  - rewrite bind_ret. reflexivity.
Qed.

(** *** Two cursors with the same tokens ahead *)

(** The same value and the same tokens left, or the same exception. *)
Definition alike {A} (r r' : Res A) : Prop :=
  match r, r' with
  | Ok a c, Ok a' c' => a = a' /\ ahead c = ahead c'
  | Throw e, Throw e' => e = e'
  | Starved, Starved => True
  | _, _ => False
  end.

Lemma alike_ok {A} (a : A) c d : ahead c = ahead d -> alike (Ok a c) (Ok a d).
Proof. intros H. split; [reflexivity|exact H]. Qed.

Lemma alike_bind {A B} (m m' : P A) (k k' : A -> P B) c d :
  alike (m c) (m' d) ->
  (forall a c1 d1, ahead c1 = ahead d1 -> alike (k a c1) (k' a d1)) ->
  alike (bind m k c) (bind m' k' d).
Proof.
  intros Hm Hk. unfold bind.
  destruct (m c) as [a c1| e |], (m' d) as [a' d1| e' |]; cbn in Hm;
    try contradiction; try discriminate.
  - destruct Hm as [-> Hm]. apply Hk, Hm.
  - exact Hm.
  - exact I.
Qed.

Lemma same_peek c d : ahead c = ahead d -> peekAt d = peekAt c.
Proof. intros H. rewrite !peekAt_ahead, H. reflexivity. Qed.

Lemma same_peekNext c d : ahead c = ahead d -> peekNextAt d = peekNextAt c.
Proof. intros H. rewrite !peekNextAt_ahead, H. reflexivity. Qed.

Lemma same_next c d : ahead c = ahead d -> ahead (next c) = ahead (next d).
Proof. intros H. rewrite !ahead_next, H. reflexivity. Qed.

Lemma same_isAtEnd c d : ahead c = ahead d -> isAtEndAt d = isAtEndAt c.
Proof. intros H. unfold isAtEndAt. rewrite (same_peek _ _ H). reflexivity. Qed.

Lemma same_checkAt ty c d : ahead c = ahead d -> checkAt ty d = checkAt ty c.
Proof.
  intros H. unfold checkAt. rewrite (same_isAtEnd _ _ H), (same_peek _ _ H).
  reflexivity.
Qed.

Lemma same_peekFunctionTerm c d :
  ahead c = ahead d -> peekFunctionTermAt d = peekFunctionTermAt c.
Proof.
  intros H. unfold peekFunctionTermAt. rewrite (same_peek _ _ H). reflexivity.
Qed.

Lemma same_optionalOperator c d :
  ahead c = ahead d ->
  (optionalOperator d).1 = (optionalOperator c).1
  /\ ahead (optionalOperator c).2 = ahead (optionalOperator d).2.
Proof.
  intros H. unfold optionalOperator. rewrite (same_peek _ _ H).
  destruct (isType TokenType.Operator (peekAt c)); cbn [fst snd].
  - split; [reflexivity|apply same_next, H].
  - split; [reflexivity|exact H].
Qed.

Lemma alike_finishGrouping lp leftOp rightOp expr rp c d :
  ahead c = ahead d ->
  alike (finishGrouping operators lp leftOp rightOp expr rp c)
        (finishGrouping operators lp leftOp rightOp expr rp d).
Proof.
  intros H. unfold finishGrouping.
  destruct leftOp, rightOp; try reflexivity; try (apply alike_ok, H);
    cbn [default];
    (destruct (operators !! _) as [[p a]|];
     [|rewrite !bind_peek, (same_peek _ _ H); reflexivity]);
    destruct expr; try (apply alike_ok, H);
    destruct (Number.ltb _ _); first [reflexivity | apply alike_ok, H].
Qed.

Lemma alike_closeGrouping lp leftOp rightOp expr c d :
  ahead c = ahead d ->
  alike (closeGrouping operators lp leftOp rightOp expr c)
        (closeGrouping operators lp leftOp rightOp expr d).
Proof.
  intros H. unfold closeGrouping.
  rewrite (same_checkAt _ _ _ H), (same_peek _ _ H).
  destruct (checkAt TokenType.RightParen c); [|reflexivity].
  apply alike_finishGrouping, same_next, H.
Qed.

(** With the same tokens ahead every function of the grammar returns the
    same expression and leaves the same tokens, or throws the same
    exception, whatever is behind the cursors. *)
Lemma grammar_local fuel :
  (forall precedence c d, ahead c = ahead d ->
     alike (expression operators fuel precedence c)
           (expression operators fuel precedence d))
  /\ (forall precedence left c d, ahead c = ahead d ->
        alike (expressionLoop operators fuel precedence left c)
              (expressionLoop operators fuel precedence left d))
  /\ (forall c d, ahead c = ahead d ->
        alike (application operators fuel c) (application operators fuel d))
  /\ (forall expr c d, ahead c = ahead d ->
        alike (applicationLoop operators fuel expr c)
              (applicationLoop operators fuel expr d))
  /\ (forall c d, ahead c = ahead d ->
        alike (grouping operators fuel c) (grouping operators fuel d))
  /\ (forall c d, ahead c = ahead d ->
        alike (functionTerm operators fuel c) (functionTerm operators fuel d))
  /\ (forall items c d, ahead c = ahead d ->
        alike (listLoop operators fuel items c) (listLoop operators fuel items d)).
Proof.
  induction fuel as [|fuel (IH1 & IH2 & IH3 & IH4 & IH5 & IH6 & IH7)].
  - repeat split; intros; exact I.
  - repeat split.
    + intros precedence c d H. rewrite !expression_unfold.
      apply alike_bind; [apply IH3, H|]. intros left c1 d1 H1. apply IH2, H1.
    + intros precedence left c d H. rewrite !expressionLoop_eq.
      rewrite (same_peek _ _ H), (same_peekNext _ _ H).
      destruct (isType TokenType.Operator (peekAt c)); [|apply alike_ok, H].
      destruct (operators !! lexeme (peekAt c)) as [[q assoc]|]; [|reflexivity].
      destruct (Number.ltb q precedence); [apply alike_ok, H|].
      destruct (isType TokenType.RightParen (peekNextAt c)); [apply alike_ok, H|].
      apply alike_bind; [apply IH1, same_next, H|]. intros right c1 d1 H1.
      destruct (Expr.isEmpty left || Expr.isEmpty right); [reflexivity|].
      apply IH2, H1.
    + intros c d H. rewrite !application_unfold.
      apply alike_bind; [apply IH5, H|]. intros expr c1 d1 H1. apply IH4, H1.
    + intros expr c d H. rewrite !applicationLoop_eq.
      rewrite (same_peekFunctionTerm _ _ H).
      destruct (peekFunctionTermAt c); [|apply alike_ok, H].
      apply alike_bind; [apply IH5, H|]. intros right c1 d1 H1. apply IH4, H1.
    + intros c d H. rewrite !grouping_eq.
      rewrite (same_checkAt _ _ _ H), (same_peek _ _ H).
      destruct (checkAt TokenType.LeftParen c); [|apply IH6, H].
      cbv zeta.
      destruct (same_optionalOperator _ _ (same_next _ _ H)) as [Hop H0].
      rewrite Hop, (same_checkAt _ _ _ H0).
      destruct (checkAt TokenType.RightParen (optionalOperator (next c)).2).
      * destruct (optionalOperator (next c)).1; [|reflexivity].
        apply alike_ok, same_next, H0.
      * pose proof (IH1 Number.zero _ _ H0) as He.
        destruct (expression operators fuel Number.zero (optionalOperator (next c)).2)
          as [expr c1| e |],
          (expression operators fuel Number.zero (optionalOperator (next d)).2)
          as [expr' d1| e' |]; cbn in He; try contradiction; try discriminate;
          try exact He.
        destruct He as [<- H1].
        destruct (same_optionalOperator _ _ H1) as [Hop1 H2].
        rewrite Hop1. apply alike_closeGrouping, H2.
    + intros c d H. rewrite !functionTerm_eq.
      rewrite !(same_checkAt _ _ _ H), (same_peek _ _ H).
      destruct (checkAt TokenType.Number c || checkAt TokenType.String c);
        [apply alike_ok, same_next, H|].
      destruct (checkAt TokenType.Identifier c); [apply alike_ok, same_next, H|].
      destruct (checkAt TokenType.LeftBracket c); [|apply alike_ok, H].
      apply alike_bind; [apply IH7, same_next, H|]. intros items c1 d1 H1.
      apply alike_ok, H1.
    + intros items c d H. rewrite !listLoop_eq.
      rewrite !(same_checkAt _ _ _ H), (same_isAtEnd _ _ H), (same_peek _ _ H).
      destruct (checkAt TokenType.RightBracket c); [apply alike_ok, same_next, H|].
      destruct (isAtEndAt c); [reflexivity|]. cbv zeta.
      assert (Hmore : forall c' d', ahead c' = ahead d' ->
        alike (bind (expression operators fuel Number.zero)
                 (fun item => listLoop operators fuel (items ++ [item])) c')
              (bind (expression operators fuel Number.zero)
                 (fun item => listLoop operators fuel (items ++ [item])) d')).
      { intros c' d' H'. apply alike_bind; [apply IH1, H'|].
        intros item c1 d1 H1. apply IH7, H1. }
      destruct (0 <? length items)%nat; [|apply Hmore, H].
      destruct (checkAt TokenType.Comma c); [apply Hmore, same_next, H|reflexivity].
Qed.

Lemma parseFunlhs_anywhere expr c d :
  parseFunlhs expr d
  = match parseFunlhs expr c with
    | Ok names _ => Ok names d
    | Throw e => Throw e
    | Starved => Starved
    end.
Proof.
  induction expr as [| | | | | name | l IHl r _ |]; try reflexivity.
  rewrite !parseFunlhs_application, IHl.
  destruct (parseFunlhs l c) as [names c1| |]; try reflexivity.
  destruct r; reflexivity.
Qed.

Lemma alike_afterExpression expr c d :
  ahead c = ahead d ->
  alike (afterExpression expr c) (afterExpression expr d).
Proof.
  intros H. unfold afterExpression.
  pose proof (same_next _ _ H) as H1. pose proof (same_next _ _ H1) as H2.
  rewrite (same_peek _ _ H), (same_isAtEnd _ _ H), (same_checkAt _ _ _ H).
  destruct (isType TokenType.ColonColon (peekAt c)); [reflexivity|].
  destruct (isType TokenType.Equal (peekAt c)).
  - rewrite (parseFunlhs_anywhere expr c d).
    destruct (parseFunlhs expr c) as [lhs c1| |]; [|reflexivity|exact I].
    rewrite (same_checkAt _ _ _ H1), (same_peek _ _ H1).
    destruct (checkAt TokenType.CodeLiteral (next c)); [|reflexivity].
    cbv zeta. rewrite (same_isAtEnd _ _ H2), (same_checkAt _ _ _ H2),
      (same_peek _ _ H2).
    destruct (isAtEndAt (next (next c))); [apply alike_ok, H2|].
    destruct (checkAt TokenType.LineBreak (next (next c)));
      [apply alike_ok, same_next, H2|reflexivity].
  - destruct (isAtEndAt c); [apply alike_ok, H|].
    destruct (checkAt TokenType.LineBreak c); [apply alike_ok, same_next, H|reflexivity].
Qed.

Lemma statement_starved fuel c :
  expression operators fuel Number.zero c = Starved -> statement operators fuel c = Starved.
Proof.
  intros He. unfold statement, declaration, bind. rewrite He. reflexivity.
Qed.

Lemma statement_local fuel c d :
  ahead c = ahead d ->
  alike (statement operators fuel c) (statement operators fuel d).
Proof.
  intros H. pose proof (proj1 (grammar_local fuel) Number.zero c d H) as He.
  destruct (expression operators fuel Number.zero c) as [expr c1| e |] eqn:Ec,
    (expression operators fuel Number.zero d) as [expr' d1| e' |] eqn:Ed; cbn in He;
    try contradiction; try discriminate.
  - destruct He as [<- H1].
    rewrite (statement_after _ _ _ _ _ Ec), (statement_after _ _ _ _ _ Ed).
    apply alike_afterExpression, H1.
  - subst e'. rewrite (statement_throws _ _ _ _ Ec), (statement_throws _ _ _ _ Ed).
    reflexivity.
  - rewrite (statement_starved _ _ Ec), (statement_starved _ _ Ed). exact I.
Qed.

Lemma parseLoop_local fuel :
  forall statements c d,
    ahead c = ahead d ->
    parseLoop operators expressionBounds fuel statements c
    = parseLoop operators expressionBounds fuel statements d.
Proof.
  induction fuel as [|fuel IH]; intros statements c d H; [reflexivity|].
  rewrite !parseLoop_unfold.
  rewrite (same_isAtEnd _ _ H), (same_checkAt _ _ _ H).
  destruct (isAtEndAt c) eqn:Hend; [reflexivity|].
  pose proof Hend as Hend'. rewrite <- (same_isAtEnd _ _ H) in Hend'.
  destruct (checkAt TokenType.LineBreak c).
  - unfold advance. rewrite Hend, Hend'. apply IH, same_next, H.
  - pose proof (statement_local fuel c d H) as Hs.
    destruct (statement operators fuel c) as [stmt c1| e |],
      (statement operators fuel d) as [stmt' d1| e' |]; cbn in Hs;
      try contradiction; try discriminate.
    + destruct Hs as [<- H1]. apply IH, H1.
    + subst e'. reflexivity.
    + reflexivity.
Qed.

(** The parser never looks behind the cursor: from two cursors with the
    same tokens ahead, whatever the tokens before them, an expression and
    a statement come to the same value with the same tokens left, or to
    the same exception, and the loop of [parse] to the same run. *)
Theorem parser_reads_only_ahead fuel c d :
  ahead c = ahead d ->
  (forall precedence,
     alike (expression operators fuel precedence c)
           (expression operators fuel precedence d))
  /\ alike (statement operators fuel c) (statement operators fuel d)
  /\ (forall statements,
        parseLoop operators expressionBounds fuel statements c
        = parseLoop operators expressionBounds fuel statements d).
Proof.
  intros H. split; [|split].
  - intros precedence. apply (proj1 (grammar_local fuel)), H.
  - apply statement_local, H.
  - intros statements. apply parseLoop_local, H.
Qed.

Definition blank (toks : list Token) : Prop :=
  Forall (fun tok => type tok = TokenType.LineBreak) toks.

Lemma parseLoop_blanks blanks :
  forall statements c r,
    blank blanks ->
    take (length blanks) (ahead c) = blanks ->
    comesTo (fun fuel => parseLoop operators expressionBounds fuel statements
                           (skip (length blanks) c)) r ->
    comesTo (fun fuel => parseLoop operators expressionBounds fuel statements c) r.
Proof.
  induction blanks as [|lb blanks IH]; intros statements c r Hblank Hahead Hr.
  - cbn [length] in Hr. rewrite skip_0 in Hr. exact Hr.
  - apply Forall_cons in Hblank as [Hlb Hblank].
    destruct (ahead c) as [|x rest] eqn:Ec; [discriminate Hahead|].
    cbn [length take] in Hahead. injection Hahead as -> Hrest.
    pose proof (peekAt_cons _ _ _ Ec) as Hpeek.
    apply parseLoop_comesTo_blank.
    + apply checkAt_type; [rewrite Hpeek; exact Hlb|discriminate].
    + apply IH; [exact Hblank| |].
      * rewrite (ahead_next_cons _ _ _ Ec). exact Hrest.
      * rewrite skip_next. exact Hr.
Qed.

(** Empty lines are ignored: line breaks at the start of the program, or
    between two statements, change nothing to what the loop of [parse]
    comes to. *)
Theorem blank_lines_are_ignored blanks :
  blank blanks ->
  (forall statements c d run,
     ahead c = blanks ++ ahead d ->
     comesTo (fun fuel => parseLoop operators expressionBounds fuel statements d) run ->
     comesTo (fun fuel => parseLoop operators expressionBounds fuel statements c) run)
  /\ (forall toks run,
        parsesTo operators expressionBounds toks run ->
        parsesTo operators expressionBounds (blanks ++ toks) run).
Proof.
  intros Hblank.
  assert (Hgen : forall statements c d run,
     ahead c = blanks ++ ahead d ->
     comesTo (fun fuel => parseLoop operators expressionBounds fuel statements d) run ->
     comesTo (fun fuel => parseLoop operators expressionBounds fuel statements c) run).
  { intros statements c d run Hahead Hrun.
    apply (parseLoop_blanks blanks); [exact Hblank| |].
    - rewrite Hahead, take_app_length. reflexivity.
    - eapply comesTo_ext; [|exact Hrun]. intros fuel. apply parseLoop_local.
      rewrite ahead_skip, Hahead, drop_app_length. reflexivity. }
  split; [exact Hgen|].
  intros toks run Hrun.
  apply (Hgen [] (mkCursor (blanks ++ toks) 0) (mkCursor toks 0) run);
    [reflexivity|exact Hrun].
Qed.

End Locality.

(** ** Lines compose *)

Section Composition.
Variable operators : gmap string (Number.t * Associativity).
Variable expressionBounds : Expr.t -> option (nat * nat).
Variables eof lb : Token.
Variable rest : list Token.
Hypothesis eof_type : type eof = TokenType.EOF.
Hypothesis lb_type : type lb = TokenType.LineBreak.

(** Two cursors into two programs that begin alike, where the first
    program ends and the second goes on with a line break: the same tokens
    ahead, then the end of the program for one and the line break and the
    rest for the other. *)
Definition sim (c d : Cursor) : Prop :=
  exists pre,
    Forall (fun tok => type tok <> TokenType.EOF) pre
    /\ ahead c = pre ++ [eof] /\ ahead d = pre ++ lb :: rest.

Lemma sim_cases c d :
  sim c d ->
  (peekAt c = eof /\ peekAt d = lb /\ ahead (next d) = rest)
  \/ (peekAt d = peekAt c /\ type (peekAt c) <> TokenType.EOF
      /\ sim (next c) (next d)).
Proof.
  intros ([|x pre] & Hpre & Hc & Hd); cbn [app] in Hc, Hd.
  - left. rewrite (peekAt_cons _ _ _ Hc), (peekAt_cons _ _ _ Hd).
    rewrite (ahead_next_cons _ _ _ Hd). repeat split.
  - right. apply Forall_cons in Hpre as [Hx Hpre].
    rewrite (peekAt_cons _ _ _ Hc), (peekAt_cons _ _ _ Hd).
    split; [reflexivity|]. split; [exact Hx|].
    exists pre. split; [exact Hpre|].
    rewrite (ahead_next_cons _ _ _ Hc), (ahead_next_cons _ _ _ Hd). split; reflexivity.
Qed.

Lemma sim_isType ty c d :
  sim c d -> ty <> TokenType.LineBreak -> ty <> TokenType.EOF ->
  isType ty (peekAt d) = isType ty (peekAt c).
Proof.
  intros H H1 H2. destruct (sim_cases _ _ H) as [(Hc & Hd & _)|(Hp & _)].
  - unfold isType. rewrite Hc, Hd, eof_type, lb_type.
    destruct ty; try reflexivity; contradiction.
  - rewrite Hp. reflexivity.
Qed.

Lemma sim_isAtEnd c d : sim c d -> isAtEndAt d = false.
Proof.
  intros H. unfold isAtEndAt.
  destruct (sim_cases _ _ H) as [(Hc & Hd & _)|(Hp & Hne & _)].
  - rewrite Hd, lb_type. reflexivity.
  - rewrite Hp. destruct (type (peekAt c)); try reflexivity. contradiction.
Qed.

Lemma sim_checkAt ty c d :
  sim c d -> ty <> TokenType.LineBreak -> checkAt ty d = checkAt ty c.
Proof.
  intros H H1. unfold checkAt. rewrite (sim_isAtEnd _ _ H).
  destruct (sim_cases _ _ H) as [(Hc & Hd & _)|(Hp & Hne & _)].
  - unfold isAtEndAt. rewrite Hc, Hd, eof_type, lb_type.
    destruct ty; try reflexivity; contradiction.
  - rewrite Hp. unfold isAtEndAt.
    destruct (type (peekAt c)); try reflexivity. contradiction.
Qed.

Lemma sim_peekFunctionTerm c d :
  sim c d -> peekFunctionTermAt d = peekFunctionTermAt c.
Proof.
  intros H. unfold peekFunctionTermAt.
  destruct (sim_cases _ _ H) as [(Hc & Hd & _)|(Hp & _)].
  - rewrite Hc, Hd, eof_type, lb_type. reflexivity.
  - rewrite Hp. reflexivity.
Qed.

Lemma sim_not_end c d :
  sim c d -> isAtEndAt c = false ->
  peekAt d = peekAt c /\ sim (next c) (next d).
Proof.
  intros H Hend. destruct (sim_cases _ _ H) as [(Hc & _)|(Hp & _ & Hs)].
  - unfold isAtEndAt in Hend. rewrite Hc, eof_type in Hend. discriminate.
  - split; assumption.
Qed.

Lemma sim_at_end c d :
  sim c d -> isAtEndAt c = true ->
  peekAt d = lb /\ ahead (next d) = rest.
Proof.
  intros H Hend. destruct (sim_cases _ _ H) as [(_ & Hd & Hn)|(_ & Hne & _)].
  - split; assumption.
  - unfold isAtEndAt in Hend. apply TokenType.eqb_eq in Hend. contradiction.
Qed.

Lemma sim_isType_next ty c d :
  sim c d -> isType ty (peekAt c) = true -> ty <> TokenType.EOF ->
  peekAt d = peekAt c /\ sim (next c) (next d).
Proof.
  intros H Hty Hne. apply (sim_not_end _ _ H).
  apply (isType_not_at_end _ _ Hty Hne).
Qed.

Lemma sim_checkAt_next ty c d :
  sim c d -> checkAt ty c = true ->
  peekAt d = peekAt c /\ sim (next c) (next d).
Proof.
  intros H Hty. apply (sim_not_end _ _ H). apply (checkAt_true _ _ Hty).
Qed.

Lemma sim_checkAt_same ty c d :
  sim c d -> isAtEndAt c = false -> checkAt ty d = checkAt ty c.
Proof.
  intros H Hend. unfold checkAt.
  rewrite (sim_isAtEnd _ _ H), Hend, (proj1 (sim_not_end _ _ H Hend)). reflexivity.
Qed.

Lemma sim_optionalOperator c d :
  sim c d ->
  (optionalOperator d).1 = (optionalOperator c).1
  /\ sim (optionalOperator c).2 (optionalOperator d).2.
Proof.
  intros H. unfold optionalOperator.
  rewrite (sim_isType TokenType.Operator _ _ H) by discriminate.
  destruct (isType TokenType.Operator (peekAt c)) eqn:E; cbn [fst snd].
  - destruct (sim_isType_next _ _ _ H E) as [Hp Hs]; [discriminate|].
    rewrite Hp. split; [reflexivity|exact Hs].
  - split; [reflexivity|exact H].
Qed.

(** When the first run returns, the second returns the same value. *)
Definition follows {A} (r r' : Res A) : Prop :=
  match r with
  | Ok a c1 => exists d1, r' = Ok a d1 /\ sim c1 d1
  | _ => True
  end.

Lemma follows_ok {A} (a : A) c d : sim c d -> follows (Ok a c) (Ok a d).
Proof. intros H. exists d. split; [reflexivity|exact H]. Qed.

Lemma follows_bind {A B} (m m' : P A) (k k' : A -> P B) c d :
  follows (m c) (m' d) ->
  (forall a c1 d1, sim c1 d1 -> follows (k a c1) (k' a d1)) ->
  follows (bind m k c) (bind m' k' d).
Proof.
  intros Hm Hk. unfold bind.
  destruct (m c) as [a c1| e |]; [|exact I..].
  destruct Hm as (d1 & -> & Hs). apply Hk, Hs.
Qed.

Lemma follows_finishGrouping lp leftOp rightOp expr rp c d :
  sim c d ->
  follows (finishGrouping operators lp leftOp rightOp expr rp c)
          (finishGrouping operators lp leftOp rightOp expr rp d).
Proof.
  intros H. unfold finishGrouping.
  destruct leftOp, rightOp; try exact I; try (apply follows_ok, H);
    cbn [default];
    (destruct (operators !! _) as [[p a]|]; [|exact I]);
    destruct expr; try (apply follows_ok, H);
    destruct (Number.ltb _ _); first [exact I | apply follows_ok, H].
Qed.

Lemma follows_closeGrouping lp leftOp rightOp expr c d :
  sim c d ->
  follows (closeGrouping operators lp leftOp rightOp expr c)
          (closeGrouping operators lp leftOp rightOp expr d).
Proof.
  intros H. unfold closeGrouping.
  rewrite (sim_checkAt TokenType.RightParen _ _ H) by discriminate.
  destruct (checkAt TokenType.RightParen c) eqn:E; [|exact I].
  destruct (sim_checkAt_next _ _ _ H E) as [Hp Hs].
  rewrite Hp. apply follows_finishGrouping, Hs.
Qed.

Lemma grammar_follows fuel :
  (forall precedence c d, sim c d ->
     follows (expression operators fuel precedence c)
             (expression operators fuel precedence d))
  /\ (forall precedence left c d, sim c d ->
        follows (expressionLoop operators fuel precedence left c)
                (expressionLoop operators fuel precedence left d))
  /\ (forall c d, sim c d ->
        follows (application operators fuel c) (application operators fuel d))
  /\ (forall expr c d, sim c d ->
        follows (applicationLoop operators fuel expr c)
                (applicationLoop operators fuel expr d))
  /\ (forall c d, sim c d ->
        follows (grouping operators fuel c) (grouping operators fuel d))
  /\ (forall c d, sim c d ->
        follows (functionTerm operators fuel c) (functionTerm operators fuel d))
  /\ (forall items c d, sim c d ->
        follows (listLoop operators fuel items c) (listLoop operators fuel items d)).
Proof.
  induction fuel as [|fuel (IH1 & IH2 & IH3 & IH4 & IH5 & IH6 & IH7)].
  - repeat split; intros; exact I.
  - repeat split.
    + intros precedence c d H. rewrite !expression_unfold.
      apply follows_bind; [apply IH3, H|]. intros left c1 d1 H1. apply IH2, H1.
    + intros precedence left c d H. rewrite !expressionLoop_eq.
      rewrite (sim_isType TokenType.Operator _ _ H) by discriminate.
      destruct (isType TokenType.Operator (peekAt c)) eqn:E; [|apply follows_ok, H].
      destruct (sim_isType_next _ _ _ H E) as [Hp Hs]; [discriminate|].
      rewrite Hp.
      destruct (operators !! lexeme (peekAt c)) as [[q assoc]|]; [|exact I].
      destruct (Number.ltb q precedence); [apply follows_ok, H|].
      change (peekNextAt d) with (peekAt (next d)).
      change (peekNextAt c) with (peekAt (next c)).
      rewrite (sim_isType TokenType.RightParen _ _ Hs) by discriminate.
      destruct (isType TokenType.RightParen (peekAt (next c))); [apply follows_ok, H|].
      apply follows_bind; [apply IH1, Hs|]. intros right c1 d1 H1.
      destruct (Expr.isEmpty left || Expr.isEmpty right); [exact I|].
      apply IH2, H1.
    + intros c d H. rewrite !application_unfold.
      apply follows_bind; [apply IH5, H|]. intros expr c1 d1 H1. apply IH4, H1.
    + intros expr c d H. rewrite !applicationLoop_eq.
      rewrite (sim_peekFunctionTerm _ _ H).
      destruct (peekFunctionTermAt c); [|apply follows_ok, H].
      apply follows_bind; [apply IH5, H|]. intros right c1 d1 H1. apply IH4, H1.
    + intros c d H. rewrite !grouping_eq.
      rewrite (sim_checkAt TokenType.LeftParen _ _ H) by discriminate.
      destruct (checkAt TokenType.LeftParen c) eqn:E; [|apply IH6, H].
      destruct (sim_checkAt_next _ _ _ H E) as [Hp Hs]. rewrite Hp. cbv zeta.
      destruct (sim_optionalOperator _ _ Hs) as [Hop H0].
      rewrite Hop, (sim_checkAt TokenType.RightParen _ _ H0) by discriminate.
      destruct (checkAt TokenType.RightParen (optionalOperator (next c)).2) eqn:E0.
      * destruct (optionalOperator (next c)).1; [|exact I].
        apply follows_ok. apply (sim_checkAt_next _ _ _ H0 E0).
      * pose proof (IH1 Number.zero _ _ H0) as He.
        destruct (expression operators fuel Number.zero (optionalOperator (next c)).2)
          as [expr c1| e |]; [|exact I..].
        destruct He as (d1 & -> & H1).
        destruct (sim_optionalOperator _ _ H1) as [Hop1 H2].
        rewrite Hop1. apply follows_closeGrouping, H2.
    + intros c d H. rewrite !functionTerm_eq.
      rewrite (sim_checkAt TokenType.Number _ _ H),
        (sim_checkAt TokenType.String _ _ H),
        (sim_checkAt TokenType.Identifier _ _ H),
        (sim_checkAt TokenType.LeftBracket _ _ H) by discriminate.
      destruct (checkAt TokenType.Number c || checkAt TokenType.String c) eqn:E.
      { assert (Hend : isAtEndAt c = false).
        { apply orb_true_iff in E as [E|E]; apply (checkAt_true _ _ E). }
        destruct (sim_not_end _ _ H Hend) as [Hp Hs].
        rewrite Hp. apply follows_ok, Hs. }
      destruct (checkAt TokenType.Identifier c) eqn:E1.
      { destruct (sim_checkAt_next _ _ _ H E1) as [Hp Hs].
        rewrite Hp. apply follows_ok, Hs. }
      destruct (checkAt TokenType.LeftBracket c) eqn:E2; [|apply follows_ok, H].
      destruct (sim_checkAt_next _ _ _ H E2) as [Hp Hs].
      apply follows_bind; [apply IH7, Hs|]. intros items c1 d1 H1.
      apply follows_ok, H1.
    + intros items c d H. rewrite !listLoop_eq.
      rewrite (sim_checkAt TokenType.RightBracket _ _ H),
        (sim_checkAt TokenType.Comma _ _ H), (sim_isAtEnd _ _ H) by discriminate.
      destruct (checkAt TokenType.RightBracket c) eqn:E.
      { apply follows_ok. apply (sim_checkAt_next _ _ _ H E). }
      destruct (isAtEndAt c) eqn:Hend; [exact I|]. cbv zeta.
      assert (Hmore : forall c' d', sim c' d' ->
        follows (bind (expression operators fuel Number.zero)
                   (fun item => listLoop operators fuel (items ++ [item])) c')
                (bind (expression operators fuel Number.zero)
                   (fun item => listLoop operators fuel (items ++ [item])) d')).
      { intros c' d' H'. apply follows_bind; [apply IH1, H'|].
        intros item c1 d1 H1. apply IH7, H1. }
      destruct (0 <? length items)%nat; [|apply Hmore, H].
      destruct (checkAt TokenType.Comma c) eqn:E1; [|exact I].
      apply Hmore. apply (sim_checkAt_next _ _ _ H E1).
Qed.

(** A statement of the first program is the same statement of the
    second; where the first program ends after it, the second has
    consumed the line break. *)
Definition followsStatement (r r' : Res Stmt.t) : Prop :=
  match r with
  | Ok stmt c1 =>
      exists d1, r' = Ok stmt d1
                 /\ (sim c1 d1 \/ (isAtEndAt c1 = true /\ ahead d1 = rest))
  | _ => True
  end.

Lemma follows_line (stmt : Stmt.t) c d :
  sim c d ->
  followsStatement
    (if isAtEndAt c then Ok stmt c
     else if checkAt TokenType.LineBreak c then Ok stmt (next c)
     else Throw (ParseError (AtToken (peekAt c)) "Expect new line after expression."))
    (if isAtEndAt d then Ok stmt d
     else if checkAt TokenType.LineBreak d then Ok stmt (next d)
     else Throw (ParseError (AtToken (peekAt d)) "Expect new line after expression.")).
Proof.
  intros H. rewrite (sim_isAtEnd _ _ H).
  destruct (isAtEndAt c) eqn:Hend.
  - destruct (sim_at_end _ _ H Hend) as [Hd Hn].
    rewrite (checkAt_type TokenType.LineBreak d)
      by (first [rewrite Hd; exact lb_type | discriminate]).
    exists (next d). split; [reflexivity|]. right. split; assumption.
  - rewrite (sim_checkAt_same _ _ _ H Hend).
    destruct (checkAt TokenType.LineBreak c); [|exact I].
    exists (next d). split; [reflexivity|]. left.
    apply (sim_not_end _ _ H Hend).
Qed.

Lemma follows_afterExpression expr c d :
  sim c d ->
  followsStatement (afterExpression expr c) (afterExpression expr d).
Proof.
  intros H. unfold afterExpression.
  rewrite (sim_isType TokenType.ColonColon _ _ H),
    (sim_isType TokenType.Equal _ _ H) by discriminate.
  destruct (isType TokenType.ColonColon (peekAt c)); [exact I|].
  destruct (isType TokenType.Equal (peekAt c)) eqn:E.
  - destruct (sim_isType_next _ _ _ H E) as [Hp Hs]; [discriminate|].
    rewrite (parseFunlhs_anywhere expr c d).
    destruct (parseFunlhs expr c) as [lhs c1| |]; [|exact I..].
    rewrite (sim_checkAt TokenType.CodeLiteral _ _ Hs) by discriminate.
    destruct (checkAt TokenType.CodeLiteral (next c)) eqn:E1; [|exact I].
    destruct (sim_checkAt_next _ _ _ Hs E1) as [Hp1 Hs1].
    cbv zeta. rewrite Hp1. apply follows_line, Hs1.
  - apply follows_line, H.
Qed.

Lemma follows_statement fuel c d :
  sim c d ->
  followsStatement (statement operators fuel c) (statement operators fuel d).
Proof.
  intros H. pose proof (proj1 (grammar_follows fuel) Number.zero c d H) as He.
  destruct (expression operators fuel Number.zero c) as [expr c1| e |] eqn:Ec.
  - destruct He as (d1 & Ed & H1).
    rewrite (statement_after _ _ _ _ _ Ec), (statement_after _ _ _ _ _ Ed).
    apply follows_afterExpression, H1.
  - rewrite (statement_throws _ _ _ _ Ec). exact I.
  - rewrite (statement_starved _ _ _ Ec). exact I.
Qed.

Lemma statement_comesTo_fixed fuel c r :
  statement operators fuel c = r -> r <> Starved ->
  comesTo (fun fuel => statement operators fuel c) r.
Proof.
  intros <- Hr. exists fuel. intros fuel' Hle.
  induction Hle as [|fuel' Hle IH]; [reflexivity|].
  rewrite (statement_settles operators fuel' c); rewrite IH; auto.
Qed.

Lemma parseLoop_follows fuel :
  forall statements c d s1 dr r,
    sim c d ->
    parseLoop operators expressionBounds fuel statements c = Returned s1 [] ->
    ahead dr = rest ->
    comesTo (fun fuel => parseLoop operators expressionBounds fuel s1 dr) r ->
    comesTo (fun fuel => parseLoop operators expressionBounds fuel statements d) r.
Proof.
  induction fuel as [|fuel IH]; intros statements c d s1 dr r H Hrun Hdr Hr;
    [discriminate Hrun|].
  assert (Hrest : forall d1, ahead d1 = rest ->
            comesTo (fun fuel => parseLoop operators expressionBounds fuel s1 d1) r).
  { intros d1 Hd1. eapply comesTo_ext; [|exact Hr].
    intros fuel'. apply parseLoop_local. congruence. }
  rewrite parseLoop_unfold in Hrun.
  pose proof (sim_isAtEnd _ _ H) as Hend_d.
  destruct (isAtEndAt c) eqn:Hend.
  - injection Hrun as <-.
    destruct (sim_at_end _ _ H Hend) as [Hd Hn].
    apply parseLoop_comesTo_blank.
    + apply checkAt_type; [rewrite Hd; exact lb_type|discriminate].
    + apply Hrest, Hn.
  - destruct (sim_not_end _ _ H Hend) as [Hp Hs].
    pose proof (sim_checkAt_same TokenType.LineBreak _ _ H Hend) as Hlb.
    destruct (checkAt TokenType.LineBreak c) eqn:E.
    + unfold advance in Hrun. rewrite Hend in Hrun.
      apply parseLoop_comesTo_blank; [exact Hlb|].
      apply (IH _ _ _ _ dr r Hs Hrun Hdr Hr).
    + pose proof (follows_statement fuel c d H) as Hst.
      destruct (statement operators fuel c) as [stmt c1| e |].
      * destruct Hst as (d1 & Ed & Hcase).
        apply (parseLoop_comesTo_statement operators expressionBounds
                 statements d stmt d1); [exact Hend_d|exact Hlb| |].
        -- apply (statement_comesTo_fixed fuel); [exact Ed|discriminate].
        -- destruct Hcase as [H1|[Hend1 Hd1]].
           ++ apply (IH _ _ _ _ dr r H1 Hrun Hdr Hr).
           ++ destruct fuel as [|fuel]; [discriminate Hrun|].
              rewrite parseLoop_unfold, Hend1 in Hrun. injection Hrun as <-.
              apply Hrest, Hd1.
      * destruct e as [[tok|expr] message| |]; cbn in Hrun;
          try discriminate Hrun.
        destruct (expressionBounds expr) as [[from to]|]; discriminate Hrun.
      * discriminate Hrun.
Qed.

End Composition.

Section Concatenation.
Variable operators : gmap string (Number.t * Associativity).
Variable expressionBounds : Expr.t -> option (nat * nat).

(** The run of what follows, after [statements]. *)
Definition prepend (statements : list Stmt.t) (run : Run) : Run :=
  match run with
  | Returned more reports => Returned (statements ++ more) reports
  | Propagated e => Propagated e
  | NoSpan more expr message => NoSpan (statements ++ more) expr message
  | OutOfFuel => OutOfFuel
  end.

Lemma prepend_prepend a b run : prepend a (prepend b run) = prepend (a ++ b) run.
Proof. destruct run; cbn; rewrite ?app_assoc; reflexivity. Qed.

Lemma parseLoop_prepend fuel :
  forall statements c,
    parseLoop operators expressionBounds fuel statements c
    = prepend statements (parseLoop operators expressionBounds fuel [] c).
Proof.
  induction fuel as [|fuel IH]; intros statements c; [reflexivity|].
  rewrite !parseLoop_unfold.
  destruct (isAtEndAt c); [cbn; rewrite app_nil_r; reflexivity|].
  destruct (checkAt TokenType.LineBreak c).
  - destruct (advance c); [apply IH|reflexivity..].
  - destruct (statement operators fuel c) as [stmt c1| e |]; [| |reflexivity].
    + rewrite (IH (statements ++ [stmt])), (IH ([] ++ [stmt])), prepend_prepend.
      reflexivity.
    + destruct e as [[tok|expr] message| |]; cbn; rewrite ?app_nil_r;
        try reflexivity.
      destruct (expressionBounds expr) as [[from to]|]; cbn;
        rewrite ?app_nil_r; reflexivity.
Qed.

Lemma parse_lines_compose first eof lb rest statements run :
  Forall (fun tok => type tok <> TokenType.EOF) first ->
  type eof = TokenType.EOF -> type lb = TokenType.LineBreak ->
  parsesTo operators expressionBounds (first ++ [eof]) (Returned statements []) ->
  parsesTo operators expressionBounds rest run ->
  parsesTo operators expressionBounds (first ++ lb :: rest) (prepend statements run).
Proof.
  intros Hfirst Heof Hlb [n Hn] [m Hm].
  apply (parseLoop_follows operators expressionBounds eof lb rest Heof Hlb n []
           (mkCursor (first ++ [eof]) 0) (mkCursor (first ++ lb :: rest) 0)
           statements (mkCursor rest 0)).
  - exists first. repeat split; [exact Hfirst].
  - apply Hn. lia.
  - reflexivity.
  - exists m. intros fuel Hfuel. rewrite parseLoop_prepend.
    unfold parse in Hm. rewrite Hm by exact Hfuel. reflexivity.
Qed.

(** Lines compose.  When a program parses without a report, the program
    made of it, a line break and more tokens comes to the statements of
    the first followed by what the rest alone comes to: the statements of
    the rest and its report, or the exception that leaves it. *)
Theorem clean_lines_compose first eof lb rest statements run :
  Forall (fun tok => type tok <> TokenType.EOF) first ->
  type eof = TokenType.EOF -> type lb = TokenType.LineBreak ->
  parsesTo operators expressionBounds (first ++ [eof]) (Returned statements []) ->
  parsesTo operators expressionBounds rest run ->
  parsesTo operators expressionBounds (first ++ lb :: rest) (prepend statements run).
Proof. exact (parse_lines_compose first eof lb rest statements run). Qed.

End Concatenation.
End ParserFacts.

(* ===================================================================== *)
(** * Sample programs *)
(* ===================================================================== *)

(* ===================================================================== *)
(** * From tokens to results *)
(* ===================================================================== *)

Module Pipeline.
Import Interpreter InterpreterFacts ParserFacts.

Section DefineThenCall.
Variable operators : gmap string (Number.t * Associativity).
Variable expressionBounds : Expr.t -> option (nat * nat).
Variable host : Host.










End DefineThenCall.

End Pipeline.

Module Samples.
Import Interpreter InterpreterFacts ParserFacts.

(** A number as the lexer stores it: an IEEE double. *)
Definition number (z : Z) : Number.t := Number.ofZ z.

Definition token (ty : TokenType.t) (text : string) (at_ : nat) : Token :=
  mkToken ty text PUndefined at_ (at_ + String.length text).

Definition identifier := token TokenType.Identifier.
Definition operator := token TokenType.Operator.
Definition leftParen := token TokenType.LeftParen "(".
Definition rightParen := token TokenType.RightParen ")".
Definition endOfInput := token TokenType.EOF "".

Definition numeral (z : Z) (text : string) (at_ : nat) : Token :=
  mkToken TokenType.Number text (PNumber (number z)) at_ (at_ + String.length text).

Definition code (body : string) (at_ : nat) : Token :=
  mkToken TokenType.CodeLiteral body (PString body) at_ (at_ + String.length body).

(** The properties a plain JavaScript object inherits from
    [Object.prototype]. *)
Definition prototypeKeys : list string :=
  ["constructor"; "toString"; "toLocaleString"; "valueOf"; "hasOwnProperty";
   "isPrototypeOf"; "propertyIsEnumerable"; "__proto__"; "__defineGetter__";
   "__defineSetter__"; "__lookupGetter__"; "__lookupSetter__"].

(** What a plain object inherits: the members of [Object.prototype], none
    of which has a [value] member. *)
Definition fromObjectPrototype (key : string) : option Value :=
  if existsb (String.eqb key) prototypeKeys then Some VUndefined else None.

(** A host with two arithmetic built-ins; every other host function
    returns the array of the arguments it received, and a compiled
    initializer returns its own source text; no function reads [this].
    The environment is a plain object. *)
Definition arithmetic : Host := {|
  hostCall f this args :=
    match f, args with
    | Native name, [VPrimitive (PNumber x); VPrimitive (PNumber y)] =>
        if String.eqb name "add" then inl (VPrimitive (PNumber (SFadd 53 1024 x y)))
        else if String.eqb name "mul" then inl (VPrimitive (PNumber (SFmul 53 1024 x y)))
        else inl (VArray args)
    | Native _, _ => inl (VArray args)
    | Compiled _ body, _ => inl (VPrimitive (PString body))
    end;
  syntaxError _ _ := None;
  hasRunIO _ := false;
  runIO _ := None;
  toString v :=
    match v with
    | VPrimitive (PString s) => inl s
    | _ => inl "[value]"
    end;
  inherited := fromObjectPrototype;
|}.

Lemma arithmetic_ignoresReceiver callee : ignoresReceiver arithmetic callee.
Proof. intros f _ this args. reflexivity. Defined.

Definition num (z : Z) : Value := VPrimitive (PNumber (number z)).

Definition builtins : gmap string Binding :=
  {[ "+" := mkBinding "" (VHost (Native "add"));
     "*" := mkBinding "" (VHost (Native "mul"));
     "f" := mkBinding "" (VHost (Native "f"));
     "x" := mkBinding "" (num 1);
     "y" := mkBinding "" (num 2);
     "z" := mkBinding "" (num 3) ]}.

Definition table : gmap string (Number.t * Associativity) :=
  {[ "+" := (number 6, AssocLeft); "*" := (number 7, AssocLeft);
     "-" := (number 6, AssocLeft); "^" := (number 8, AssocRight) ]}.

(** A span for every expression but [Empty]. *)
Definition noBounds (e : Expr.t) : option (nat * nat) :=
  match e with Expr.Empty => None | _ => Some (0, 0) end.

Definition var (x : string) (i : nat) : Expr.t := Expr.Var (identifier x i).

(** [f x y z] *)
Definition fxyz : Expr.t :=
  Expr.Application
    (Expr.Application (Expr.Application (var "f" 0) (var "x" 2)) (var "y" 4))
    (var "z" 6).

(** ** The parser on sample programs *)

Ltac run_parser n :=
  apply (parsesTo_from _ _ _ _ n); intros k; vm_compute; reflexivity.

Definition a_ := identifier "a" 0.
Definition b_ := identifier "b" 4.
Definition c_ := identifier "c" 8.

(** The three programs of the precedence claim, under [table]:
    [a + b * c], [a - b - c] and [a ^ b ^ c]. *)
Lemma infix_witness :
  Parser.parsesTo table noBounds
    [a_; operator "+" 2; b_; operator "*" 6; c_; endOfInput 9]
    (Parser.Returned
       [Stmt.Expression
          (nestRight a_ (operator "+" 2) b_ (operator "*" 6) c_ (number 6) (number 7))]
       [])
  /\ Parser.parsesTo table noBounds
       [a_; operator "-" 2; b_; operator "-" 6; c_; endOfInput 9]
       (Parser.Returned
          [Stmt.Expression
             (nestLeft a_ (operator "-" 2) b_ (operator "-" 6) c_ (number 6) (number 6))]
          [])
  /\ Parser.parsesTo table noBounds
       [a_; operator "^" 2; b_; operator "^" 6; c_; endOfInput 9]
       (Parser.Returned
          [Stmt.Expression
             (nestRight a_ (operator "^" 2) b_ (operator "^" 6) c_ (number 8) (number 8))]
          []).
Proof.
  split; [|split].
  - apply (proj1 (proj2 (proj2 (infix_precedence_and_associativity table noBounds
             a_ (operator "+" 2) b_ (operator "*" 6) c_ (endOfInput 9)
             (number 6) (number 7) AssocLeft AssocLeft eq_refl eq_refl eq_refl
             eq_refl eq_refl eq_refl eq_refl eq_refl))
             6%Z 7%Z eq_refl eq_refl ltac:(lia) ltac:(lia))).
    lia.
  - apply (proj1 (proj2 (proj2 (proj2 (proj2
             (infix_precedence_and_associativity table noBounds
                a_ (operator "-" 2) b_ (operator "-" 6) c_ (endOfInput 9)
                (number 6) (number 6) AssocLeft AssocLeft eq_refl eq_refl eq_refl
                eq_refl eq_refl eq_refl eq_refl eq_refl))
             6%Z 6%Z eq_refl eq_refl ltac:(lia) ltac:(lia)))));
      reflexivity.
  - apply (proj2 (proj2 (proj2 (proj2 (proj2
             (infix_precedence_and_associativity table noBounds
                a_ (operator "^" 2) b_ (operator "^" 6) c_ (endOfInput 9)
                (number 8) (number 8) AssocRight AssocRight eq_refl eq_refl eq_refl
                eq_refl eq_refl eq_refl eq_refl eq_refl))
             8%Z 8%Z eq_refl eq_refl ltac:(lia) ltac:(lia)))));
      reflexivity.
Defined.

(** A table may give an operator a negative precedence. *)
Definition lowTable : gmap string (Number.t * Associativity) :=
  {[ "+" := (number (-1), AssocLeft); "*" := (number 0, AssocLeft) ]}.

(** C1 fails for a table with a negative precedence: [*] is strictly
    higher than [+] in [lowTable], and [a + b * c] does not parse as
    [a + (b * c)]: [expression(0)] stops before [+], and the run is a syntax
    error at that token with no statement. *)
Lemma negative_precedence_counterexample :
  Parser.parsesTo lowTable noBounds
    [a_; operator "+" 2; b_; operator "*" 6; c_; endOfInput 9]
    (Parser.Returned []
       [ReportToken (operator "+" 2) "Expect new line after expression."])
  /\ ~ Parser.parsesTo lowTable noBounds
        [a_; operator "+" 2; b_; operator "*" 6; c_; endOfInput 9]
        (Parser.Returned
           [Stmt.Expression
              (nestRight a_ (operator "+" 2) b_ (operator "*" 6) c_
                 (number (-1)) (number 0))] []).
Proof.
  assert (H : Parser.parsesTo lowTable noBounds
                [a_; operator "+" 2; b_; operator "*" 6; c_; endOfInput 9]
                (Parser.Returned []
                   [ReportToken (operator "+" 2) "Expect new line after expression."]))
    by run_parser 30.
  split; [exact H|]. intros H'.
  discriminate (parsesTo_deterministic _ _ _ _ _ H H').
Qed.

(** A table may give an operator a precedence where adding one is not
    exact. *)
Definition hugeTable : gmap string (Number.t * Associativity) :=
  {[ "-" := (number (2 ^ 53), AssocLeft) ]}.

(** At precedence [2 ^ 53] the minimum of the right operand of a
    left-associative operator is [2 ^ 53] again, and [a - b - c] parses as
    [a - (b - c)]. *)
Example huge_precedence_nests_right :
  Number.add (number (2 ^ 53)) Number.one = number (2 ^ 53)
  /\ Parser.parsesTo hugeTable noBounds
       [a_; operator "-" 2; b_; operator "-" 6; c_; endOfInput 9]
       (Parser.Returned
          [Stmt.Expression
             (nestRight a_ (operator "-" 2) b_ (operator "-" 6) c_
                (number (2 ^ 53)) (number (2 ^ 53)))] []).
Proof. split; [vm_compute; reflexivity | run_parser 30]. Qed.

(** Under [table], where the star has precedence 7 and the plus 6: the
    sections of the star over [a + b], on either side, are rejected, and
    the sections of the plus over [a * b] are accepted. *)
Lemma section_guard_witness :
  (Parser.parsesTo table noBounds
     [leftParen 0; operator "*" 1; a_; operator "+" 5; b_; rightParen 9; endOfInput 10]
     (Parser.Returned [] [ReportToken (operator "*" 1) guardMessage])
   /\ Parser.parsesTo table noBounds
        [leftParen 0; a_; operator "+" 5; b_; operator "*" 1; rightParen 9; endOfInput 10]
        (Parser.Returned [] [ReportToken (operator "*" 1) guardMessage]))
  /\ Parser.parsesTo table noBounds
       [leftParen 0; operator "+" 1; a_; operator "*" 5; b_; rightParen 9; endOfInput 10]
       (Parser.Returned
          [Stmt.Expression
             (bareSection (leftParen 0) (operator "+" 1) a_ (operator "*" 5) b_
                (rightParen 9) (number 7))] [])
  /\ Parser.parsesTo table noBounds
       [leftParen 0; a_; operator "*" 5; b_; operator "+" 1; rightParen 9; endOfInput 10]
       (Parser.Returned
          [Stmt.Expression
             (trailingSection (leftParen 0) (operator "+" 1) a_ (operator "*" 5) b_
                (rightParen 9) (number 7))] []).
Proof.
  split.
  - apply (proj1 (section_precedence_guard table noBounds
             (leftParen 0) (operator "*" 1) (leftParen 0) a_ (operator "+" 5) b_
             (rightParen 9) (rightParen 9) (endOfInput 10)
             (number 7) (number 6) AssocLeft AssocLeft eq_refl eq_refl eq_refl eq_refl
             eq_refl eq_refl eq_refl eq_refl eq_refl eq_refl eq_refl eq_refl)).
    reflexivity.
  - apply (proj1 (proj2 (section_precedence_guard table noBounds
             (leftParen 0) (operator "+" 1) (leftParen 0) a_ (operator "*" 5) b_
             (rightParen 9) (rightParen 9) (endOfInput 10)
             (number 6) (number 7) AssocLeft AssocLeft eq_refl eq_refl eq_refl eq_refl
             eq_refl eq_refl eq_refl eq_refl eq_refl eq_refl eq_refl eq_refl))).
    reflexivity.
Defined.

(** C4 fails for the parenthesised operand it names: under [table] the
    operator [*] has a higher precedence than [+], and [( * ( a + b ) )] is
    accepted: the operand of the section is a [Grouping], which the guard
    does not look into. *)
Lemma wrapped_section_counterexample :
  Parser.parsesTo table noBounds
    [leftParen 0; operator "*" 1; leftParen 2; identifier "a" 3; operator "+" 5;
     identifier "b" 7; rightParen 8; rightParen 9; endOfInput 10]
    (Parser.Returned
       [Stmt.Expression
          (Expr.Grouping (leftParen 0)
             (Expr.Section (operator "*" 1)
                (Expr.Grouping (leftParen 2)
                   (Expr.Binary (Expr.Var (identifier "a" 3)) (operator "+" 5)
                      (Expr.Var (identifier "b" 7)) (number 6))
                   (rightParen 8))
                SideLeft)
             (rightParen 9))] []).
Proof. run_parser 40. Qed.

(** C6 fails for the two unsupported forms: the unit literal [()] and the
    type annotation [a :: b] end the run with an exception that leaves
    [parse]; the sink receives nothing and no token comes with them. *)
Lemma unsupported_syntax_counterexample :
  Parser.parsesTo table noBounds
    [leftParen 0; rightParen 1; endOfInput 2]
    (Parser.Propagated
       (Parser.ThrownString "Encountered unit literal, but unit isn't supported yet"))
  /\ Parser.parsesTo table noBounds
       [identifier "a" 0; token TokenType.ColonColon "::" 2; identifier "b" 5;
        endOfInput 6]
       (Parser.Propagated
          (Parser.PlainError "Parsing type annotations isn't supported yet")).
Proof. split; run_parser 20. Qed.

(** [= code]: the left-hand side is [Empty], the error carries it, and it
    has no span to report. *)
Example empty_left_side_has_no_span :
  Parser.parsesTo table noBounds
    [token TokenType.Equal "=" 0; code "return 1" 2; endOfInput 12]
    (Parser.NoSpan [] Expr.Empty expectedVariable).
Proof. run_parser 20. Qed.

(** [f x y] is [(f x) y]. *)
Lemma juxtaposition_witness :
  Parser.parsesTo table noBounds
    [identifier "f" 0; identifier "x" 2; identifier "y" 4; endOfInput 5]
    (Parser.Returned
       [Stmt.Expression
          (Expr.Application
             (Expr.Application (Expr.Var (identifier "f" 0)) (Expr.Var (identifier "x" 2)))
             (Expr.Var (identifier "y" 4)))] []).
Proof.
  apply (juxtaposition_nests_left table noBounds
           (identifier "f" 0) (identifier "x" 2) (identifier "y" 4) (endOfInput 5));
    reflexivity.
Defined.


(** [( f] is three tokens with its end: 31 units of fuel are enough, and
    the run is the report of the parenthesis that is not closed. *)
Lemma linear_fuel_witness :
  8 * length [leftParen 0; identifier "f" 2; endOfInput 3] + 7 <= 31
  /\ Parser.parse table noBounds 31
       [leftParen 0; identifier "f" 2; endOfInput 3]
     = Parser.Returned []
         [ReportToken (endOfInput 3) "Expect ')' after expression."]
  /\ Parser.parse table noBounds 31
       [leftParen 0; identifier "f" 2; endOfInput 3] <> Parser.OutOfFuel
  /\ Parser.parsesTo table noBounds
       [leftParen 0; identifier "f" 2; endOfInput 3]
       (Parser.parse table noBounds 31
          [leftParen 0; identifier "f" 2; endOfInput 3]).
Proof.
  split; [cbn; lia|]. split; [vm_compute; reflexivity|].
  apply (parse_completes_within_linear_fuel table noBounds
           [leftParen 0; identifier "f" 2; endOfInput 3] 31).
  cbn. lia.
Defined.

(** ** The interpreter on sample programs *)

Definition callF : Event := EvCall (Native "f") [num 1; num 2; num 3].

(** [f x y z] is one call of [f] on the three values. *)
Lemma application_spine_witness :
  exists m0, forall m, m0 <= m ->
    exists before,
      evaluate arithmetic m builtins fxyz
      = (before ++ [callF], Done (VArray [num 1; num 2; num 3]))
      /\ Permutation before
           ([EvLookup "f"] ++ concat [[EvLookup "x"]; [EvLookup "y"]; [EvLookup "z"]]).
Proof.
  apply (application_spine_is_one_call arithmetic builtins fxyz 5
           [EvLookup "f"] (VHost (Native "f"))
           [([EvLookup "x"], num 1); ([EvLookup "y"], num 2); ([EvLookup "z"], num 3)]
           [callF] (Done (VArray [num 1; num 2; num 3]))).
  - discriminate.
  - reflexivity.
  - reflexivity.
  - repeat constructor.
  - reflexivity.
  - discriminate.
Defined.



Definition plus_ := operator "+" 1.
Definition five : Expr.t := Expr.Literal (PNumber (number 5)) (numeral 5 "5" 0).

(** [(+ x)] applied to [5] and [5 + x]; [(x +)] applied to [5] and [x + 5]. *)
Lemma section_round_trip_witness :
  snd (call arithmetic 3 builtins Plain (VSectionFn plus_ (var "x" 3) SideLeft) [num 5])
  = snd (evaluate arithmetic 3 builtins (Expr.Binary five plus_ (var "x" 3) (number 6)))
  /\ snd (call arithmetic 3 builtins Plain (VSectionFn plus_ (var "x" 3) SideRight)
            [num 5])
     = snd (evaluate arithmetic 3 builtins
              (Expr.Binary (var "x" 3) plus_ five (number 6))).
Proof.
  destruct (section_agrees_with_binary arithmetic builtins 2 plus_
              (mkBinding "" (VHost (Native "add"))) (var "x" 3) five [] (num 5)
              (number 6) eq_refl (arithmetic_ignoresReceiver _) eq_refl)
    as [Hleft Hright].
  split; [apply (Hleft [] _ eq_refl) | apply (Hright [] _ eq_refl)].
Defined.

(** A host whose compiled functions return their [this]: the entry they
    were read from in a method call, the global object in a plain call. *)
Definition thisReader : Host := {|
  hostCall f this args :=
    match f with
    | Compiled _ _ =>
        match this with
        | Plain => inl (VObject "globalThis")
        | OfEntry _ => inl (VObject "entry")
        | OfInherited key => inl (VObject key)
        end
    | Native _ => inl (VArray args)
    end;
  syntaxError _ _ := None;
  hasRunIO _ := false;
  runIO _ := None;
  toString _ := inl "[value]";
  inherited := fromObjectPrototype;
|}.

Definition diamond := operator "<>" 1.

(** What [(<>) a b = return this] binds. *)
Definition selfBindings : gmap string Binding :=
  {[ "<>" := mkBinding "" (VHost (Compiled ["a"; "b"] "return this")) ]}.

(** [(<>) a b = return this] parses to the binding of the operator, and
    executing it binds the operator to the compiled function. *)
Example self_binding :
  Parser.parsesTo table noBounds
    [leftParen 0; diamond; rightParen 3; identifier "a" 5; identifier "b" 7;
     token TokenType.Equal "=" 9; code "return this" 11; endOfInput 24]
    (Parser.Returned
       [Stmt.Binding diamond [identifier "a" 5; identifier "b" 7]
          (code "return this" 11)] [])
  /\ execute thisReader 0 ∅
       (Stmt.Binding diamond [identifier "a" 5; identifier "b" 7]
          (code "return this" 11))
     = ([], Done (selfBindings, VUndefined)).
Proof. split; [run_parser 30 | reflexivity]. Qed.

(** C3 fails for an operator that reads [this]: under [selfBindings],
    [(<> 1)] applied to [5] calls the operator on its own and returns the
    global object, and [5 <> 1] calls it as a method of its entry and
    returns the entry. *)
Lemma receiver_counterexample :
  evaluate thisReader 3 selfBindings
    (Expr.Section diamond (Expr.Literal (PNumber (number 1)) (numeral 1 "1" 4)) SideLeft)
  = ([], Done (VSectionFn diamond
                 (Expr.Literal (PNumber (number 1)) (numeral 1 "1" 4)) SideLeft))
  /\ snd (call thisReader 3 selfBindings Plain
            (VSectionFn diamond
               (Expr.Literal (PNumber (number 1)) (numeral 1 "1" 4)) SideLeft)
            [num 5])
     = Done (VObject "globalThis")
  /\ snd (evaluate thisReader 3 selfBindings
            (Expr.Binary five diamond
               (Expr.Literal (PNumber (number 1)) (numeral 1 "1" 4)) (number 6)))
     = Done (VObject "entry")
  /\ snd (call thisReader 3 selfBindings Plain
            (VSectionFn diamond
               (Expr.Literal (PNumber (number 1)) (numeral 1 "1" 4)) SideLeft)
            [num 5])
     <> snd (evaluate thisReader 3 selfBindings
               (Expr.Binary five diamond
                  (Expr.Literal (PNumber (number 1)) (numeral 1 "1" 4)) (number 6))).
Proof.
  split; [reflexivity|]. split; [reflexivity|]. split; [reflexivity|].
  vm_compute. discriminate.
Qed.

(** A section created where neither its operator nor its operand is bound,
    and called where both are. *)
Lemma late_section_witness :
  evaluate arithmetic 3 (∅ : gmap string Binding)
    (Expr.Section plus_ (var "x" 3) SideLeft)
  = ([], Done (VSectionFn plus_ (var "x" 3) SideLeft))
  /\ call arithmetic 3 builtins Plain (VSectionFn plus_ (var "x" 3) SideLeft) [num 5]
     = (EvLookup "+" :: [EvLookup "x"] ++ [EvCall (Native "add") [num 5; num 1]],
        Done (num 6)).
Proof.
  apply (section_is_late_on_both arithmetic ∅ builtins 2 plus_ (var "x" 3) SideLeft
           (mkBinding "" (VHost (Native "add"))) (num 5) []
           [EvLookup "x"] (num 1) [EvCall (Native "add") [num 5; num 1]]
           (Done (num 6))); reflexivity.
Defined.

(** C9 fails on the operand: evaluating the section [(+ nope)] where [nope]
    is unbound returns the callable and reads nothing, although evaluating
    the operand raises; the operand is read at each call, so two calls read
    it twice. *)
Lemma section_operand_counterexample :
  evaluate arithmetic 5 builtins (Expr.Section plus_ (var "nope" 3) SideLeft)
  = ([], Done (VSectionFn plus_ (var "nope" 3) SideLeft))
  /\ evaluate arithmetic 5 builtins (var "nope" 3)
     = ([EvLookup "nope"],
        Raise (RuntimeError (identifier "nope" 3)
                 (undefinedVariable (identifier "nope" 3))))
  /\ fst (call arithmetic 5 builtins Plain (VSectionFn plus_ (var "x" 3) SideLeft) [num 5])
     ++ fst (call arithmetic 5 builtins Plain (VSectionFn plus_ (var "x" 3) SideLeft) [num 7])
     = [EvLookup "+"; EvLookup "x"; EvCall (Native "add") [num 5; num 1];
        EvLookup "+"; EvLookup "x"; EvCall (Native "add") [num 7; num 1]].
Proof. repeat split. Qed.

Definition nope : Token := identifier "nope" 3.

(** ** From tokens to values *)

(** [parse] then [evaluate] on a program that is one expression: the
    events and the outcome, or nothing when the tokens do not parse to one
    expression statement. *)
Definition run (toks : list Token) : option (M Value) :=
  match Parser.parse table noBounds 60 toks with
  | Parser.Returned [Stmt.Expression expr] [] =>
      Some (evaluate arithmetic 60 builtins expr)
  | _ => None
  end.

(** [2 + 3 * 4] is 14. *)
Example two_plus_three_times_four :
  run [numeral 2 "2" 0; operator "+" 2; numeral 3 "3" 4; operator "*" 6;
       numeral 4 "4" 8; endOfInput 9]
  = Some ([EvLookup "*"; EvCall (Native "mul") [num 3; num 4];
           EvLookup "+"; EvCall (Native "add") [num 2; num 12]],
          Done (num 14)).
Proof. vm_compute. reflexivity. Qed.

(** [(+ 1) 5] is 6. *)
Example section_applied :
  run [leftParen 0; operator "+" 1; numeral 1 "1" 3; rightParen 4;
       numeral 5 "5" 6; endOfInput 7]
  = Some ([EvLookup "+"; EvCall (Native "add") [num 5; num 1]], Done (num 6)).
Proof. vm_compute. reflexivity. Qed.

(** [((f x) y) z] is the same single call of [f] as [f x y z]. *)
Example parenthesised_spine :
  run [leftParen 0; leftParen 1; identifier "f" 2; identifier "x" 4; rightParen 5;
       identifier "y" 7; rightParen 8; identifier "z" 10; endOfInput 11]
  = Some ([EvLookup "y"; EvLookup "z"; EvLookup "x"; EvLookup "f"; callF],
          Done (VArray [num 1; num 2; num 3])).
Proof. vm_compute. reflexivity. Qed.

(** An unbound variable is a [RuntimeError] that names it. *)
Example unbound_variable :
  run [identifier "nope" 3; endOfInput 7]
  = Some ([EvLookup "nope"], Raise (RuntimeError nope (undefinedVariable nope))).
Proof. vm_compute. reflexivity. Qed.

(** ** Batches of statements *)

(** [x], then the unbound [nope], then [y]. *)
Definition batch : list Stmt.t :=
  [Stmt.Expression (var "x" 0)] ++ Stmt.Expression (Expr.Var nope) :: [Stmt.Expression (var "y" 9)].

Lemma sample_prefix_completed :
  completed (interpret arithmetic 3 builtins [Stmt.Expression (var "x" 0)]).
Proof. split; reflexivity. Defined.


(** C7 fails on a name the environment object inherits.  With the
    environment a plain object, the statement [toString] passes the [in]
    test of [evaluate] although nothing binds it: the variable evaluates
    to the [value] member of [Object.prototype.toString], which is
    [undefined]; no [RuntimeError] is raised, the sink receives nothing,
    the statement adds no result, and the statement after it is executed. *)
Lemma inherited_name_is_not_reported :
  builtins !! "toString" = None
  /\ evaluate arithmetic 3 builtins (var "toString" 0)
     = ([EvLookup "toString"], Done VUndefined)
  /\ interpret arithmetic 3 builtins [Stmt.Expression (var "toString" 0)]
     = mkRun [] [] builtins [EvLookup "toString"] Returned
  /\ interpret arithmetic 3 builtins
       [Stmt.Expression (var "toString" 0); Stmt.Expression (var "x" 9)]
     = mkRun ["[value]"] [] builtins [EvLookup "toString"; EvLookup "x"] Returned
  /\ interpret arithmetic 3 builtins [Stmt.Expression (var "toString" 0)]
     <> mkRun [] [ReportSpan 0 8 (undefinedVariable (identifier "toString" 0))]
          builtins [EvLookup "toString"] Returned.
Proof.
  split; [reflexivity|]. split; [reflexivity|]. split; [reflexivity|].
  split; [reflexivity|]. vm_compute. discriminate.
Qed.

(** The result of [x] is still returned. *)
Lemma partial_results_witness :
  completion (interpret arithmetic 3 builtins batch) = Returned
  /\ results (interpret arithmetic 3 builtins batch) = ["[value]"]
  /\ reports (interpret arithmetic 3 builtins batch)
     = [ReportSpan 3 7 (undefinedVariable nope)].
Proof.
  apply (partial_results_returned arithmetic 3 builtins
           [Stmt.Expression (var "x" 0)] (Stmt.Expression (Expr.Var nope))
           [Stmt.Expression (var "y" 9)] [EvLookup "nope"] nope
           (undefinedVariable nope) sample_prefix_completed).
  reflexivity.
Defined.

Definition answer : Token := code "return 42" 4.


(** ** More programs *)

Definition lineBreak := token TokenType.LineBreak ";".
Definition comma := token TokenType.Comma ",".
Definition leftBracket := token TokenType.LeftBracket "[".
Definition rightBracket := token TokenType.RightBracket "]".
Definition equal := token TokenType.Equal "=".

Definition f_ := identifier "f" 0.
Definition x_ := identifier "x" 2.
Definition y_ := identifier "y" 4.
Definition one_ := numeral 1 "1" 2.
Definition two_ := numeral 2 "2" 5.

Ltac facts := repeat first [reflexivity | discriminate | constructor].

(** [f x y] *)
Lemma application_witness :
  Parser.parsesTo table noBounds [f_; x_; y_; endOfInput 5]
    (Parser.Returned [Stmt.Expression (spine f_ [x_; y_])] []).
Proof.
  apply (application_nests_left table noBounds f_ [x_; y_] (endOfInput 5)); facts.
Defined.

(** [f x] and [y], a line each. *)
Lemma lines_witness :
  Parser.parsesTo table noBounds
    (flat_map lineTokens [(f_, [x_], lineBreak 3); (y_, [], lineBreak 5)]
     ++ [endOfInput 6])
    (Parser.Returned
       (lineStatement <$> [(f_, [x_], lineBreak 3); (y_, [], lineBreak 5)]) []).
Proof.
  apply (one_statement_per_line table noBounds
           [(f_, [x_], lineBreak 3); (y_, [], lineBreak 5)] (endOfInput 6)); facts.
Defined.

(** [f x )] *)
Lemma stray_token_witness :
  Parser.parsesTo table noBounds [f_; x_; rightParen 3; endOfInput 4]
    (Parser.Returned [] [ReportToken (rightParen 3) "Expect new line after expression."]).
Proof.
  apply (statement_ends_at_line_break table noBounds f_ [x_] (rightParen 3)
           [endOfInput 4]); facts.
Defined.

(** [f x = code] *)
Lemma binding_parse_witness :
  Parser.parsesTo table noBounds [f_; x_; equal 4; code "return x" 6; endOfInput 14]
    (Parser.Returned [Stmt.Binding f_ [x_] (code "return x" 6)] []).
Proof.
  apply (binding_statement_parses table noBounds f_ [x_] (equal 4)
           (code "return x" 6) (endOfInput 14)); facts.
Defined.

(** [f 1 = code] *)
Lemma binding_left_side_witness :
  Parser.parsesTo table noBounds
    ([f_] ++ one_ :: [] ++ equal 4 :: [code "return 1" 6; endOfInput 14])
    (Parser.Returned [] [ReportSpan 0 0 expectedVariable]).
Proof.
  apply (proj2 (binding_left_side_must_be_variables table noBounds [f_] one_ []
                  (equal 4) [code "return 1" 6; endOfInput 14]
                  ltac:(facts) eq_refl eq_refl ltac:(facts) eq_refl) 0 0 eq_refl).
Defined.

(** [f x = 2] *)
Lemma binding_right_side_witness :
  Parser.parsesTo table noBounds [f_; x_; equal 4; two_; endOfInput 7]
    (Parser.Returned [] [ReportToken two_ expectedCode]).
Proof.
  apply (binding_right_side_must_be_code table noBounds f_ [x_] (equal 4) two_
           [endOfInput 7]); facts.
Defined.

(** [[ 1 , 2 ]] and [[ ]] *)
Lemma list_witness :
  Parser.parsesTo table noBounds
    (leftBracket 0 :: one_ :: separated [(comma 3, two_)]
     ++ [rightBracket 6; endOfInput 7])
    (Parser.Returned
       [Stmt.Expression (Expr.List (atomExpr one_ :: itemsOf [(comma 3, two_)]))] [])
  /\ Parser.parsesTo table noBounds [leftBracket 0; rightBracket 6; endOfInput 7]
       (Parser.Returned [Stmt.Expression (Expr.List [])] []).
Proof.
  apply (list_literal_parses table noBounds (leftBracket 0) one_ [(comma 3, two_)]
           (rightBracket 6) (endOfInput 7)); facts.
Defined.

(** [[ 1 , 2] with nothing after it. *)
Lemma unterminated_list_witness :
  Parser.parsesTo table noBounds
    (leftBracket 0 :: one_ :: separated [(comma 3, two_)] ++ [endOfInput 7])
    (Parser.Returned [] [ReportToken (endOfInput 7) "Unterminated list literal"])
  /\ Parser.parsesTo table noBounds [leftBracket 0; endOfInput 7]
       (Parser.Returned [] [ReportToken (endOfInput 7) "Unterminated list literal"]).
Proof.
  apply (proj1 (list_literal_errors table noBounds (leftBracket 0) one_
                  [(comma 3, two_)] eq_refl eq_refl ltac:(facts))
           (endOfInput 7)).
  reflexivity.
Defined.

(** [[ 1 , ]] *)
Lemma trailing_comma_witness :
  Parser.parsesTo table noBounds
    (leftBracket 0 :: one_ :: separated [] ++ [comma 3; rightBracket 6; endOfInput 7])
    (Parser.Returned
       [Stmt.Expression (Expr.List (atomExpr one_ :: itemsOf [] ++ [Expr.Empty]))] []).
Proof.
  apply (trailing_comma_adds_empty_item table noBounds (leftBracket 0) one_ []
           (comma 3) (rightBracket 6) (endOfInput 7)); facts.
Defined.

(** [( f x )], [( + f x )] and [( f x + )] *)
Lemma parenthesised_witness :
  Parser.parsesTo table noBounds (leftParen 0 :: f_ :: [x_] ++ [rightParen 5; endOfInput 6])
    (Parser.Returned
       [Stmt.Expression (Expr.Grouping (leftParen 0) (spine f_ [x_]) (rightParen 5))] [])
  /\ (forall p a,
        table !! lexeme plus_ = Some (p, a) ->
        Parser.parsesTo table noBounds
          (leftParen 0 :: plus_ :: f_ :: [x_] ++ [rightParen 5; endOfInput 6])
          (Parser.Returned
             [Stmt.Expression
                (Expr.Grouping (leftParen 0)
                   (Expr.Section plus_ (spine f_ [x_]) SideLeft) (rightParen 5))] [])
        /\ Parser.parsesTo table noBounds
             (leftParen 0 :: f_ :: [x_] ++ [plus_; rightParen 5; endOfInput 6])
             (Parser.Returned
                [Stmt.Expression
                   (Expr.Grouping (leftParen 0)
                      (Expr.Section plus_ (spine f_ [x_]) SideRight) (rightParen 5))]
                [])).
Proof.
  apply (parenthesised_forms table noBounds (leftParen 0) f_ [x_] (rightParen 5)
           (endOfInput 6) plus_); facts.
Defined.

(** [( + ) 1 2] *)
Lemma operator_function_witness :
  Parser.parsesTo table noBounds
    (leftParen 0 :: plus_ :: rightParen 2 :: [one_; two_] ++ [endOfInput 7])
    (Parser.Returned [Stmt.Expression (applyAll (Expr.Var plus_) [one_; two_])] []).
Proof.
  apply (operator_in_parentheses_is_a_function table noBounds (leftParen 0) plus_
           (rightParen 2) [one_; two_] (endOfInput 7)); facts.
Defined.

(** [( f x] with nothing after it. *)
Lemma unclosed_parenthesis_witness :
  Parser.parsesTo table noBounds (leftParen 0 :: f_ :: [x_] ++ endOfInput 6 :: [])
    (Parser.Returned [] [ReportToken (endOfInput 6) "Expect ')' after expression."]).
Proof.
  apply (proj1 (parenthesis_errors table noBounds (leftParen 0) f_ [x_]
                  eq_refl eq_refl ltac:(facts))
           (endOfInput 6) []); facts.
Defined.



(** The same tokens ahead, behind a token and at the start. *)
Lemma reads_only_ahead_witness :
  alike (Parser.statement table 20 (Parser.mkCursor [rightParen 0; f_; x_; endOfInput 3] 1))
        (Parser.statement table 20 (Parser.mkCursor [f_; x_; endOfInput 3] 0))
  /\ Parser.parseLoop table noBounds 20 []
       (Parser.mkCursor [rightParen 0; f_; x_; endOfInput 3] 1)
     = Parser.parse table noBounds 20 [f_; x_; endOfInput 3].
Proof.
  destruct (parser_reads_only_ahead table noBounds 20
              (Parser.mkCursor [rightParen 0; f_; x_; endOfInput 3] 1)
              (Parser.mkCursor [f_; x_; endOfInput 3] 0) eq_refl) as (_ & Hs & Hp).
  split; [exact Hs|apply Hp].
Defined.

Lemma application_parses :
  Parser.parsesTo table noBounds [f_; x_; endOfInput 3]
    (Parser.Returned [Stmt.Expression (spine f_ [x_])] []).
Proof. run_parser 20. Qed.

(** Two empty lines, then [f x]. *)
Lemma blank_lines_witness :
  Parser.parsesTo table noBounds
    ([lineBreak 0; lineBreak 1] ++ [f_; x_; endOfInput 3])
    (Parser.Returned [Stmt.Expression (spine f_ [x_])] []).
Proof.
  apply (proj2 (blank_lines_are_ignored table noBounds [lineBreak 0; lineBreak 1]
                  ltac:(facts))).
  exact application_parses.
Defined.

Lemma variable_parses :
  Parser.parsesTo table noBounds [y_; endOfInput 5]
    (Parser.Returned [Stmt.Expression (spine y_ [])] []).
Proof. run_parser 20. Qed.

(** [f x], a line break, [y]. *)
Lemma lines_compose_witness :
  Parser.parsesTo table noBounds ([f_; x_] ++ lineBreak 3 :: [y_; endOfInput 5])
    (prepend [Stmt.Expression (spine f_ [x_])]
       (Parser.Returned [Stmt.Expression (spine y_ [])] [])).
Proof.
  apply (clean_lines_compose table noBounds [f_; x_] (endOfInput 3) (lineBreak 3)
           [y_; endOfInput 5] [Stmt.Expression (spine f_ [x_])]
           (Parser.Returned [Stmt.Expression (spine y_ [])] [])
           ltac:(facts) eq_refl eq_refl application_parses variable_parses).
Defined.

(** ** More evaluations *)

(** [5 x] and [5 x y]: a number is applied. *)
Lemma unexpected_function_witness :
  (exists m0, forall m, m0 <= m ->
     evaluate arithmetic m builtins (Expr.Application five (var "x" 2))
     = ([], Raise unexpectedFunction))
  /\ exists m0, forall m, m0 <= m ->
       evaluate arithmetic m builtins
         (Expr.Application (Expr.Application five (var "x" 2)) (var "y" 4))
       = ([EvLookup "x"] ++ [EvLookup "y"] ++ concat (reverse []),
          Raise unexpectedFunction).
Proof.
  split.
  - apply (proj1 (unexpected_function_after_operands arithmetic builtins
                    (Expr.Application five (var "x" 2)) 1 eq_refl) (var "x" 2)).
    reflexivity.
  - apply (proj2 (unexpected_function_after_operands arithmetic builtins
                    (Expr.Application (Expr.Application five (var "x" 2)) (var "y" 4))
                    1 eq_refl)
             [] (var "x" 2) (var "y" 4) [] [EvLookup "x"] (num 1) [EvLookup "y"] (num 2));
      facts.
Defined.

Definition minus_ := operator "-" 1.

(** [( - x ) 5], where [-] is not bound. *)
Lemma unbound_section_witness :
  evaluate arithmetic 2 builtins (Expr.Section minus_ (var "x" 3) SideLeft)
  = ([], Done (VSectionFn minus_ (var "x" 3) SideLeft))
  /\ forall m, 1 + 4 <= m ->
       evaluate arithmetic m builtins
         (Expr.Application
            (Expr.Grouping (leftParen 0) (Expr.Section minus_ (var "x" 3) SideLeft)
               (rightParen 4)) five)
       = ([] ++ [EvLookup "-"], Raise (TypeError "Cannot read properties of undefined")).
Proof.
  destruct (section_of_unbound_operator arithmetic builtins 1 minus_ (var "x" 3)
              SideLeft (leftParen 0) (rightParen 4) five [] (num 5)
              eq_refl eq_refl) as [Hsection [Hcall _]].
  split; [exact Hsection | exact (Hcall eq_refl)].
Defined.

(** [( + ) 5 x] does what [5 + x] does. *)
Lemma operator_as_function_witness :
  exists m0, forall m, m0 <= m ->
    evaluate arithmetic m builtins
      (Expr.Application (Expr.Application (Expr.Var plus_) five) (var "x" 3))
    = ([EvLookup "x"; EvLookup "+"; EvCall (Native "add") [num 5; num 1]],
       Done (num 6)).
Proof.
  apply (proj1 (operator_as_function_agrees_with_binary arithmetic builtins plus_
                  (mkBinding "" (VHost (Native "add"))) five (var "x" 3) (number 6) 3
                  [EvLookup "x"; EvLookup "+"; EvCall (Native "add") [num 5; num 1]]
                  (Done (num 6)) eq_refl (arithmetic_ignoresReceiver _)
                  ltac:(discriminate))).
  reflexivity.
Defined.

(** [[ 5 , x ]] *)
Lemma list_evaluation_witness :
  evaluate arithmetic 2 builtins (Expr.List [five; var "x" 3])
  = (concat [[]; [EvLookup "x"]], Done (VArray [num 5; num 1])).
Proof.
  apply (proj1 (list_items_left_to_right arithmetic builtins 1)
           [five; var "x" 3] [([], num 5); ([EvLookup "x"], num 1)]).
  facts.
Defined.

Lemma prefix_completed :
  completed (interpret arithmetic 5 builtins [Stmt.Expression (var "x" 0)]).
Proof. split; reflexivity. Defined.

(** [x], then [5 x], then [y]: the plain error of the second statement
    leaves [interpret] and nothing is reported. *)
Lemma other_exception_witness :
  let run := interpret arithmetic 5 builtins
               ([Stmt.Expression (var "x" 0)]
                ++ Stmt.Expression (Expr.Application five (var "x" 2))
                :: [Stmt.Expression (var "y" 9)]) in
  completion run = Propagated unexpectedFunction
  /\ reports run = []
  /\ trace run = trace (interpret arithmetic 5 builtins [Stmt.Expression (var "x" 0)]) ++ []
  /\ finalBindings run
     = finalBindings (interpret arithmetic 5 builtins [Stmt.Expression (var "x" 0)]).
Proof.
  apply (other_exceptions_leave_interpret arithmetic 5 builtins
           [Stmt.Expression (var "x" 0)]
           (Stmt.Expression (Expr.Application five (var "x" 2)))
           [Stmt.Expression (var "y" 9)] [] unexpectedFunction prefix_completed);
    reflexivity.
Defined.

(** [x], then a binding whose initializer holds no source text. *)
Lemma failed_binding_witness :
  interpret arithmetic 5 builtins
    ([Stmt.Expression (var "x" 0)]
     ++ Stmt.Binding (identifier "k" 0) [] one_ :: [Stmt.Expression (var "y" 9)])
  = caught (results (interpret arithmetic 5 builtins [Stmt.Expression (var "x" 0)]))
      (finalBindings (interpret arithmetic 5 builtins [Stmt.Expression (var "x" 0)]))
      (trace (interpret arithmetic 5 builtins [Stmt.Expression (var "x" 0)]))
      (PlainError "Initializer doesn't contain a source code string").
Proof.
  apply (proj1 (failed_binding_binds_nothing arithmetic 4 builtins
                  [Stmt.Expression (var "x" 0)] (identifier "k" 0) [] one_
                  [Stmt.Expression (var "y" 9)] prefix_completed)).
  intros body. discriminate.
Defined.


(** A binding of [k] leaves the entry of [x] as it was. *)
Lemma bound_names_witness :
  finalBindings (interpret arithmetic 3 builtins
                   [Stmt.Binding (identifier "k" 0) [] answer;
                    Stmt.Expression (Expr.Var nope)]) !! "x"
  = builtins !! "x".
Proof.
  apply (proj1 (interpret_writes_only_bound_names arithmetic 3 builtins
                  [Stmt.Binding (identifier "k" 0) [] answer;
                   Stmt.Expression (Expr.Var nope)] "x")).
  apply not_elem_of_cons. split; [discriminate|apply not_elem_of_nil].
Defined.


End Samples.
